(** * Retro-Reader decision fusion and ALBERT language-model input conversion

    A shallow embedding of
    - [uf/modeling/retro_reader.py]: the scoring part and the losses of
      [RetroReaderDecoder.__init__], [create_attention_mask_from_input_mask]
      and [attention_layer];
    - [uf/apps/albert.py]: [ALBERTLM.convert] and [ALBERTLM._convert_X], the
      MLM accuracy of [ALBERTLM._get_fit_info] and the MLM predictions of
      [ALBERTLM._get_predict_outputs].

    Conventions.
    - A float32 tensor is a nested list of real numbers: the arithmetic of
      the graph is read in the reals, rounding is not modelled.
    - An operation that TensorFlow rejects (an index outside a static
      dimension, shapes that do not broadcast, a reshape that changes the
      number of elements) returns [None].
    - Python exceptions are values of [exn]; code that can raise runs in a
      state-and-exception monad. *)

From Stdlib Require Import Reals Lra ZArith List String Ascii DecimalString Sorted.
From stdpp Require Import base option list strings gmap.

(** ** Tensors as nested lists *)

Module Tensor.

Local Open Scope R_scope.

#[export] Instance Rlt_decision (x y : R) : Decision (x < y) := Rlt_dec x y.

(** [t[:, j]] on the outermost-but-one dimension: the index must exist in
    every row. *)
Definition index_col {A} (j : nat) (t : list (list A)) : option (list A) :=
  mapM (λ row, row !! j) t.

(** A binary elementwise operation with TensorFlow's broadcasting rule on
    the leading dimension: equal sizes are zipped, a dimension of size one
    is stretched, anything else is an error. The operation on the elements
    may itself be a broadcast over the next dimension. *)
Definition broadcast {A B C} (f : A → B → option C)
    (xs : list A) (ys : list B) : option (list C) :=
  if (length xs =? length ys)%nat then mapM (λ p, f p.1 p.2) (zip xs ys)
  else match xs, ys with
       | [x], _ => mapM (f x) ys
       | _, [y] => mapM (λ x, f x y) xs
       | _, _ => None
       end.

Definition lift2 (f : R → R → R) : R → R → option R := λ a b, Some (f a b).

Definition tf_add1 : list R → list R → option (list R) := broadcast (lift2 Rplus).
Definition tf_sub1 : list R → list R → option (list R) := broadcast (lift2 Rminus).
Definition tf_add2 : list (list R) → list (list R) → option (list (list R)) :=
  broadcast tf_add1.

Definition tf_add4 := broadcast (broadcast (broadcast tf_add1)).
Definition tf_mul3 := broadcast (broadcast (broadcast (lift2 Rmult))).

(** [tf.ones([d1, d2, d3])] *)
Definition tf_ones3 (d1 d2 d3 : nat) : list (list (list R)) :=
  replicate d1 (replicate d2 (replicate d3 1)).

(** [tf.reshape(t, [d1, d2, d3])] on the row-major sequence of the elements
    of [t]: rejected unless the number of elements is [d1 * d2 * d3]. *)
Definition reshape3 {A} (flat : list A) (d1 d2 d3 : nat)
    : option (list (list (list A))) :=
  if (length flat =? d1 * d2 * d3)%nat then
    Some ((λ i, (λ j, take d3 (drop ((i * d2 + j) * d3) flat)) <$> seq 0 d2)
            <$> seq 0 d1)
  else None.

Definition map3 {A B} (f : A → B) : list (list (list A)) → list (list (list B)) :=
  fmap (M := list) (fmap (M := list) (fmap (M := list) f)).
Definition map4 {A B} (f : A → B)
    : list (list (list (list A))) → list (list (list (list B))) :=
  fmap (M := list) (map3 f).

(** Element access [t[i, j]], [t[i, j, k]] and [t[i, j, k, l]]. *)
Definition ix2 {A} (t : list (list A)) (i j : nat) : option A :=
  row ← t !! i; row !! j.
Definition ix3 {A} (t : list (list (list A))) (i j k : nat) : option A :=
  m ← t !! i; ix2 m j k.
Definition ix4 {A} (t : list (list (list (list A)))) (i j k l : nat)
    : option A :=
  c ← t !! i; ix3 c j k l.

(** A rank-4 tensor of shape [d1, d2, d3, d4]. *)
Definition has_shape4 {A} (d1 d2 d3 d4 : nat)
    (t : list (list (list (list A)))) : Prop :=
  length t = d1 ∧
  Forall (λ c, length c = d2 ∧
    Forall (λ m, length m = d3 ∧ Forall (λ r, length r = d4) m) c) t.

(** [tf.expand_dims(t, axis=[1])] *)
Definition expand_dims_1 {A} (t : list A) : list (list A) := (λ x, [x]) <$> t.

(** scalar * tensor *)
Definition tf_scale (c : R) (t : list R) : list R := Rmult c <$> t.

(** [tf.greater(t, c)] against a scalar and [tf.cast(_, tf.int32)]. *)
Definition tf_greater (t : list R) (c : R) : list bool :=
  (λ x, bool_decide (c < x)) <$> t.
Definition cast_int32 (t : list bool) : list Z := Z.b2z <$> t.

Definition reduce_sum (x : list R) : R := foldr Rplus 0 x.

(** [tf.nn.softmax] along the last axis. *)
Definition softmax (x : list R) : list R :=
  let z := reduce_sum (exp <$> x) in (λ xi, exp xi / z) <$> x.

(** [tf.reduce_max] along the last axis. On an empty axis TensorFlow
    returns minus infinity, which is no real number: [None]. *)
Definition reduce_max (x : list R) : option R :=
  match x with
  | [] => None
  | x0 :: xs => Some (foldl Rmax x0 xs)
  end.

(** [tf.norm(_, np.inf, axis=-1)] is [reduce_max (abs _)]. *)
Definition norm_inf (t : list (list R)) : option (list R) :=
  mapM (λ row, reduce_max (Rabs <$> row)) t.

End Tensor.

(** ** The verifier of the Retro-Reader *)

Module RetroReader.

Import Tensor.
Local Open Scope R_scope.

(** The tensors the last part of [__init__] leaves behind. [score_ext],
    [score_has] and [score_null] are locals of the constructor; the others
    are stored in [self.probs] and [self.preds]. *)
Record outputs := {
  mrc_probs : list (list (list R));
  score_ext : list R;
  score_has : list R;
  score_null : list R;
  verifier_preds : list Z;
  verifier_probs : list R
}.

(** Sketchy reading module, line 83: [logits[:, 1] - logits[:, 0]] on the
    [batch, 2] logits of line 69. *)
Definition sketchy_score (logits : list (list R)) : option (list R) :=
  l1 ← index_col 1 logits;
  l0 ← index_col 0 logits;
  tf_sub1 l1 l0.

(** Intensive reading module, lines 156 and 180-182, on the
    [batch, 2, max_seq_length] logits of line 155. *)
Definition intensive_scores (logits : list (list (list R)))
    : option (list (list (list R)) * list R * list R) :=
  let probs := fmap (M := list) (fmap (M := list) softmax) logits in
  start_probs ← index_col 0 probs;
  end_probs ← index_col 1 probs;
  sum_tail ← tf_add2 (drop 1 <$> start_probs) (drop 1 <$> end_probs);
  score_has ← norm_inf sum_tail;
  start_0 ← index_col 0 start_probs;
  end_0 ← index_col 0 end_probs;
  score_null ← tf_add1 start_0 end_0;
  Some (probs, score_has, score_null).

(** Lines 183-189: [score_diff], the fusion score [v] and the decision. *)
Definition verifier (beta_1 beta_2 threshold : R)
    (score_has score_null score_ext : list R) : option (list Z * list R) :=
  score_diff ← tf_sub1 score_has score_null;
  v ← tf_add1 (tf_scale beta_1 score_diff) (tf_scale beta_2 score_ext);
  Some (cast_int32 (tf_greater v threshold), v).

(** The scoring pipeline of [RetroReaderDecoder.__init__], from the logits
    of the two prediction layers to the verifier outputs. The dense
    projections that produce the logits, dropout and the two losses are not
    part of the model. The result is [None] when TensorFlow rejects the
    shapes, and for [max_seq_length = 1], where [score_has] is a maximum
    over no position at all. *)
Definition RetroReaderDecoder (sketchy_logits : list (list R))
    (intensive_logits : list (list (list R)))
    (beta_1 beta_2 threshold : R) : option outputs :=
  score_ext ← sketchy_score sketchy_logits;
  '(probs, score_has, score_null) ← intensive_scores intensive_logits;
  '(preds, v) ← verifier beta_1 beta_2 threshold score_has score_null score_ext;
  Some {| mrc_probs := probs; score_ext := score_ext; score_has := score_has;
          score_null := score_null; verifier_preds := preds;
          verifier_probs := v |}.

(** A batch of [B] examples: sketchy logits [B, 2] and intensive logits
    [B, 2, L]. *)
Definition well_shaped (B L : nat) (sk : list (list R))
    (il : list (list (list R))) : Prop :=
  length sk = B ∧ Forall (λ row, length row = 2%nat) sk ∧
  length il = B ∧
  Forall (λ ex, length ex = 2%nat ∧ Forall (λ r, length r = L) ex) il.

(** [create_attention_mask_from_input_mask], lines 193-203. [to_mask] is the
    int32 query mask of shape [batch_size, max_seq_length]. *)
Definition create_attention_mask_from_input_mask (to_mask : list (list Z))
    (batch_size max_seq_length : nat) : option (list (list (list R))) :=
  reshaped ← reshape3 (concat to_mask) batch_size 1 max_seq_length;
  let to_mask := map3 IZR reshaped in
  let broadcast_ones := tf_ones3 batch_size max_seq_length 1 in
  tf_mul3 broadcast_ones to_mask.

(** [attention_layer], lines 285-290: the additive mask on the raw scores
    [B, N, F, T]. *)
Definition add_attention_mask (attention_scores : list (list (list (list R))))
    (attention_mask : option (list (list (list R))))
    : option (list (list (list (list R)))) :=
  match attention_mask with
  | None => Some attention_scores
  | Some attention_mask =>
      let attention_mask := expand_dims_1 attention_mask in
      let adder := map4 (λ m, (1 - m) * -10000) attention_mask in
      tf_add4 attention_scores adder
  end.

(** Lines 285-294: the probabilities are the softmax of the masked
    scores. *)
Definition attention_probs (attention_scores : list (list (list (list R))))
    (attention_mask : option (list (list (list R))))
    : option (list (list (list (list R)))) :=
  map3 softmax <$> add_attention_mask attention_scores attention_mask.

(** *** Shapes of the attention layer

    The shape of every tensor that [attention_layer] builds, computed as
    TensorFlow does: a list of dimensions, [None] where the graph is
    rejected. *)

Local Open Scope Z_scope.

Definition shape := list Z.

Definition numel (s : shape) : Z := foldr Z.mul 1%Z s.

(** [tf.reshape]: the element count is kept; one dimension may be [-1] and
    is then inferred. *)
Definition reshape_shape (s target : shape) : option shape :=
  if bool_decide ((-1)%Z ∈ target) then
    let known := numel (filter (λ d, d ≠ (-1)%Z) target) in
    if bool_decide (length (filter (λ d, d = (-1)%Z) target) = 1%nat
                    ∧ known ≠ 0%Z ∧ (numel s mod known = 0)%Z)
    then Some ((λ d, if bool_decide (d = (-1)%Z) then (numel s / known)%Z else d)
                 <$> target)
    else None
  else if bool_decide (numel s = numel target) then Some target else None.

(** [tf.transpose(t, perm)] *)
Definition transpose_shape (perm : list nat) (s : shape) : option shape :=
  mapM (λ p, s !! p) perm.

(** [tf.matmul(a, b, transpose_b=...)]: equal leading dimensions, matrix
    product on the last two. *)
Definition matmul_shape (a b : shape) (transpose_b : bool) : option shape :=
  match reverse a, reverse b with
  | k :: m :: batch_a, y :: x :: batch_b =>
      let '(inner, n) := if transpose_b then (y, x) else (x, y) in
      if bool_decide (batch_a = batch_b ∧ k = inner)
      then Some (reverse batch_a ++ [m; n]) else None
  | _, _ => None
  end.

(** [tf.layers.dense(t, units)]: the last dimension becomes [units]. *)
Definition dense_shape (s : shape) (units : Z) : option shape :=
  match reverse s with
  | _ :: rest => Some (reverse rest ++ [units])
  | [] => None
  end.

(** Shapes that broadcast against each other, dimension by dimension (equal
    ranks suffice here). *)
Definition broadcast_shape (a b : shape) : option shape :=
  if bool_decide (length a = length b) then
    mapM (λ p : Z * Z, if bool_decide (p.1 = p.2) then Some p.1
                       else if bool_decide (p.1 = 1%Z) then Some p.2
                       else if bool_decide (p.2 = 1%Z) then Some p.1
                       else None) (zip a b)
  else None.

Section AttentionShapes.

(** [util.reshape_to_matrix] is not among the sources: what it does to a
    shape is a parameter of the layer. *)
Variable reshape_to_matrix : shape → option shape.

(** [transpose_for_scores], lines 223-229. *)
Definition transpose_for_scores (input_tensor : shape)
    (batch_size num_attention_heads max_seq_length width : Z) : option shape :=
  output_tensor ← reshape_shape input_tensor
    [batch_size; max_seq_length; num_attention_heads; width];
  transpose_shape [0; 2; 1; 3]%nat output_tensor.

(** [attention_layer], lines 205-327, on shapes: the shapes of
    [(context_layer, attention_scores)]. The scaling of the scores, the
    softmax and dropout keep the shape of their argument. *)
Definition attention_layer (from_tensor to_tensor : shape)
    (attention_mask : option shape)
    (num_attention_heads size_per_head : Z) (do_return_2d_tensor : bool)
    (batch_size from_max_seq_length to_max_seq_length : Z)
    : option (shape * shape) :=
  from_tensor_2d ← reshape_to_matrix from_tensor;
  to_tensor_2d ← reshape_to_matrix to_tensor;
  query_layer ← dense_shape from_tensor_2d (num_attention_heads * size_per_head);
  key_layer ← dense_shape to_tensor_2d (num_attention_heads * size_per_head);
  value_layer ← dense_shape to_tensor_2d (num_attention_heads * size_per_head);
  query_layer ← transpose_for_scores query_layer batch_size
    num_attention_heads from_max_seq_length size_per_head;
  key_layer ← transpose_for_scores key_layer batch_size
    num_attention_heads to_max_seq_length size_per_head;
  attention_scores ← matmul_shape query_layer key_layer true;
  attention_scores ←
    match attention_mask with
    | None => Some attention_scores
    | Some attention_mask =>
        let attention_mask :=
          take 1 attention_mask ++ [1%Z] ++ drop 1 attention_mask in
        broadcast_shape attention_scores attention_mask
    end;
  let attention_probs := attention_scores in
  value_layer ← reshape_shape value_layer
    [batch_size; to_max_seq_length; num_attention_heads; size_per_head];
  value_layer ← transpose_shape [0; 2; 1; 3]%nat value_layer;
  context_layer ← matmul_shape attention_probs value_layer false;
  context_layer ← transpose_shape [0; 2; 1; 3]%nat context_layer;
  context_layer ←
    (if do_return_2d_tensor then
       reshape_shape context_layer
         [batch_size * from_max_seq_length; num_attention_heads * size_per_head]
     else
       reshape_shape context_layer
         [batch_size; from_max_seq_length; num_attention_heads * size_per_head]);
  Some (context_layer, attention_scores).

(** The cross-attention branch of [__init__], lines 94-112: the shape of
    [H_prime] for an intensive encoder output [H] of shape
    [batch_size, max_seq_length, hidden_size]. The query mask has shape
    [batch_size, max_seq_length, max_seq_length] after
    [create_attention_mask_from_input_mask]. *)
Definition cross_attention (batch_size max_seq_length hidden_size : Z)
    : option shape :=
  let H := [batch_size; max_seq_length; hidden_size] in
  let H_Q := H in
  let attention_mask := [batch_size; max_seq_length; max_seq_length] in
  '(H_prime, _) ← attention_layer H H_Q (Some attention_mask)
      12 (hidden_size / 12) false batch_size max_seq_length max_seq_length;
  Some H_prime.

(** The matching-attention branch, lines 115-135. *)
Definition matching_attention (batch_size max_seq_length hidden_size : Z)
    : option shape :=
  let H := [batch_size; max_seq_length; hidden_size] in
  let H_Q := H in
  let output_weights := [hidden_size; hidden_size] in
  let tiled := batch_size :: output_weights in
  trans ← matmul_shape H_Q tiled true;
  M ← matmul_shape H trans true;
  matmul_shape M H_Q false.

(** The prediction layer, lines 149-155: the shape of the start and end
    logits computed from [H_prime]. *)
Definition prediction_logits (H_prime : shape)
    (max_seq_length hidden_size : Z) : option shape :=
  output_layer ← reshape_shape H_prime [-1; hidden_size]%Z;
  logits ← matmul_shape output_layer [2; hidden_size]%Z true;
  logits ← reshape_shape logits [-1; max_seq_length; 2]%Z;
  transpose_shape [0; 2; 1]%nat logits.

End AttentionShapes.

(** The usual [reshape_to_matrix]: the last dimension is kept, the others
    are merged. *)
Definition flatten_to_matrix (s : shape) : option shape :=
  match reverse s with
  | width :: rest => Some [numel rest; width]
  | [] => None
  end.

End RetroReader.

(** ** The input conversion of the ALBERT language model *)

Module ALBERT.

Local Open Scope Z_scope.

(** *** Exceptions, state and the monad of the conversion code *)

(** The exceptions the code raises itself, and [Exception] for whatever a
    collaborator raises. Every exception of the model is caught by
    [except Exception]. *)
Inductive exn :=
  | ValueError (msg : string)
  | AssertionError (msg : string)
  | Exception (msg : string).

Inductive result (A : Type) :=
  | Ok (a : A)
  | Raise (e : exn).
Arguments Ok {A} a.
Arguments Raise {A} e.

(** The calls that leave [ALBERTLM]: to the base classes, the tokenizer,
    [com] and [model.albert]. *)
Inductive call :=
  | call_assert_legal
  | call_convert_x (idx : nat)
  | call_create_instances_from_document (idx : nat)
  | call_truncate_segments (idx : nat)
  | call_create_masked_lm_predictions (idx : nat)
  | call_convert_tokens_to_ids (idx : nat)
  | call_convert_y
  | call_convert_sample_weight.

Section Monad.

(** The state of Python's [random] module. *)
Context {Rng : Type}.

(** What a call can change: the random state, [self.batch_size], and the
    record of the calls made so far. *)
Record state := {
  rng : Rng;
  batch_size : Z;
  trace : list call
}.

Definition M (A : Type) : Type := state → result A * state.

#[export] Instance M_ret : MRet M := λ A a s, (Ok a, s).

#[export] Instance M_bind : MBind M :=
  λ A B k m s, match m s with
               | (Ok a, s') => k a s'
               | (Raise e, s') => (Raise e, s')
               end.

Definition raise {A} (e : exn) : M A := λ s, (Raise e, s).

(** [try: m except Exception: h] *)
Definition try_except {A} (m : M A) (h : exn → M A) : M A :=
  λ s, match m s with
       | (Ok a, s') => (Ok a, s')
       | (Raise e, s') => h e s'
       end.

(** [assert b, msg] *)
Definition py_assert (b : bool) (msg : string) : M unit :=
  if b then mret tt else raise (AssertionError msg).

Definition log (c : call) (s : state) : state :=
  {| rng := rng s; batch_size := batch_size s; trace := trace s ++ [c] |}.

(** A call to a deterministic collaborator. *)
Definition invoke {A} (c : call) (r : result A) : M A := λ s, (r, log c s).

(** A call to a collaborator that draws random numbers. *)
Definition invoke_random {A} (c : call) (f : Rng → result A * Rng) : M A :=
  λ s, let '(r, g) := f (rng s) in
       (r, {| rng := g; batch_size := batch_size s; trace := trace s ++ [c] |}).

Definition get_batch_size : M Z := λ s, (Ok (batch_size s), s).

Definition set_batch_size (b : Z) : M unit :=
  λ s, (Ok tt, {| rng := rng s; batch_size := b; trace := trace s |}).

(** [for x in l: body(x)], collecting the values of the body. *)
Fixpoint for_each {A B} (l : list A) (body : A → M B) : M (list B) :=
  match l with
  | [] => mret []
  | x :: l' => b ← body x; bs ← for_each l' body; mret (b :: bs)
  end.

End Monad.

Arguments state : clear implicits.
Arguments M : clear implicits.

(** [sub] occurs in [s]. *)
Definition contains (sub s : string) : Prop :=
  ∃ pre post : string, s = (pre ++ sub ++ post)%string.

Definition is_Ok {A} (r : result A) : Prop := ∃ a, r = Ok a.
Definition is_Raise {A} (r : result A) : Prop := ∃ e, r = Raise e.

(** [enumerate(l)] *)
Definition enumerate {A} (l : list A) : list (nat * A) := zip (seq 0 (length l)) l.

(** Truth value of an argument that is [None] or a list. *)
Definition truthy {A} (x : option (list A)) : bool :=
  match x with
  | Some (_ :: _) => true
  | _ => false
  end.

(** *** numpy arrays *)

Inductive ndarray :=
  | int32_1d (a : list Z)
  | int32_2d (a : list (list Z))
  | float32_1d (a : list R)
  | float32_2d (a : list (list R)).

Definition rectangular {A} (l : list (list A)) : bool :=
  forallb (λ row, length row =? length (default [] (head l)))%nat l.

(** [np.array] of a list of lists: ragged rows are rejected. *)
Definition np_array_2d {A Rng} (mk : list (list A) → ndarray) (l : list (list A))
    : M Rng ndarray :=
  if rectangular l then mret (mk l)
  else raise (ValueError "setting an array element with a sequence.").

(** *** The collaborators and the configuration *)

Section Conversion.

(** A raw sample, a raw label, and [str] on samples, which [%s] uses. *)
Context {sample label Rng : Type}.
Variable str : sample → string.

(** The code outside the two modelled methods: methods inherited from
    [BERTLM] and [LMModule], [com.truncate_segments], the tokenizer and the
    two sampling functions of [model.albert]. None of them is among the
    sources; each is a parameter, deterministic up to the random state.
    [truncate_segments] works in place in Python: here it returns the
    segments as it leaves them. The segment lists of different instances
    are taken not to share storage. *)
Record collaborators := {
  _assert_legal : option (list sample) → option (list label) → option (list R)
                  → option (list sample) → result unit;
  _convert_x : sample → bool → result (list (list string));
  _convert_y : list label → result (list Z);
  _convert_sample_weight : option (list R) → option nat → result (list R);
  truncate_segments : list (list string) → Z → string
                      → result (list (list string));
  convert_tokens_to_ids : list string → result (list Z);
  create_instances_from_document :
    list (list (list string)) → nat → Z → R → Z → R → list string
    → Rng → result (list (list (list string) * bool)) * Rng;
  create_masked_lm_predictions :
    list string → R → Z → list string → Z → bool → bool → bool
    → Rng → result (list string * list Z * list string) * Rng
}.

(** The attributes of [self] that the conversion reads. [vocab] is
    [list(self.tokenizer.vocab.keys())], [n_gpus] is [len(self._gpu_ids)]. *)
Record ALBERTLM := {
  max_seq_length : Z;
  do_sample_sentence : bool;
  masked_lm_prob : R;
  short_seq_prob : R;
  ngram : Z;
  favor_shorter_ngram : bool;
  do_whole_word_mask : bool;
  truncate_method : string;
  _max_predictions_per_seq : Z;
  _do_permutation : bool;
  vocab : list string;
  n_gpus : Z
}.

Variable E : collaborators.
Variable self : ALBERTLM.

(** The message of line 376. *)
Definition wrong_input_format (idx : nat) (x : sample) : string :=
  ("Wrong input format (line " ++ NilEmpty.string_of_uint (Nat.to_uint idx)
   ++ "): " ++ String "034" (str x ++ String "034" ". "))%string.

(** [max_predictions_per_seq * (1 + do_permutation)] *)
Definition mask_width : Z :=
  _max_predictions_per_seq self * (1 + Z.b2z (_do_permutation self)).

(** One row of each output list. *)
Record row := {
  input_ids : list Z;
  input_mask : list Z;
  segment_ids : list Z;
  masked_lm_positions : list Z;
  masked_lm_ids : list Z;
  masked_lm_weights : list R
}.

(** Lines 415-419: the body of the loop over the segments of one
    example. *)
Definition join_step (acc : list string * list Z * list Z)
    (item : nat * list string) : list string * list Z * list Z :=
  let '(_input_tokens, _input_mask, _segment_ids) := acc in
  let '(s_id, segment) := item in
  let _segment_id := Z.of_nat (s_id `min` 1) in
  (_input_tokens ++ (segment ++ ["[SEP]"%string]),
   _input_mask ++ replicate (length segment + 1) 1,
   _segment_ids ++ replicate (length segment + 1) _segment_id).

(** Lines 405-419: the tokens, mask and segment ids of one example before
    masking and padding. *)
Definition join_segments (segments : list (list string))
    : list string * list Z * list Z :=
  foldl join_step (["[CLS]"%string], [1], [0]) (enumerate segments).

(** Lines 446-448: the positions of the [MASK] tokens. *)
Definition mask_token_positions (_input_tokens : list string) : list Z :=
  Z.of_nat <$> filter (λ i, _input_tokens !! i = Some "[MASK]"%string)
                      (seq 0 (length _input_tokens)).

(** The body of the loop of lines 404-467, without the progress message of
    lines 423-424. *)
Definition convert_example (is_training : bool) (idx : nat)
    (segments : list (list string)) : M Rng row :=
  segments ← invoke (call_truncate_segments idx)
    (truncate_segments E segments
       (max_seq_length self - Z.of_nat (length segments) - 1)
       (truncate_method self));
  let '(_input_tokens, _input_mask, _segment_ids) := join_segments segments in
  '(_input_tokens, _masked_lm_positions, _masked_lm_ids, _masked_lm_weights) ←
    (if is_training then
       '(_input_tokens, _masked_lm_positions, _masked_lm_labels) ←
         invoke_random (call_create_masked_lm_predictions idx)
           (create_masked_lm_predictions E _input_tokens
              (masked_lm_prob self) (_max_predictions_per_seq self)
              (vocab self) (ngram self) (favor_shorter_ngram self)
              (_do_permutation self) (do_whole_word_mask self));
       _masked_lm_ids ← invoke (call_convert_tokens_to_ids idx)
         (convert_tokens_to_ids E _masked_lm_labels);
       let _masked_lm_weights :=
         replicate (length _masked_lm_positions) 1%R in
       let n_pad :=
         Z.to_nat (mask_width - Z.of_nat (length _masked_lm_positions)) in
       mret (_input_tokens,
            _masked_lm_positions ++ replicate n_pad 0,
            _masked_lm_ids ++ replicate n_pad 0,
            _masked_lm_weights ++ replicate n_pad 0%R)
     else
       let _masked_lm_positions := mask_token_positions _input_tokens in
       let n_pad :=
         Z.to_nat (mask_width - Z.of_nat (length _masked_lm_positions)) in
       mret (_input_tokens, _masked_lm_positions ++ replicate n_pad 0, [], []));
  _input_ids ← invoke (call_convert_tokens_to_ids idx)
    (convert_tokens_to_ids E _input_tokens);
  let n_pad := Z.to_nat (max_seq_length self - Z.of_nat (length _input_ids)) in
  mret {| input_ids := _input_ids ++ replicate n_pad 0;
         input_mask := _input_mask ++ replicate n_pad 0;
         segment_ids := _segment_ids ++ replicate n_pad 0;
         masked_lm_positions := _masked_lm_positions;
         masked_lm_ids := _masked_lm_ids;
         masked_lm_weights := _masked_lm_weights |}.

(** Lines 371-376: tokenization of the raw samples. *)
Definition tokenize (X_target : list sample) (tokenized : bool)
    : M Rng (list (list (list string))) :=
  for_each (enumerate X_target) (λ '(idx, x),
    try_except (invoke (call_convert_x idx) (_convert_x E x tokenized))
               (λ _, raise (ValueError (wrong_input_format idx x)))).

(** Lines 387-402: sampling of the sentence pairs. *)
Definition sample_sentences (segment_input_tokens : list (list (list string)))
    : M Rng (list (list (list string) * bool)) :=
  instances ← for_each (seq 0 (length segment_input_tokens)) (λ idx,
    invoke_random (call_create_instances_from_document idx)
      (create_instances_from_document E segment_input_tokens idx
         (max_seq_length self - 3) (masked_lm_prob self)
         (_max_predictions_per_seq self) (short_seq_prob self) (vocab self)));
  mret (concat instances).

(** [_convert_X], lines 368-469. *)
Definition _convert_X (X_target : list sample) (is_training tokenized : bool)
    : M Rng (list (list Z) * list (list Z) * list (list Z) * list (list Z)
             * list (list Z) * list (list R) * list bool) :=
  segment_input_tokens ← tokenize X_target tokenized;
  '(segment_input_tokens, sentence_order_labels) ←
    (if is_training && do_sample_sentence self then
       instances ← sample_sentences segment_input_tokens;
       mret (fst <$> instances, snd <$> instances)
     else mret (segment_input_tokens, []));
  rows ← for_each (enumerate segment_input_tokens) (λ '(idx, segments),
            convert_example is_training idx segments);
  mret (input_ids <$> rows, input_mask <$> rows, segment_ids <$> rows,
       masked_lm_positions <$> rows, masked_lm_ids <$> rows,
       masked_lm_weights <$> rows, sentence_order_labels).

(** [convert], lines 320-366. *)
Definition convert (X : option (list sample)) (y : option (list label))
    (sample_weight : option (list R)) (X_tokenized : option (list sample))
    (is_training is_parallel : bool) : M Rng (gmap string ndarray) :=
  invoke call_assert_legal (_assert_legal E X y sample_weight X_tokenized);;
  (if is_training then
     match y with
     | Some _ =>
         py_assert (negb (do_sample_sentence self))
           "`y` should be None when `do_sample_sentence` is True."
     | None =>
         py_assert (do_sample_sentence self)
           "`y` can't be None when `do_sample_sentence` is False."
     end
   else mret tt);;
  let n_inputs : option nat := None in
  let data : gmap string ndarray := ∅ in
  (* convert X *)
  '(data, n_inputs) ←
    (if truthy X || truthy X_tokenized then
       let tokenized := negb (truthy X) in
       '(input_ids, input_mask, segment_ids, masked_lm_positions,
         masked_lm_ids, masked_lm_weights, sentence_order_labels) ←
         _convert_X (default [] (if tokenized then X_tokenized else X))
                    is_training tokenized;
       a ← np_array_2d int32_2d input_ids;
       let data := <["input_ids"%string := a]> data in
       a ← np_array_2d int32_2d input_mask;
       let data := <["input_mask"%string := a]> data in
       a ← np_array_2d int32_2d segment_ids;
       let data := <["segment_ids"%string := a]> data in
       a ← np_array_2d int32_2d masked_lm_positions;
       let data := <["masked_lm_positions"%string := a]> data in
       data ←
         (if is_training then
            a ← np_array_2d int32_2d masked_lm_ids;
            let data := <["masked_lm_ids"%string := a]> data in
            a ← np_array_2d float32_2d masked_lm_weights;
            mret (<["masked_lm_weights"%string := a]> data)
          else mret data);
       let data :=
         if is_training && do_sample_sentence self then
           <["sentence_order_labels"%string :=
               int32_1d (Z.b2z <$> sentence_order_labels)]> data
         else data in
       let n_inputs := length input_ids in
       b ← get_batch_size;
       (if Z.of_nat n_inputs <? b
        then set_batch_size (Z.of_nat n_inputs `max` n_gpus self)
        else mret tt);;
       mret (data, Some n_inputs)
     else mret (data, n_inputs));
  (* convert y *)
  data ←
    (if truthy y then
       sentence_order_labels ←
         invoke call_convert_y (_convert_y E (default [] y));
       mret (<["sentence_order_labels"%string :=
                int32_1d sentence_order_labels]> data)
     else mret data);
  (* convert sample_weight *)
  data ←
    (if is_training || truthy y then
       sample_weight ← invoke call_convert_sample_weight
         (_convert_sample_weight E sample_weight n_inputs);
       mret (<["sample_weight"%string := float32_1d sample_weight]> data)
     else mret data);
  mret data.

(** *** What the conversion expects of its collaborators *)

(** [com.truncate_segments] trims tokens only, down to the length it is
    given. *)
Definition truncation_contract : Prop :=
  ∀ segments n method segments',
    truncate_segments E segments n method = Ok segments' →
    length segments' = length segments ∧
    Z.of_nat (length (concat segments')) ≤ n.

(** [create_masked_lm_predictions] replaces tokens in place and returns as
    many labels as positions, within the prediction budget when there is
    one. *)
Definition masker_contract : Prop :=
  ∀ tokens prob max_predictions vocab_words n_gram favor permute whole g
    tokens' positions labels g',
    create_masked_lm_predictions E tokens prob max_predictions vocab_words
      n_gram favor permute whole g = (Ok (tokens', positions, labels), g') →
    length tokens' = length tokens ∧ length labels = length positions ∧
    (0 ≤ max_predictions →
     Z.of_nat (length positions) ≤ max_predictions * (1 + Z.b2z permute)).

(** [convert_tokens_to_ids] maps token by token. *)
Definition tokenizer_contract : Prop :=
  ∀ tokens ids, convert_tokens_to_ids E tokens = Ok ids →
                length ids = length tokens.

(** *** The shape of a training example, in the words of the
    specification *)

Definition sum_Z (l : list Z) : Z := foldr Z.add 0 l.

(** A row padded as the specification has it: the mask-level lists hold
    [positions], [ids] and the weight 1.0 for each position, followed by
    padding of position 0, id 0 and weight 0.0 up to [mask_width]; the
    token-level lists hold [real_input_ids], a 1 for each of them and
    [real_segment_ids], followed by zeros up to [max_seq_length]. *)
Definition padded_training_row
    (positions ids real_input_ids real_segment_ids : list Z) (r : row) : Prop :=
  let k := length positions in
  let n := length real_input_ids in
  masked_lm_positions r = positions ++ replicate (Z.to_nat mask_width - k) 0 ∧
  masked_lm_ids r = ids ++ replicate (Z.to_nat mask_width - k) 0 ∧
  masked_lm_weights r
    = replicate k 1%R ++ replicate (Z.to_nat mask_width - k) 0%R ∧
  input_ids r
    = real_input_ids ++ replicate (Z.to_nat (max_seq_length self) - n) 0 ∧
  input_mask r
    = replicate n 1 ++ replicate (Z.to_nat (max_seq_length self) - n) 0 ∧
  segment_ids r
    = real_segment_ids ++ replicate (Z.to_nat (max_seq_length self) - n) 0.

(** [r] is the training row of the example [segments] masked in the random
    state [g]: the real entries of its mask-level lists are the positions
    that [create_masked_lm_predictions] returned for the tokens of the
    truncated segments and the ids of the labels it returned; the real
    entries of its token-level lists are the ids of the tokens it returned
    and the segment ids of the tokens; the sum of [input_mask] is the number
    of these tokens: [CLS], the tokens of the truncated segments and one
    [SEP] for each segment. *)
Definition training_row_of (segments : list (list string)) (g : Rng) (r : row)
    : Prop :=
  ∃ segments' _input_tokens _input_mask _segment_ids
    masked_tokens positions labels g' ids real_input_ids,
    truncate_segments E segments
      (max_seq_length self - Z.of_nat (length segments) - 1)
      (truncate_method self) = Ok segments' ∧
    join_segments segments' = (_input_tokens, _input_mask, _segment_ids) ∧
    create_masked_lm_predictions E _input_tokens
      (masked_lm_prob self) (_max_predictions_per_seq self)
      (vocab self) (ngram self) (favor_shorter_ngram self)
      (_do_permutation self) (do_whole_word_mask self) g
    = (Ok (masked_tokens, positions, labels), g') ∧
    convert_tokens_to_ids E labels = Ok ids ∧
    convert_tokens_to_ids E masked_tokens = Ok real_input_ids ∧
    length ids = length positions ∧
    Z.of_nat (length positions) ≤ mask_width ∧
    length _input_tokens
    = (1 + length (concat segments') + length segments')%nat ∧
    length real_input_ids = length _input_tokens ∧
    length _segment_ids = length _input_tokens ∧
    Z.of_nat (length _input_tokens) ≤ max_seq_length self ∧
    padded_training_row positions ids real_input_ids _segment_ids r ∧
    sum_Z (input_mask r) = Z.of_nat (length _input_tokens).

Definition fixed_shape_row (r : row) : Prop :=
  Z.of_nat (length (masked_lm_positions r)) = mask_width ∧
  Z.of_nat (length (masked_lm_ids r)) = mask_width ∧
  Z.of_nat (length (masked_lm_weights r)) = mask_width ∧
  Z.of_nat (length (input_ids r)) = max_seq_length self ∧
  Z.of_nat (length (input_mask r)) = max_seq_length self ∧
  Z.of_nat (length (segment_ids r)) = max_seq_length self.

End Conversion.

End ALBERT.

(** *** Stand-ins for the collaborators, for running the conversion

    Samples are token lists, labels are integers and the random state is a
    counter of the draws. *)

Module Demo.

Import ALBERT.
Local Open Scope Z_scope.

Definition total_length (segments : list (list string)) : nat :=
  length (concat segments).

(** A tokenizer over already tokenized samples: an empty sample is
    rejected. *)
Definition demo_convert_x (x : list string) (tokenized : bool)
    : result (list (list string)) :=
  match x with
  | [] => Raise (Exception "empty sample")
  | _ => Ok [x]
  end.

(** A truncation that accepts what fits and rejects the rest. *)
Definition demo_truncate_segments (segments : list (list string)) (n : Z)
    (method : string) : result (list (list string)) :=
  if Z.of_nat (total_length segments) <=? n then Ok segments
  else Raise (Exception "segments too long").

(** A masker that masks the token after [CLS], if the budget allows. *)
Definition demo_create_masked_lm_predictions (tokens : list string)
    (masked_lm_prob : R) (max_predictions_per_seq : Z) (vocab : list string)
    (ngram : Z) (favor_shorter_ngram do_permutation do_whole_word_mask : bool)
    (g : nat) : result (list string * list Z * list string) * nat :=
  match tokens !! 1%nat with
  | Some t =>
      if (1 <=? max_predictions_per_seq) && negb (String.eqb t "[SEP]")
      then (Ok (<[1%nat := "[MASK]"%string]> tokens, [1], [t]), S g)
      else (Ok (tokens, [], []), S g)
  | None => (Ok (tokens, [], []), S g)
  end.

(** Every document yields itself as its only instance. *)
Definition demo_create_instances_from_document
    (all_documents : list (list (list string))) (document_index : nat)
    (max_seq_length : Z) (masked_lm_prob : R) (max_predictions_per_seq : Z)
    (short_seq_prob : R) (vocab_words : list string) (g : nat)
    : result (list (list (list string) * bool)) * nat :=
  match all_documents !! document_index with
  | Some document => (Ok [(document, false)], S g)
  | None => (Raise (Exception "list index out of range"), g)
  end.

Definition demo : collaborators (sample := list string) (label := Z) (Rng := nat) := {|
  _assert_legal := λ _ _ _ _, Ok tt;
  _convert_x := demo_convert_x;
  _convert_y := λ y, Ok y;
  _convert_sample_weight := λ w n,
    Ok (default (replicate (default 0%nat n) 1%R) w);
  truncate_segments := demo_truncate_segments;
  convert_tokens_to_ids := λ tokens, Ok ((λ t, Z.of_nat (String.length t)) <$> tokens);
  create_instances_from_document := demo_create_instances_from_document;
  create_masked_lm_predictions := demo_create_masked_lm_predictions
|}.

Definition demo_str (x : list string) : string := String.concat " " x.

Definition demo_self (max_predictions_per_seq : Z) (do_sample_sentence : bool)
    : ALBERTLM := {|
  max_seq_length := 8;
  do_sample_sentence := do_sample_sentence;
  masked_lm_prob := 0.15%R;
  short_seq_prob := 0.1%R;
  ngram := 3;
  favor_shorter_ngram := true;
  do_whole_word_mask := true;
  truncate_method := "LIFO";
  _max_predictions_per_seq := max_predictions_per_seq;
  _do_permutation := false;
  vocab := ["[CLS]"; "[SEP]"; "[MASK]"; "the"; "cat"; "sat"]%string;
  n_gpus := 1
|}.

Definition s0 : state nat := {| rng := 0%nat; batch_size := 0; trace := [] |}.

End Demo.

(** ** The losses and the span predictions of the Retro-Reader *)

Module RetroReaderLoss.

Import Tensor RetroReader.
Local Open Scope R_scope.

Definition tf_mul1 : list R → list R → option (list R) := broadcast (lift2 Rmult).
Definition tf_mul2 : list (list R) → list (list R) → option (list (list R)) :=
  broadcast tf_mul1.

(** [tf.nn.log_softmax] along the last axis. *)
Definition log_softmax (x : list R) : list R :=
  let z := ln (reduce_sum (exp <$> x)) in (λ xi, xi - z) <$> x.

(** [tf.one_hot(i, depth, dtype=tf.float32)] for one index: an index outside
    [0, depth) gives a row of zeros. *)
Definition one_hot (depth : nat) (i : Z) : list R :=
  (λ j : nat, if bool_decide (Z.of_nat j = i) then 1 else 0) <$> seq 0 depth.

(** [tf.reduce_mean] of a vector; the mean of no element is not a number. *)
Definition reduce_mean (x : list R) : option R :=
  match x with
  | [] => None
  | _ => Some (reduce_sum x / INR (length x))
  end.

(** [tf.reduce_sum(one_hot_labels * log_probs, axis=-1)] *)
Definition label_log_prob (one_hot_labels log_probs : list (list R))
    : option (list R) :=
  products ← tf_mul2 one_hot_labels log_probs;
  Some (fmap (M := list) reduce_sum products).

(** Lines 71-80: the losses of the sketchy reading module, on the
    [batch, 2] logits of line 69. *)
Definition sketchy_losses (logits : list (list R)) (has_answer : list Z)
    (sample_weight : option (list R)) : option (list R) :=
  let log_probs := log_softmax <$> logits in
  let one_hot_labels := one_hot 2 <$> has_answer in
  sums ← label_log_prob one_hot_labels log_probs;
  let per_example_loss := Ropp <$> sums in
  match sample_weight with
  | Some sample_weight => tf_mul1 sample_weight per_example_loss
  | None => Some per_example_loss
  end.

(** Lines 161-178: the losses of the intensive reading module, on the
    [batch, 2, max_seq_length] logits of line 155 and the [batch, 2] gold
    start and end positions. *)
Definition intensive_losses (max_seq_length : nat)
    (logits : list (list (list R))) (label_ids : list (list Z))
    (sample_weight : option (list R)) : option (list R) :=
  start_labels ← index_col 0 label_ids;
  end_labels ← index_col 1 label_ids;
  let start_one_hot_labels := one_hot max_seq_length <$> start_labels in
  let end_one_hot_labels := one_hot max_seq_length <$> end_labels in
  start_logits ← index_col 0 logits;
  end_logits ← index_col 1 logits;
  let start_log_probs := log_softmax <$> start_logits in
  let end_log_probs := log_softmax <$> end_logits in
  start_sums ← label_log_prob start_one_hot_labels start_log_probs;
  end_sums ← label_log_prob end_one_hot_labels end_log_probs;
  per_example_loss ← tf_sub1 (tf_scale (-0.5) start_sums)
                             (tf_scale 0.5 end_sums);
  match sample_weight with
  | Some sample_weight => tf_mul1 per_example_loss sample_weight
  | None => Some per_example_loss
  end.

(** Lines 81, 177 and 191: [self.total_loss]. *)
Definition total_loss (max_seq_length : nat) (sketchy_logits : list (list R))
    (intensive_logits : list (list (list R))) (label_ids : list (list Z))
    (has_answer : list Z) (sample_weight : option (list R)) : option R :=
  sketchy ← sketchy_losses sketchy_logits has_answer sample_weight;
  sketchy_loss ← reduce_mean sketchy;
  intensive ← intensive_losses max_seq_length intensive_logits label_ids
                 sample_weight;
  intensive_loss ← reduce_mean intensive;
  Some (sketchy_loss + intensive_loss).

(** What [tf.argmax] along the last axis may return: an index of a largest
    entry. Which one it returns among equal entries is left open by
    TensorFlow. *)
Definition is_argmax (x : list R) (i : nat) : Prop :=
  ∃ m, x !! i = Some m ∧ ∀ y, y ∈ x → y <= m.

End RetroReaderLoss.

(** ** What a conversion leaves unchanged, and what [ALBERTLM] does with
    the outputs of the graph *)

Module ALBERTOutputs.

Import ALBERT.
Local Open Scope Z_scope.

Section Frame.

Context {Rng : Type}.

(** A computation respects a relation between the state it starts in and
    the state it ends in when the relation holds however the computation
    ends, by returning or by raising. *)
Definition respects (I : state Rng → state Rng → Prop) {A} (m : M Rng A) : Prop :=
  ∀ s r s', m s = (r, s') → I s s'.

(** The calls to the two sampling functions of [model.albert]. *)
Definition is_sampling_call (c : call) : bool :=
  match c with
  | call_create_instances_from_document _ => true
  | call_create_masked_lm_predictions _ => true
  | _ => false
  end.

(** The random state is the same and no sampling function was called in
    between. *)
Definition no_sampling (s s' : state Rng) : Prop :=
  rng s' = rng s ∧
  ∃ t, trace s' = trace s ++ t ∧ Forall (λ c, is_sampling_call c = false) t.

Definition keeps_batch_size (s s' : state Rng) : Prop :=
  batch_size s' = batch_size s.

End Frame.

(** [_get_predict_outputs], lines 564-568: the predicted ids of one example
    are collected up to the first slot whose position is 0.
    [mlm_positions[idx][p_id]] is an access to a numpy array: outside the
    row it raises [IndexError], which is [None] here. *)
Fixpoint mlm_ids_loop (mlm_positions_idx : list Z) (items : list (nat * Z))
    (_ids : list Z) : option (list Z) :=
  match items with
  | [] => Some _ids
  | (p_id, _id) :: items =>
      match mlm_positions_idx !! p_id with
      | None => None
      | Some position =>
          if bool_decide (position = 0) then Some _ids
          else mlm_ids_loop mlm_positions_idx items (_ids ++ [_id])
      end
  end.

Section Predict.

(** [self.tokenizer.convert_ids_to_tokens] is not among the sources: a
    parameter, [None] when it raises. *)
Variable convert_ids_to_tokens : list Z → option (list string).

(** [_get_predict_outputs], lines 560-569, on
    [mlm_positions = self.data["masked_lm_positions"]] and on [all_preds],
    the array that [com.transform] returns. *)
Definition mlm_preds (mlm_positions all_preds : list (list Z))
    : option (list (list string)) :=
  mapM (λ '(idx, _preds),
          mlm_positions_idx ← mlm_positions !! idx;
          _ids ← mlm_ids_loop mlm_positions_idx (enumerate _preds) [];
          convert_ids_to_tokens _ids)
       (enumerate all_preds).

End Predict.

(** One slot of the arrays [batch_mlm_positions], [batch_mlm_labels] and
    [batch_mlm_preds] of [_get_fit_info]. The three arrays have the shape
    of the mask-level placeholders and are given here as one array of
    slots. *)
Record mlm_slot := {
  slot_position : Z;
  slot_label : Z;
  slot_pred : Z
}.

(** [batch_mlm_mask = batch_mlm_positions > 0], line 529. *)
Definition batch_mlm_mask (slot : mlm_slot) : bool := 0 <? slot_position slot.

(** [(batch_mlm_preds == batch_mlm_labels) * batch_mlm_mask], line 530. *)
Definition mlm_hit (slot : mlm_slot) : bool :=
  (slot_pred slot =? slot_label slot) && batch_mlm_mask slot.

Definition np_sum (l : list bool) : Z := Z.of_nat (length (filter (λ b, b = true) l)).

(** Line 530. Both sums are integers and the quotient is a float: when no
    position is positive it is 0 / 0, not a number, which is [None]. *)
Definition mlm_accuracy (batch : list (list mlm_slot)) : option R :=
  let hits := np_sum (mlm_hit <$> concat batch) in
  let total := np_sum (batch_mlm_mask <$> concat batch) in
  if bool_decide (total = 0) then None else Some (IZR hits / IZR total)%R.

End ALBERTOutputs.
(** * Properties *)

Module TensorFacts.

Import Tensor.
Local Open Scope R_scope.

Section Broadcast.
Context {A B C : Type}.
Implicit Types (f : A → B → option C).

Lemma broadcast_same_lookup f xs ys zs :
  broadcast f xs ys = Some zs → length xs = length ys →
  length zs = length xs ∧
  ∀ i x y, xs !! i = Some x → ys !! i = Some y →
    ∃ z, zs !! i = Some z ∧ f x y = Some z.
Proof.
  unfold broadcast. intros H Hlen.
  rewrite (proj2 (Nat.eqb_eq _ _) Hlen) in H.
  apply mapM_Some in H. split.
  - apply Forall2_length in H. rewrite <- H, length_zip. lia.
  - intros i x y Hx Hy.
    destruct (Forall2_lookup_l _ _ _ i (x, y) H) as (z & Hz & Hf); [|by eauto].
    rewrite (lookup_zip_with pair), Hx, Hy. done.
Qed.

Lemma broadcast_same_total f xs ys :
  length xs = length ys →
  (∀ i x y, xs !! i = Some x → ys !! i = Some y → is_Some (f x y)) →
  is_Some (broadcast f xs ys).
Proof.
  unfold broadcast. intros Hlen Hf.
  rewrite (proj2 (Nat.eqb_eq _ _) Hlen).
  apply mapM_is_Some, Forall_lookup. intros i [x y] Hxy.
  rewrite (lookup_zip_with pair) in Hxy.
  destruct (xs !! i) eqn:Hx; [|done]. destruct (ys !! i) eqn:Hy; [|done].
  simplify_eq/=. eauto.
Qed.

Lemma broadcast_r1 f xs y : broadcast f xs [y] = mapM (λ x, f x y) xs.
Proof. unfold broadcast. by destruct xs as [|x [|x' xs]]. Qed.

Lemma broadcast_l1 f x ys : broadcast f [x] ys = mapM (f x) ys.
Proof. unfold broadcast. by destruct ys as [|y [|y' ys]]. Qed.

End Broadcast.

Lemma index_col_lookup {A} (j : nat) (t : list (list A)) c :
  index_col j t = Some c →
  length c = length t ∧
  ∀ i row, t !! i = Some row → ∃ x, c !! i = Some x ∧ row !! j = Some x.
Proof.
  unfold index_col. intros H. apply mapM_Some in H. split.
  - symmetry. by eapply Forall2_length.
  - intros i row Hrow. by eapply Forall2_lookup_l in H.
Qed.

Lemma index_col_total {A} (j : nat) (t : list (list A)) :
  Forall (λ row, (j < length row)%nat) t → is_Some (index_col j t).
Proof.
  intros H. apply mapM_is_Some. eapply Forall_impl; [done|].
  intros row. apply lookup_lt_is_Some_2.
Qed.

Lemma decision_lookup (v : list R) (thr : R) i :
  cast_int32 (tf_greater v thr) !! i
  = (λ x, if decide (thr < x) then 1%Z else 0%Z) <$> v !! i.
Proof.
  unfold cast_int32, tf_greater. rewrite !list_lookup_fmap.
  destruct (v !! i) as [x|]; simpl; [|done].
  case_bool_decide; case_decide; done.
Qed.

(** The running maximum of [foldl Rmax]. *)
Lemma foldl_Rmax_spec (l : list R) (a : R) :
  a <= foldl Rmax a l ∧ (∀ x, x ∈ l → x <= foldl Rmax a l)
  ∧ (foldl Rmax a l = a ∨ foldl Rmax a l ∈ l).
Proof.
  revert a. induction l as [|y l IH]; intros a; simpl.
  - split_and!; [lra | by intros x ?%elem_of_nil | by left].
  - destruct (IH (Rmax a y)) as (H1 & H2 & H3).
    pose proof (Rmax_l a y). pose proof (Rmax_r a y).
    split_and!.
    + lra.
    + intros x [->|Hx]%elem_of_cons; [lra | by apply H2].
    + destruct H3 as [H3|H3]; [|right; by right].
      rewrite H3. unfold Rmax. destruct (Rle_dec a y); [right; by left | by left].
Qed.

Lemma reduce_max_spec (l : list R) (m : R) :
  reduce_max l = Some m → (∀ x, x ∈ l → x <= m) ∧ m ∈ l.
Proof.
  destruct l as [|a l]; simpl; [done|]. intros [= <-].
  destruct (foldl_Rmax_spec l a) as (H1 & H2 & H3). split.
  - intros x [->|Hx]%elem_of_cons; auto.
  - destruct H3 as [->|H3]; [by left | by right].
Qed.

Lemma reduce_sum_exp_pos (l : list R) : l ≠ [] → 0 < reduce_sum (exp <$> l).
Proof.
  destruct l as [|a l]; [done|]. intros _. unfold reduce_sum. csimpl.
  assert (0 <= foldr Rplus 0 (exp <$> l)) as H.
  { induction l as [|b l IH]; csimpl; [lra|]. pose proof (exp_pos b). lra. }
  pose proof (exp_pos a). lra.
Qed.

(** A softmax output is a probability: positive, whatever the logits. *)
Lemma softmax_pos (l : list R) (p : R) : p ∈ softmax l → 0 < p.
Proof.
  unfold softmax. intros (x & -> & Hx)%list_elem_of_fmap.
  apply Rdiv_lt_0_compat; [apply exp_pos|].
  apply reduce_sum_exp_pos. by intros ->; apply elem_of_nil in Hx.
Qed.

Lemma length_softmax (l : list R) : length (softmax l) = length l.
Proof. unfold softmax. by rewrite length_fmap. Qed.

Lemma Rabs_fmap_id (l : list R) : (∀ x, x ∈ l → 0 <= x) → Rabs <$> l = l.
Proof.
  intros H. rewrite <- (list_fmap_id l) at 2.
  apply list_fmap_ext. intros i x Hx. simpl. apply Rabs_right, Rle_ge, H.
  by eapply list_elem_of_lookup_2.
Qed.

Lemma broadcast_lift2_same (f : R → R → R) (xs ys : list R) :
  length xs = length ys →
  broadcast (lift2 f) xs ys = Some (zip_with f xs ys).
Proof.
  unfold broadcast. intros Hlen. rewrite (proj2 (Nat.eqb_eq _ _) Hlen).
  clear Hlen. revert ys. induction xs as [|x xs IH]; intros [|y ys]; try done.
  csimpl. by rewrite IH.
Qed.

End TensorFacts.

Module RetroReaderFacts.

Import Tensor TensorFacts RetroReader.
Local Open Scope R_scope.

Lemma tf_add1_same (xs ys zs : list R) :
  tf_add1 xs ys = Some zs → length xs = length ys →
  length zs = length xs ∧
  ∀ i z, zs !! i = Some z ↔
         ∃ x y, xs !! i = Some x ∧ ys !! i = Some y ∧ z = x + y.
Proof.
  intros H Hlen.
  destruct (broadcast_same_lookup _ _ _ _ H Hlen) as [Hl Hz].
  split; [done|]. intros i z. split.
  - intros Hi.
    destruct (lookup_lt_is_Some_2 xs i) as [x Hx];
      [rewrite <- Hl; by eapply lookup_lt_Some|].
    destruct (lookup_lt_is_Some_2 ys i) as [y Hy];
      [rewrite <- Hlen, <- Hl; by eapply lookup_lt_Some|].
    destruct (Hz i x y Hx Hy) as (z' & Hz' & [= <-]).
    exists x, y. split_and!; congruence.
  - intros (x & y & Hx & Hy & ->).
    by destruct (Hz i x y Hx Hy) as (z' & Hz' & [= <-]).
Qed.

Lemma tf_sub1_same (xs ys zs : list R) :
  tf_sub1 xs ys = Some zs → length xs = length ys →
  length zs = length xs ∧
  ∀ i x y, xs !! i = Some x → ys !! i = Some y → zs !! i = Some (x - y).
Proof.
  intros H Hlen.
  destruct (broadcast_same_lookup _ _ _ _ H Hlen) as [Hl Hz].
  split; [done|]. intros i x y Hx Hy.
  by destruct (Hz i x y Hx Hy) as (z' & Hz' & [= <-]).
Qed.

Lemma sketchy_score_lookup (logits : list (list R)) (se : list R) :
  sketchy_score logits = Some se →
  length se = length logits ∧
  ∀ i row, logits !! i = Some row →
    ∃ l0 l1, row !! 0%nat = Some l0 ∧ row !! 1%nat = Some l1 ∧
             se !! i = Some (l1 - l0).
Proof.
  unfold sketchy_score. intros H.
  destruct (index_col 1 logits) as [c1|] eqn:H1; simpl in H; [|done].
  destruct (index_col 0 logits) as [c0|] eqn:H0; simpl in H; [|done].
  apply index_col_lookup in H1 as [Hl1 H1], H0 as [Hl0 H0].
  apply tf_sub1_same in H as [Hl H]; [|congruence].
  split; [congruence|]. intros i row Hrow.
  destruct (H1 i row Hrow) as (l1 & ? & ?), (H0 i row Hrow) as (l0 & ? & ?).
  exists l0, l1. auto.
Qed.

Lemma verifier_lookup b1 b2 thr sh sn se preds v :
  verifier b1 b2 thr sh sn se = Some (preds, v) →
  length sh = length sn → length se = length sh →
  preds = cast_int32 (tf_greater v thr) ∧ length v = length sh ∧
  ∀ i h n e, sh !! i = Some h → sn !! i = Some n → se !! i = Some e →
    v !! i = Some (b1 * (h - n) + b2 * e).
Proof.
  unfold verifier. intros H Hn He.
  destruct (tf_sub1 sh sn) as [sd|] eqn:Hsd; simpl in H; [|done].
  destruct (tf_add1 _ _) as [v'|] eqn:Hv; simplify_eq/=.
  apply tf_sub1_same in Hsd as [Hlsd Hsd]; [|done].
  apply tf_add1_same in Hv as [Hlv Hv];
    [|unfold tf_scale; rewrite !length_fmap; lia].
  unfold tf_scale in *. rewrite length_fmap in Hlv.
  split_and!; [done | lia |].
  intros i h n e Hh Hn' He'. apply Hv.
  exists (b1 * (h - n)), (b2 * e).
  rewrite !list_lookup_fmap, (Hsd i h n Hh Hn'), He'. done.
Qed.

(** The threshold enters the verifier in the comparison only. *)
Lemma verifier_threshold b1 b2 thr thr' sh sn se preds v :
  verifier b1 b2 thr sh sn se = Some (preds, v) →
  verifier b1 b2 thr' sh sn se = Some (cast_int32 (tf_greater v thr'), v).
Proof.
  unfold verifier. intros H.
  destruct (tf_sub1 sh sn) as [sd|]; simpl in *; [|done].
  destruct (tf_add1 _ _) as [v'|]; by simplify_eq/=.
Qed.

Lemma intensive_scores_lookup (il : list (list (list R))) probs sh sn :
  intensive_scores il = Some (probs, sh, sn) →
  probs = fmap (M := list) (fmap (M := list) softmax) il ∧
  length sh = length il ∧ length sn = length il ∧
  ∀ i ex, il !! i = Some ex →
    ∃ s e tail h s0 e0,
      ex !! 0%nat = Some s ∧ ex !! 1%nat = Some e ∧
      tf_add1 (drop 1 (softmax s)) (drop 1 (softmax e)) = Some tail ∧
      reduce_max (Rabs <$> tail) = Some h ∧ sh !! i = Some h ∧
      softmax s !! 0%nat = Some s0 ∧ softmax e !! 0%nat = Some e0 ∧
      sn !! i = Some (s0 + e0).
Proof.
  unfold intensive_scores. intros H.
  destruct (index_col 0 _) as [sp|] eqn:Hsp; simpl in H; [|done].
  destruct (index_col 1 _) as [ep|] eqn:Hep; simpl in H; [|done].
  destruct (tf_add2 _ _) as [st|] eqn:Hst; simpl in H; [|done].
  destruct (norm_inf st) as [sh'|] eqn:Hsh; simpl in H; [|done].
  destruct (index_col 0 sp) as [s0s|] eqn:Hs0; simpl in H; [|done].
  destruct (index_col 0 ep) as [e0s|] eqn:He0; simpl in H; [|done].
  destruct (tf_add1 s0s e0s) as [sn'|] eqn:Hsn; simplify_eq/=.
  apply index_col_lookup in Hsp as [Hlsp Hsp], Hep as [Hlep Hep].
  apply index_col_lookup in Hs0 as [Hls0 Hs0], He0 as [Hle0 He0].
  rewrite length_fmap in Hlsp, Hlep.
  apply broadcast_same_lookup in Hst as [Hlst Hst];
    [|rewrite !length_fmap; congruence].
  rewrite length_fmap in Hlst.
  pose proof (length_mapM _ _ _ Hsh) as Hlsh.
  apply mapM_Some in Hsh.
  apply tf_add1_same in Hsn as [Hlsn Hsn]; [|congruence].
  split_and!; [done | congruence.. |].
  intros i ex Hex.
  assert ((fmap (M := list) softmax <$> il) !! i = Some (softmax <$> ex)) as Hpi
    by by rewrite list_lookup_fmap, Hex.
  destruct (Hsp i _ Hpi) as (S & HS & HS').
  destruct (Hep i _ Hpi) as (E & HE & HE').
  rewrite list_lookup_fmap in HS', HE'.
  destruct (ex !! 0%nat) as [s|] eqn:Hs; [|done].
  destruct (ex !! 1%nat) as [e|] eqn:He; [|done]. simplify_eq/=.
  destruct (Hst i (drop 1 (softmax s)) (drop 1 (softmax e)))
    as (tail & Htail & Hadd); [by rewrite list_lookup_fmap, HS|
                               by rewrite list_lookup_fmap, HE|].
  destruct (Forall2_lookup_l _ _ _ i tail Hsh Htail) as (h & Hh & Hmax).
  destruct (Hs0 i _ HS) as (s0 & Hs0i & Hs0').
  destruct (He0 i _ HE) as (e0 & He0i & He0').
  exists s, e, tail, h, s0, e0. split_and!; try done.
  apply Hsn. eauto.
Qed.

Lemma decoder_inv sk il b1 b2 thr out :
  RetroReaderDecoder sk il b1 b2 thr = Some out →
  sketchy_score sk = Some (score_ext out) ∧
  intensive_scores il = Some (mrc_probs out, score_has out, score_null out) ∧
  verifier b1 b2 thr (score_has out) (score_null out) (score_ext out)
    = Some (verifier_preds out, verifier_probs out).
Proof.
  unfold RetroReaderDecoder. intros H.
  destruct (sketchy_score sk) as [se|]; simpl in H; [|done].
  destruct (intensive_scores il) as [[[probs sh] sn]|]; simpl in H; [|done].
  destruct (verifier _ _ _ _ _ _) as [[preds v]|] eqn:Hv; by simplify_eq/=.
Qed.

(** *** The decoder returns on every well-shaped batch *)

Lemma index_col_Forall {A} (P : list A → Prop) (Q : A → Prop) j t c :
  index_col j t = Some c →
  Forall P t → (∀ row x, P row → row !! j = Some x → Q x) → Forall Q c.
Proof.
  intros [Hl Hc]%index_col_lookup HP HPQ.
  apply Forall_lookup. intros i x Hx.
  destruct (lookup_lt_is_Some_2 t i) as [row Hrow];
    [rewrite <- Hl; by eapply lookup_lt_Some|].
  destruct (Hc i row Hrow) as (x' & Hx' & Hj). simplify_eq.
  eapply HPQ; [|done]. exact (Forall_lookup_1 _ _ _ _ HP Hrow).
Qed.

Lemma decoder_total B L sk il b1 b2 thr :
  well_shaped B L sk il → (2 ≤ L)%nat →
  is_Some (RetroReaderDecoder sk il b1 b2 thr).
Proof.
  intros (Hsk & Hrows & Hil & Hex) HL.
  (* sketchy score *)
  destruct (index_col_total 1 sk) as [c1 Hc1].
  { eapply Forall_impl; [done|]. simpl. lia. }
  destruct (index_col_total 0 sk) as [c0 Hc0].
  { eapply Forall_impl; [done|]. simpl. lia. }
  pose proof (proj1 (index_col_lookup _ _ _ Hc1)) as Hlc1.
  pose proof (proj1 (index_col_lookup _ _ _ Hc0)) as Hlc0.
  assert (sketchy_score sk = Some (zip_with Rminus c1 c0)) as Hse.
  { unfold sketchy_score. rewrite Hc1, Hc0. simpl.
    apply broadcast_lift2_same. congruence. }
  (* intensive scores *)
  set (probs := fmap (M := list) (fmap (M := list) softmax) il).
  assert (Forall (λ ex, length ex = 2%nat ∧ Forall (λ r, length r = L) ex) probs)
    as Hprobs.
  { unfold probs. apply Forall_fmap. eapply Forall_impl; [done|].
    intros ex [Hl Hr]. simpl. rewrite length_fmap. split; [done|].
    apply Forall_fmap. eapply Forall_impl; [done|].
    intros r Hr'. simpl. by rewrite length_softmax. }
  destruct (index_col_total 0 probs) as [sp Hsp].
  { eapply Forall_impl; [done|]. simpl. lia. }
  destruct (index_col_total 1 probs) as [ep Hep].
  { eapply Forall_impl; [done|]. simpl. lia. }
  assert (∀ j c, index_col j probs = Some c → Forall (λ r, length r = L) c)
    as Hrow.
  { intros j c Hc. eapply index_col_Forall; [done..|].
    intros ex r [_ Hr] Hj. exact (Forall_lookup_1 _ _ _ _ Hr Hj). }
  pose proof (Hrow _ _ Hsp) as HspL. pose proof (Hrow _ _ Hep) as HepL.
  pose proof (proj1 (index_col_lookup _ _ _ Hsp)) as Hlsp.
  pose proof (proj1 (index_col_lookup _ _ _ Hep)) as Hlep.
  assert (tf_add2 (drop 1 <$> sp) (drop 1 <$> ep)
          = Some (zip_with (zip_with Rplus) (drop 1 <$> sp) (drop 1 <$> ep)))
    as Hst.
  { unfold tf_add2, broadcast. rewrite !length_fmap.
    rewrite (proj2 (Nat.eqb_eq _ _)) by congruence.
    apply mapM_Some, Forall2_lookup. intros i.
    rewrite (lookup_zip_with pair), (lookup_zip_with (zip_with Rplus)).
    rewrite !list_lookup_fmap.
    destruct (sp !! i) as [s|] eqn:Hs; simpl; [|constructor].
    destruct (ep !! i) as [e|] eqn:He; simpl; constructor.
    apply broadcast_lift2_same. rewrite !length_drop.
    rewrite (Forall_lookup_1 _ _ _ _ HspL Hs), (Forall_lookup_1 _ _ _ _ HepL He).
    done. }
  destruct (norm_inf (zip_with (zip_with Rplus) (drop 1 <$> sp) (drop 1 <$> ep)))
    as [sh|] eqn:Hsh.
  2:{ apply mapM_None, Exists_exists in Hsh as (row & Hin & Hnone).
      apply list_elem_of_lookup_1 in Hin as [i Hi].
      apply lookup_zip_with_Some in Hi as (a & b & -> & Ha & Hb).
      rewrite list_lookup_fmap in Ha, Hb.
      destruct (sp !! i) as [s|] eqn:Hs; [|done].
      destruct (ep !! i) as [e|] eqn:He; [|done]. simplify_eq/=.
      pose proof (Forall_lookup_1 _ _ _ _ HspL Hs) as Hls.
      pose proof (Forall_lookup_1 _ _ _ _ HepL He) as Hle.
      destruct s as [|s0 [|s1 s]]; simpl in Hls; [lia..|].
      destruct e as [|e0 [|e1 e]]; simpl in Hle; [lia..|]. done. }
  destruct (index_col_total 0 sp) as [s0 Hs0].
  { eapply Forall_impl; [done|]. simpl. lia. }
  destruct (index_col_total 0 ep) as [e0 He0].
  { eapply Forall_impl; [done|]. simpl. lia. }
  pose proof (proj1 (index_col_lookup _ _ _ Hs0)) as Hls0.
  pose proof (proj1 (index_col_lookup _ _ _ He0)) as Hle0.
  unfold probs in Hlsp, Hlep. rewrite length_fmap in Hlsp, Hlep.
  assert (intensive_scores il = Some (probs, sh, zip_with Rplus s0 e0)) as His.
  { unfold intensive_scores. fold probs. rewrite Hsp, Hep. simpl.
    rewrite Hst. simpl. rewrite Hsh. simpl. rewrite Hs0, He0. simpl.
    unfold tf_add1. rewrite broadcast_lift2_same by congruence. done. }
  (* verifier *)
  pose proof (length_mapM _ _ _ Hsh) as Hlsh.
  rewrite length_zip_with, !length_fmap in Hlsh.
  unfold RetroReaderDecoder. rewrite Hse, His. simpl.
  unfold verifier, tf_sub1, tf_add1.
  rewrite broadcast_lift2_same by (rewrite length_zip_with; lia). simpl.
  rewrite broadcast_lift2_same
    by (unfold tf_scale; rewrite !length_fmap, !length_zip_with; lia).
  simpl. eauto.
Qed.

End RetroReaderFacts.

Module RetroReaderSpec.

Import Tensor TensorFacts RetroReader RetroReaderFacts.
Local Open Scope R_scope.

(** The scores of example [i] of a batch, as the decoder computed them. *)
Lemma decoder_scores sk il b1 b2 thr out :
  RetroReaderDecoder sk il b1 b2 thr = Some out →
  length sk = length il →
  length (score_has out) = length il ∧ length (score_null out) = length il ∧
  length (score_ext out) = length il ∧ length (verifier_probs out) = length il ∧
  verifier_preds out = cast_int32 (tf_greater (verifier_probs out) thr) ∧
  ∀ i, (i < length il)%nat →
    ∃ sh sn se, score_has out !! i = Some sh ∧ score_null out !! i = Some sn ∧
      score_ext out !! i = Some se ∧
      verifier_probs out !! i = Some (b1 * (sh - sn) + b2 * se).
Proof.
  intros (Hse & His & Hv)%decoder_inv Hlen.
  apply sketchy_score_lookup in Hse as [Hlse _].
  apply intensive_scores_lookup in His as (_ & Hlsh & Hlsn & _).
  apply verifier_lookup in Hv as (Hp & Hlv & Hv); [|congruence..].
  split_and!; [congruence.. | done |].
  intros i Hi.
  destruct (lookup_lt_is_Some_2 (score_has out) i) as [sh Hsh]; [lia|].
  destruct (lookup_lt_is_Some_2 (score_null out) i) as [sn Hsn]; [lia|].
  destruct (lookup_lt_is_Some_2 (score_ext out) i) as [se Hse]; [lia|].
  exists sh, sn, se. split_and!; auto.
Qed.

(** C1. For every batch and every example in it, the verifier outputs of
    [RetroReaderDecoder] follow the linear threshold rule: the fusion score
    is [v = beta_1 * (score_has - score_null) + beta_2 * score_ext] and the
    prediction is 1 when [v > threshold] and 0 otherwise, so 0 when
    [v = threshold]. With [score_has = 0.9], [score_null = 0.1],
    [score_ext = 2.0], [beta_1 = beta_2 = 0.5] and [threshold = 1.0] the
    score is 1.4 and the prediction is 1. *)
Theorem verifier_linear_threshold_rule sk il b1 b2 thr out :
  RetroReaderDecoder sk il b1 b2 thr = Some out →
  length sk = length il →
  (∀ i, (i < length il)%nat →
     ∃ sh sn se v,
       score_has out !! i = Some sh ∧ score_null out !! i = Some sn ∧
       score_ext out !! i = Some se ∧
       v = b1 * (sh - sn) + b2 * se ∧
       verifier_probs out !! i = Some v ∧
       verifier_preds out !! i = Some (if decide (thr < v) then 1%Z else 0%Z) ∧
       (verifier_preds out !! i = Some 1%Z ↔ thr < v) ∧
       (v = thr → verifier_preds out !! i = Some 0%Z))
  ∧ (∃ v, verifier 0.5 0.5 1 [0.9] [0.1] [2] = Some ([1%Z], [v]) ∧ v = 1.4).
Proof.
  intros Hdec Hlen. split.
  - destruct (decoder_scores _ _ _ _ _ _ Hdec Hlen)
      as (_ & _ & _ & _ & Hpreds & Hscores).
    intros i Hi. destruct (Hscores i Hi) as (sh & sn & se & Hsh & Hsn & Hse & Hv).
    exists sh, sn, se, (b1 * (sh - sn) + b2 * se).
    rewrite Hpreds, decision_lookup, Hv. simpl.
    split_and!; try done.
    + case_decide; split; intros; simplify_eq; done.
    + intros ->. case_decide; [lra | done].
  - eexists. split.
    + cbn. rewrite bool_decide_eq_true_2 by lra. reflexivity.
    + lra.
Qed.

Lemma verifier_linear_threshold_rule_witness :
  ∃ out, RetroReaderDecoder [[0; 1]] [[[0; 0]; [0; 0]]] 0.5 0.5 1 = Some out
    ∧ (∃ sh sn se v,
         score_has out !! 0%nat = Some sh ∧ score_null out !! 0%nat = Some sn ∧
         score_ext out !! 0%nat = Some se ∧
         v = 0.5 * (sh - sn) + 0.5 * se ∧
         verifier_probs out !! 0%nat = Some v ∧
         verifier_preds out !! 0%nat
           = Some (if decide (1 < v) then 1%Z else 0%Z) ∧
         (verifier_preds out !! 0%nat = Some 1%Z ↔ 1 < v) ∧
         (v = 1 → verifier_preds out !! 0%nat = Some 0%Z)).
Proof.
  eexists. split; [reflexivity|].
  refine (proj1 (verifier_linear_threshold_rule
                   [[0; 1]] [[[0; 0]; [0; 0]]] 0.5 0.5 1 _ _ _) 0%nat _).
  - reflexivity.
  - reflexivity.
  - simpl. lia.
Defined.

(** C4. With the fusion score held fixed, the decision is antitone in the
    threshold: for [t1 <= t2] the decoder run with [t2] yields the same
    scores as the run with [t1], and every example it rejected under [t1]
    (prediction 0) is rejected under [t2] as well. *)
Theorem verifier_antitone_in_threshold sk il b1 b2 t1 t2 out1 :
  t1 <= t2 →
  RetroReaderDecoder sk il b1 b2 t1 = Some out1 →
  ∃ out2, RetroReaderDecoder sk il b1 b2 t2 = Some out2 ∧
    verifier_probs out2 = verifier_probs out1 ∧
    ∀ i, verifier_preds out1 !! i = Some 0%Z →
         verifier_preds out2 !! i = Some 0%Z.
Proof.
  intros Ht Hdec.
  destruct (decoder_inv _ _ _ _ _ _ Hdec) as (Hse & His & Hv).
  pose proof (verifier_threshold _ _ _ t2 _ _ _ _ _ Hv) as Hv2.
  assert (verifier_preds out1 = cast_int32 (tf_greater (verifier_probs out1) t1))
    as Hp1.
  { pose proof (verifier_threshold _ _ _ t1 _ _ _ _ _ Hv) as Hv1. congruence. }
  eexists. split.
  - unfold RetroReaderDecoder. rewrite Hse. simpl. rewrite His. simpl.
    rewrite Hv2. simpl. reflexivity.
  - simpl. split; [done|]. intros i. rewrite Hp1, !decision_lookup.
    destruct (verifier_probs out1 !! i) as [v|]; simpl; [|done].
    repeat case_decide; try done. lra.
Qed.

Lemma verifier_antitone_in_threshold_witness :
  ∃ out1, RetroReaderDecoder [[0; 1]] [[[0; 0]; [0; 0]]] 0.5 0.5 1 = Some out1 ∧
  ∃ out2, RetroReaderDecoder [[0; 1]] [[[0; 0]; [0; 0]]] 0.5 0.5 2 = Some out2 ∧
    verifier_probs out2 = verifier_probs out1 ∧
    ∀ i, verifier_preds out1 !! i = Some 0%Z →
         verifier_preds out2 !! i = Some 0%Z.
Proof.
  eexists. split; [reflexivity|].
  apply (verifier_antitone_in_threshold
           [[0; 1]] [[[0; 0]; [0; 0]]] 0.5 0.5 1 2); [lra | reflexivity].
Defined.

(** C2. For every example, [score_null] is [start_prob[0] + end_prob[0]] and
    [score_has], the infinity norm of [start_prob + end_prob] over the
    positions from 1 on, is the maximum of [start_prob[j] + end_prob[j]]
    over the positions [j >= 1]: it bounds every such sum and is one of
    them. The absolute values of the norm change nothing because the
    probabilities are softmax outputs, hence nonnegative. *)
Theorem score_has_is_max_over_non_null sk il b1 b2 thr out i ex s e :
  RetroReaderDecoder sk il b1 b2 thr = Some out →
  il !! i = Some ex → ex !! 0%nat = Some s → ex !! 1%nat = Some e →
  length s = length e →
  let start_prob := softmax s in
  let end_prob := softmax e in
  (∀ p, p ∈ start_prob ∨ p ∈ end_prob → 0 <= p) ∧
  (∃ s0 e0, start_prob !! 0%nat = Some s0 ∧ end_prob !! 0%nat = Some e0 ∧
            score_null out !! i = Some (s0 + e0)) ∧
  (∃ h, score_has out !! i = Some h ∧
        reduce_max (Rabs <$> zip_with Rplus (drop 1 start_prob) (drop 1 end_prob))
          = Some h ∧
        (∀ j a b, (1 ≤ j)%nat → start_prob !! j = Some a →
                  end_prob !! j = Some b → a + b <= h) ∧
        (∃ j a b, (1 ≤ j)%nat ∧ start_prob !! j = Some a ∧
                  end_prob !! j = Some b ∧ h = a + b)).
Proof.
  intros (_ & His & _)%decoder_inv Hex Hs He Hlen start_prob end_prob.
  apply intensive_scores_lookup in His as (_ & _ & _ & His).
  destruct (His i ex Hex)
    as (s' & e' & tail & h & s0 & e0 & Hs' & He' & Htail & Hh & Hsh & Hs0 & He0 & Hsn).
  simplify_eq. fold start_prob end_prob in Htail, Hs0, He0.
  assert (∀ p, p ∈ start_prob ∨ p ∈ end_prob → 0 < p) as Hpos.
  { intros p [Hp|Hp]; by eapply softmax_pos. }
  split_and!.
  - intros p Hp. apply Rlt_le. auto.
  - eauto.
  - unfold tf_add1 in Htail. rewrite broadcast_lift2_same in Htail
      by (rewrite !length_drop; unfold start_prob, end_prob;
          rewrite !length_softmax; lia).
    simplify_eq.
    assert (∀ x, x ∈ zip_with Rplus (drop 1 start_prob) (drop 1 end_prob)
                 → 0 <= x) as Hnn.
    { intros x (j & Hj)%list_elem_of_lookup_1.
      apply lookup_zip_with_Some in Hj as (a & b & -> & Ha & Hb).
      apply list_elem_of_lookup_2, subseteq_drop in Ha, Hb.
      apply Rlt_le, Rplus_lt_0_compat; auto. }
    exists h. split_and!; [done..| |]; rewrite Rabs_fmap_id in Hh by done.
    + intros j a b Hj Ha Hb.
      apply reduce_max_spec in Hh as [Hub _]. apply Hub.
      apply (list_elem_of_lookup_2 _ (j - 1)), lookup_zip_with_Some.
      exists a, b. rewrite !lookup_drop.
      replace (1 + (j - 1))%nat with j by lia. done.
    + apply reduce_max_spec in Hh as [_ (k & Hk)%list_elem_of_lookup_1].
      apply lookup_zip_with_Some in Hk as (a & b & -> & Ha & Hb).
      rewrite lookup_drop in Ha, Hb.
      exists (1 + k)%nat, a, b. split_and!; [lia | done..].
Qed.

Lemma score_has_is_max_over_non_null_witness :
  ∃ out, RetroReaderDecoder [[0; 1]] [[[0; 0]; [0; 0]]] 0.5 0.5 1 = Some out ∧
  let start_prob := softmax [0; 0] in
  let end_prob := softmax [0; 0] in
  (∀ p, p ∈ start_prob ∨ p ∈ end_prob → 0 <= p) ∧
  (∃ s0 e0, start_prob !! 0%nat = Some s0 ∧ end_prob !! 0%nat = Some e0 ∧
            score_null out !! 0%nat = Some (s0 + e0)) ∧
  (∃ h, score_has out !! 0%nat = Some h ∧
        reduce_max (Rabs <$> zip_with Rplus (drop 1 start_prob) (drop 1 end_prob))
          = Some h ∧
        (∀ j a b, (1 ≤ j)%nat → start_prob !! j = Some a →
                  end_prob !! j = Some b → a + b <= h) ∧
        (∃ j a b, (1 ≤ j)%nat ∧ start_prob !! j = Some a ∧
                  end_prob !! j = Some b ∧ h = a + b)).
Proof.
  eexists. split; [reflexivity|].
  apply (score_has_is_max_over_non_null
           [[0; 1]] [[[0; 0]; [0; 0]]] 0.5 0.5 1 _ 0%nat [[0; 0]; [0; 0]]);
    reflexivity.
Defined.

(** The absolute values of the norm matter for vectors that are not
    probabilities. *)
Example norm_inf_of_signed_vector :
  norm_inf [[-2; 1]] = Some [2] ∧ reduce_max [-2; 1] = Some 1.
Proof.
  split; cbn; do 2 f_equal.
  - rewrite (Rabs_left (-2)), (Rabs_right 1) by lra.
    rewrite Rmax_left by lra. lra.
  - apply Rmax_right. lra.
Qed.

Lemma softmax_00 : exp 0 / (exp 0 + (exp 0 + 0)) = 1 / 2.
Proof. rewrite exp_0. field. Qed.

(** C8. [verifier_probs] is the raw fusion score [v] of each example, with
    no normalisation: it is negative for some inputs and exceeds 1 for
    others. [verifier_preds] is 1 exactly where [verifier_probs] is
    strictly greater than the threshold and 0 elsewhere, so the two outputs
    agree. *)
Theorem verifier_probs_is_raw_fusion_score sk il b1 b2 thr out :
  RetroReaderDecoder sk il b1 b2 thr = Some out →
  length sk = length il →
  (length (verifier_probs out) = length il
   ∧ length (verifier_preds out) = length il)
  ∧ (∀ i, (i < length il)%nat →
       ∃ sh sn se, score_has out !! i = Some sh ∧ score_null out !! i = Some sn ∧
         score_ext out !! i = Some se ∧
         verifier_probs out !! i = Some (b1 * (sh - sn) + b2 * se))
  ∧ (∀ i, verifier_preds out !! i = Some 1%Z
          ↔ ∃ p, verifier_probs out !! i = Some p ∧ thr < p)
  ∧ (∀ i, verifier_preds out !! i = Some 0%Z
          ↔ ∃ p, verifier_probs out !! i = Some p ∧ ¬ thr < p)
  ∧ (∃ out' p, RetroReaderDecoder [[0; 5]] [[[0; 0]; [0; 0]]] 0.5 0.5 1 = Some out'
               ∧ verifier_probs out' !! 0%nat = Some p ∧ 1 < p)
  ∧ (∃ out' p, RetroReaderDecoder [[5; 0]] [[[0; 0]; [0; 0]]] 0.5 0.5 1 = Some out'
               ∧ verifier_probs out' !! 0%nat = Some p ∧ p < 0).
Proof.
  intros Hdec Hlen.
  destruct (decoder_scores _ _ _ _ _ _ Hdec Hlen)
    as (_ & _ & _ & Hlv & Hpreds & Hscores).
  split_and!; try done.
  - rewrite Hpreds. unfold cast_int32, tf_greater. by rewrite !length_fmap.
  - intros i. rewrite Hpreds, decision_lookup.
    destruct (verifier_probs out !! i) as [p|]; simpl.
    + case_decide; split; [eauto | done | done | by intros (? & [= <-] & ?)].
    + split; [done | by intros (? & ? & _)].
  - intros i. rewrite Hpreds, decision_lookup.
    destruct (verifier_probs out !! i) as [p|]; simpl.
    + case_decide; split; [done | by intros (? & [= <-] & ?) | eauto | done].
    + split; [done | by intros (? & ? & _)].
  - do 2 eexists. split_and!; [cbn; reflexivity..|].
    rewrite softmax_00, Rabs_right by lra. lra.
  - do 2 eexists. split_and!; [cbn; reflexivity..|].
    rewrite softmax_00, Rabs_right by lra. lra.
Qed.

Lemma verifier_probs_is_raw_fusion_score_witness :
  ∃ out, RetroReaderDecoder [[0; 1]] [[[0; 0]; [0; 0]]] 0.5 0.5 1 = Some out ∧
    (∀ i, verifier_preds out !! i = Some 1%Z
          ↔ ∃ p, verifier_probs out !! i = Some p ∧ 1 < p).
Proof.
  eexists. split; [reflexivity|].
  apply (verifier_probs_is_raw_fusion_score
           [[0; 1]] [[[0; 0]; [0; 0]]] 0.5 0.5 1); reflexivity.
Defined.

End RetroReaderSpec.

Module AttentionMaskFacts.

Import Tensor TensorFacts RetroReader.
Local Open Scope R_scope.

Lemma mapM_total {A B} (f : A → option B) (g : A → B) (l : list A) :
  (∀ x, x ∈ l → f x = Some (g x)) → mapM f l = Some (g <$> l).
Proof.
  intros H. apply mapM_Some, Forall2_fmap_r, Forall_Forall2_diag, Forall_forall.
  done.
Qed.

Lemma broadcast_same {A B C} (f : A → B → option C) (g : A → B → C) xs ys :
  length xs = length ys →
  (∀ x y, x ∈ xs → y ∈ ys → f x y = Some (g x y)) →
  broadcast f xs ys = Some (zip_with g xs ys).
Proof.
  intros Hlen H. unfold broadcast. rewrite (proj2 (Nat.eqb_eq _ _) Hlen).
  rewrite (zip_with_zip g). apply mapM_total. intros [x y] Hxy. simpl.
  apply H; [by eapply elem_of_zip_l | by eapply elem_of_zip_r].
Qed.

Lemma length_concat_uniform {A} (t : list (list A)) (L : nat) :
  Forall (λ r, length r = L) t → length (concat t) = (length t * L)%nat.
Proof.
  induction 1 as [|r t Hr _ IH]; simpl; [done|]. rewrite length_app. lia.
Qed.

(** Row [i] of a row-major sequence. *)
Lemma concat_chunk {A} (t : list (list A)) (L i : nat) (row : list A) :
  Forall (λ r, length r = L) t → t !! i = Some row →
  take L (drop (i * L) (concat t)) = row.
Proof.
  intros Ht. revert i. induction Ht as [|r t Hr _ IH]; intros i Hi; [done|].
  destruct i as [|i]; simpl in *.
  - simplify_eq. by apply take_app_length'.
  - rewrite drop_app_add' by done. by apply IH.
Qed.

(** Reshaping [batch, L] to [batch, 1, L] wraps every row. *)
Lemma reshape3_rows {A} (t : list (list A)) (B L : nat) :
  length t = B → Forall (λ r, length r = L) t →
  reshape3 (concat t) B 1 L = Some ((λ row, [row]) <$> t).
Proof.
  intros HB HL. unfold reshape3.
  rewrite (length_concat_uniform _ L), HB by done.
  rewrite (proj2 (Nat.eqb_eq _ _)) by lia. f_equal.
  apply list_eq. intros i. rewrite !list_lookup_fmap.
  destruct (decide (i < B)%nat) as [Hi|Hi].
  - rewrite lookup_seq_lt by done.
    destruct (lookup_lt_is_Some_2 t i) as [row Hrow]; [lia|].
    rewrite Hrow. simpl. do 2 f_equal.
    replace ((i * 1 + 0) * L)%nat with (i * L)%nat by lia.
    by apply concat_chunk.
  - rewrite (lookup_ge_None_2 (seq 0 B)) by (rewrite length_seq; lia).
    rewrite (lookup_ge_None_2 t) by lia. done.
Qed.

(** The closed form of the mask: row [i] of the query mask, repeated for
    every from-position. *)
Lemma attention_mask_closed_form (to_mask : list (list Z)) (B L : nat) :
  length to_mask = B → Forall (λ r, length r = L) to_mask →
  create_attention_mask_from_input_mask to_mask B L
  = Some ((λ row : list Z, replicate L (IZR <$> row)) <$> to_mask).
Proof.
  intros HB HL. unfold create_attention_mask_from_input_mask.
  rewrite reshape3_rows by done. simpl.
  unfold tf_mul3, tf_ones3, map3. rewrite <- list_fmap_compose.
  erewrite (broadcast_same _ (λ _ (y : list (list R)),
              replicate L (default [] (y !! 0%nat)))).
  - f_equal. apply list_eq. intros i.
    rewrite lookup_zip_with, !list_lookup_fmap.
    destruct (decide (i < B)%nat) as [Hi|Hi].
    + rewrite lookup_replicate_2 by done. simpl.
      destruct (to_mask !! i); done.
    + rewrite (lookup_ge_None_2 to_mask) by lia.
      by rewrite (proj1 (lookup_replicate_None _ _ _)) by lia.
  - by rewrite length_replicate, length_fmap.
  - intros x y [-> _]%elem_of_replicate (row & -> & Hrow)%list_elem_of_fmap.
    simpl. rewrite broadcast_r1.
    rewrite (mapM_total _ (λ _, IZR <$> row)).
    { by rewrite fmap_replicate. }
    intros x [-> _]%elem_of_replicate. rewrite broadcast_l1.
    rewrite (mapM_total _ (Rmult 1)) by done. f_equal.
    rewrite <- (list_fmap_id (IZR <$> row)) at 2.
    apply list_fmap_ext. intros _ r _. simpl. lra.
Qed.

(** The closed form of the masked scores: the penalty row of example [i]
    is added to every row of every head. *)
Lemma add_attention_mask_closed_form (to_mask : list (list Z)) (B N L : nat)
    (scores : list (list (list (list R)))) :
  length to_mask = B → Forall (λ r, length r = L) to_mask →
  has_shape4 B N L L scores →
  add_attention_mask scores
    (Some ((λ row : list Z, replicate L (IZR <$> row)) <$> to_mask))
  = Some (zip_with
            (λ (heads : list (list (list R))) (row : list Z),
               (λ head : list (list R), (λ r : list R, zip_with Rplus r
                   ((λ m, (1 - IZR m) * -10000) <$> row)) <$> head) <$> heads)
            scores to_mask).
Proof.
  intros HB HL [HsB Hs]. unfold add_attention_mask, tf_add4, expand_dims_1.
  unfold map4, map3. rewrite <- !list_fmap_compose.
  erewrite (broadcast_same _
     (λ (heads : list (list (list R))) (a : list (list (list R))),
        (λ head : list (list R),
           (λ r : list R,
              zip_with Rplus r (default [] (a !! 0%nat ≫= (.!! 0%nat))))
           <$> head) <$> heads)).
  - f_equal. apply list_eq. intros i.
    rewrite !lookup_zip_with, list_lookup_fmap.
    destruct (scores !! i) as [heads|]; simpl; [|done].
    destruct (to_mask !! i) as [row|] eqn:Hrow; simpl; [|done].
    do 2 f_equal. apply (Forall_lookup_1 _ _ _ _ HL) in Hrow.
    destruct L as [|L']; simpl.
    + by destruct row.
    + by rewrite <- list_fmap_compose.
  - rewrite length_fmap. congruence.
  - intros heads a Hheads (row & -> & Hrow)%list_elem_of_fmap. simpl.
    apply (proj1 (Forall_forall _ _) Hs) in Hheads as [HN Hheads].
    apply (proj1 (Forall_forall _ _) HL) in Hrow.
    rewrite broadcast_r1. apply mapM_total. intros head Hhead.
    apply (proj1 (Forall_forall _ _) Hheads) in Hhead as [HF Hhead].
    rewrite fmap_replicate.
    erewrite (broadcast_same _ (λ r p, zip_with Rplus r p)).
    + f_equal. apply list_eq. intros f. rewrite lookup_zip_with, list_lookup_fmap.
      destruct (head !! f) as [r|] eqn:Hr; simpl; [|done].
      rewrite lookup_replicate_2 by (rewrite <- HF; by eapply lookup_lt_Some).
      simpl. do 2 f_equal. destruct L; [|done].
      apply lookup_lt_Some in Hr. lia.
    + by rewrite length_replicate.
    + intros r p Hr [-> _]%elem_of_replicate.
      apply (proj1 (Forall_forall _ _) Hhead) in Hr.
      apply broadcast_lift2_same. by rewrite !length_fmap, Hr.
Qed.

End AttentionMaskFacts.

Module AttentionMaskSpec.

Import Tensor TensorFacts RetroReader AttentionMaskFacts.
Local Open Scope R_scope.

(** C10. For every batch size [B], sequence length [L] and 0/1 query mask
    [to_mask] of shape [B, L], the mask built by
    [create_attention_mask_from_input_mask] satisfies
    [mask[i, f, t] = to_mask[i, t]] for every from-position [f]: all query
    tokens of an example see the same key positions. In [attention_layer]
    the score of a masked-out key position ([to_mask[i, t] = 0]) receives
    the additive penalty -10000 before the softmax, in every head and for
    every from-position; the other scores are unchanged. *)
Theorem attention_mask_independent_of_from_position
    (to_mask : list (list Z)) (B L N : nat)
    (scores : list (list (list (list R)))) :
  length to_mask = B → Forall (λ r, length r = L) to_mask →
  Forall (Forall (λ m, m = 0%Z ∨ m = 1%Z)) to_mask →
  has_shape4 B N L L scores →
  ∃ mask masked,
    create_attention_mask_from_input_mask to_mask B L = Some mask ∧
    (∀ i f t m, ix2 to_mask i t = Some m → (f < L)%nat →
                ix3 mask i f t = Some (IZR m)) ∧
    add_attention_mask scores (Some mask) = Some masked ∧
    attention_probs scores (Some mask) = Some (map3 softmax masked) ∧
    (∀ i n f t s m, ix4 scores i n f t = Some s → ix2 to_mask i t = Some m →
       ix4 masked i n f t
       = Some (s + (if decide (m = 0%Z) then -10000 else 0))).
Proof.
  intros HB HL H01 Hshape.
  pose proof (attention_mask_closed_form to_mask B L HB HL) as Hmask.
  pose proof (add_attention_mask_closed_form to_mask B N L scores HB HL Hshape)
    as Hadd.
  do 2 eexists. split_and!; [exact Hmask | | exact Hadd | |].
  - intros i f t m Hm Hf. unfold ix3, ix2 in *.
    rewrite list_lookup_fmap.
    destruct (to_mask !! i) as [row|]; simpl in *; [|done].
    rewrite lookup_replicate_2 by done. simpl.
    by rewrite list_lookup_fmap, Hm.
  - unfold attention_probs. by rewrite Hadd.
  - intros i n f t s m Hs Hm. unfold ix4, ix3, ix2 in *.
    rewrite lookup_zip_with.
    destruct (scores !! i) as [heads|]; simpl in *; [|done].
    destruct (to_mask !! i) as [row|] eqn:Hrow; simpl in *; [|done].
    rewrite list_lookup_fmap.
    destruct (heads !! n) as [head|]; simpl in *; [|done].
    rewrite list_lookup_fmap.
    destruct (head !! f) as [r|]; simpl in *; [|done].
    rewrite lookup_zip_with, Hs, list_lookup_fmap, Hm. simpl. f_equal.
    assert (m = 0%Z ∨ m = 1%Z) as [->| ->].
    { apply (Forall_lookup_1 _ _ _ _ H01) in Hrow.
      by apply (Forall_lookup_1 _ _ _ _ Hrow) in Hm. }
    + rewrite decide_True by done. lra.
    + rewrite decide_False by done. lra.
Qed.

Lemma attention_mask_independent_of_from_position_witness :
  ∃ mask masked,
    create_attention_mask_from_input_mask [[1; 0]]%Z 1 2 = Some mask ∧
    (∀ i f t m, ix2 [[1; 0]]%Z i t = Some m → (f < 2)%nat →
                ix3 mask i f t = Some (IZR m)) ∧
    add_attention_mask [replicate 12 [[3; 4]; [5; 6]]] (Some mask)
      = Some masked ∧
    attention_probs [replicate 12 [[3; 4]; [5; 6]]] (Some mask)
      = Some (map3 softmax masked) ∧
    (∀ i n f t s m,
       ix4 [replicate 12 [[3; 4]; [5; 6]]] i n f t = Some s →
       ix2 [[1; 0]]%Z i t = Some m →
       ix4 masked i n f t
       = Some (s + (if decide (m = 0%Z) then -10000 else 0))).
Proof.
  apply (attention_mask_independent_of_from_position
           [[1; 0]]%Z 1 2 12 [replicate 12 [[3; 4]; [5; 6]]]).
  - reflexivity.
  - repeat constructor.
  - constructor; [|constructor].
    constructor; [by right|]. constructor; [by left | constructor].
  - split; [reflexivity|]. simpl. repeat constructor.
Defined.

End AttentionMaskSpec.

Module AttentionShapeFacts.

Import RetroReader.
Local Open Scope Z_scope.

Lemma reshape_shape_plain (s target : shape) :
  Forall (λ d, 0 ≤ d) target → numel s = numel target →
  reshape_shape s target = Some target.
Proof.
  intros Hpos Hnum. unfold reshape_shape.
  rewrite bool_decide_eq_false_2.
  - by rewrite bool_decide_eq_true_2.
  - intros Hin. apply (proj1 (Forall_forall _ _) Hpos) in Hin. lia.
Qed.

(** The cross-attention output has last dimension [12 * (hidden_size / 12)],
    whatever the hidden size. *)
Lemma cross_attention_shape (B L hidden : Z) :
  0 ≤ B → 0 ≤ L → 0 ≤ hidden →
  cross_attention flatten_to_matrix B L hidden
  = Some [B; L; 12 * (hidden / 12)].
Proof.
  intros HB HL Hh.
  assert (0 ≤ hidden / 12) as HH by (apply Z.div_pos; lia).
  unfold cross_attention, attention_layer, transpose_for_scores. cbn.
  rewrite (reshape_shape_plain _ [B; L; 12; hidden / 12]);
    [|repeat constructor; lia | cbn; lia].
  cbn. rewrite bool_decide_eq_true_2 by done. cbn.
  assert (broadcast_shape [B; 12; L; L] [B; 1; L; L] = Some [B; 12; L; L]) as ->.
  { unfold broadcast_shape. cbn.
    rewrite (bool_decide_eq_true_2 (B = B)), (bool_decide_eq_true_2 (L = L))
      by done. done. }
  cbn. rewrite bool_decide_eq_true_2 by done. cbn.
  rewrite reshape_shape_plain; [done | repeat constructor; lia | cbn; lia].
Qed.

Lemma reshape_shape_plain_inv (s target t : shape) :
  Forall (λ d, 0 ≤ d) target → reshape_shape s target = Some t → t = target.
Proof.
  intros Hpos. unfold reshape_shape.
  rewrite bool_decide_eq_false_2.
  - case_bool_decide; congruence.
  - intros Hin. apply (proj1 (Forall_forall _ _) Hpos) in Hin. lia.
Qed.

(** Whatever [reshape_to_matrix] does, an [H_prime] that the
    cross-attention branch returns has last dimension
    [12 * (hidden_size / 12)]. *)
Lemma cross_attention_last_dimension (reshape_to_matrix : shape → option shape)
    (B L hidden : Z) (H_prime : shape) :
  0 ≤ B → 0 ≤ L → 0 ≤ hidden →
  cross_attention reshape_to_matrix B L hidden = Some H_prime →
  H_prime = [B; L; 12 * (hidden / 12)].
Proof.
  intros HB HL Hh.
  assert (0 ≤ hidden / 12) as HH by (apply Z.div_pos; lia).
  unfold cross_attention. intros H.
  destruct (attention_layer _ _ _ _ _ _ _ _ _ _) as [[ctx scores]|] eqn:Hlayer;
    simplify_eq/=.
  unfold attention_layer in Hlayer.
  repeat match type of Hlayer with
         | mbind _ ?m = Some _ =>
             destruct m eqn:?; simpl in Hlayer; [|discriminate]
         end.
  simplify_eq. eapply reshape_shape_plain_inv; [|eassumption].
  repeat constructor; lia.
Qed.
(** [H_prime] has the shape of [H] exactly when 12 divides the hidden
    size. *)
Lemma cross_attention_keeps_shape_iff (B L hidden : Z) :
  0 ≤ B → 0 ≤ L → 0 ≤ hidden →
  cross_attention flatten_to_matrix B L hidden = Some [B; L; hidden]
  ↔ hidden mod 12 = 0.
Proof.
  intros HB HL Hh. rewrite cross_attention_shape by done.
  pose proof (Z.div_mod hidden 12). split.
  - intros [= Heq]. lia.
  - intros Hmod. do 4 f_equal. lia.
Qed.

(** The matching-attention branch keeps the shape for every hidden size. *)
Lemma matching_attention_shape (B L hidden : Z) :
  matching_attention B L hidden = Some [B; L; hidden].
Proof.
  unfold matching_attention. cbn.
  rewrite bool_decide_eq_true_2 by done. cbn.
  rewrite bool_decide_eq_true_2 by done. cbn.
  by rewrite bool_decide_eq_true_2.
Qed.
End AttentionShapeFacts.

Module AttentionShapeSpec.

Import RetroReader AttentionShapeFacts.
Local Open Scope Z_scope.

(** C5, at the hidden size 1024 of the large encoders, which 12 does not
    divide: the cross-attention branch runs 12 heads of size
    [1024 / 12 = 85] and returns [H_prime] of shape [2, 128, 1020], not the
    shape [2, 128, 1024] of [H]; the prediction layer then rejects the
    reshape of its logits. The matching-attention branch keeps the shape of
    [H] and the prediction layer accepts it. *)
Theorem cross_attention_shape_at_hidden_1024 :
  cross_attention flatten_to_matrix 2 128 1024 = Some [2; 128; 1020]
  ∧ cross_attention flatten_to_matrix 2 128 1024 ≠ Some [2; 128; 1024]
  ∧ prediction_logits [2; 128; 1020] 128 1024 = None
  ∧ matching_attention 2 128 1024 = Some [2; 128; 1024]
  ∧ prediction_logits [2; 128; 1024] 128 1024 = Some [2; 2; 128].
Proof. by vm_compute. Qed.

End AttentionShapeSpec.

Module ALBERTFacts.

Import ALBERT.
Local Open Scope Z_scope.

Section MonadFacts.
Context {Rng : Type}.
Implicit Types (s : state Rng).

Lemma bind_Ok {A B} (m : M Rng A) (k : A → M Rng B) s a s1 :
  m s = (Ok a, s1) → (m ≫= k) s = k a s1.
Proof. unfold mbind, M_bind. by intros ->. Qed.

Lemma bind_Raise {A B} (m : M Rng A) (k : A → M Rng B) s e s1 :
  m s = (Raise e, s1) → (m ≫= k) s = (Raise e, s1).
Proof. unfold mbind, M_bind. by intros ->. Qed.

Lemma bind_Ok_inv {A B} (m : M Rng A) (k : A → M Rng B) s b s' :
  (m ≫= k) s = (Ok b, s') → ∃ a s1, m s = (Ok a, s1) ∧ k a s1 = (Ok b, s').
Proof.
  unfold mbind, M_bind. destruct (m s) as [[a|e] s1]; [eauto | done].
Qed.

Lemma for_each_Ok_inv {A B} (body : A → M Rng B) l s bs s' :
  for_each l body s = (Ok bs, s') →
  Forall2 (λ x b, ∃ s1 s2, body x s1 = (Ok b, s2)) l bs.
Proof.
  revert s bs. induction l as [|x l IH]; intros s bs; simpl.
  - intros [= <- _]. constructor.
  - intros (b & s1 & Hb & (bs' & s2 & Hbs & [= <- <-])%bind_Ok_inv)%bind_Ok_inv.
    constructor; [eauto | by eapply IH].
Qed.

End MonadFacts.

Lemma string_app_assoc (a b c : string) :
  (a ++ (b ++ c))%string = ((a ++ b) ++ c)%string.
Proof.
  induction a as [|ch a IH]; [done|].
  change (String ch (a ++ (b ++ c)) = String ch ((a ++ b) ++ c))%string.
  by rewrite IH.
Qed.

Lemma result_cases {A} (r : result A) : is_Ok r ∨ is_Raise r.
Proof. destruct r; [left | right]; by eexists. Qed.

Section ConversionFacts.
Context {sample label Rng : Type}.
Variable str : sample → string.
Variable E : collaborators (sample := sample) (label := label) (Rng := Rng).
Variable self : ALBERTLM.
Implicit Types (s : state Rng) (X : list sample).

(** The first sample that the tokenizer rejects. *)
Lemma first_failure X tokenized idx x :
  X !! idx = Some x → is_Raise (_convert_x E x tokenized) →
  ∃ idx0 x0, (idx0 ≤ idx)%nat ∧ X !! idx0 = Some x0 ∧
    is_Raise (_convert_x E x0 tokenized) ∧
    ∀ j x', (j < idx0)%nat → X !! j = Some x' →
            is_Ok (_convert_x E x' tokenized).
Proof.
  revert idx. induction X as [|x1 X IH]; intros idx Hx Hraise; [done|].
  destruct (result_cases (_convert_x E x1 tokenized)) as [Hok|Hr].
  - destruct idx as [|idx]; simpl in Hx.
    { simplify_eq. destruct Hok, Hraise. congruence. }
    destruct (IH idx Hx Hraise) as (idx0 & x0 & Hle & Hx0 & Hr0 & Hbefore).
    exists (S idx0), x0. split_and!; [lia | done..|].
    intros [|j] x' Hj Hx'; simpl in Hx'; [by simplify_eq|].
    apply (Hbefore j); [lia | done].
  - exists 0%nat, x1. split_and!; [lia | done..|]. intros j x' Hj. lia.
Qed.

(** The tokenization loop started at index [k]: it stops at the first
    rejected sample, after one call per sample up to that one. *)
Lemma tokenize_aborts X tokenized (k idx : nat) x s :
  X !! idx = Some x → is_Raise (_convert_x E x tokenized) →
  (∀ j x', (j < idx)%nat → X !! j = Some x' →
           is_Ok (_convert_x E x' tokenized)) →
  for_each (zip (seq k (length X)) X) (λ '(idx, x),
    try_except (invoke (call_convert_x idx) (_convert_x E x tokenized))
               (λ _, raise (ValueError (wrong_input_format str idx x)))) s
  = (Raise (ValueError (wrong_input_format str (k + idx) x)),
     {| rng := rng s; batch_size := batch_size s;
        trace := trace s ++ (call_convert_x <$> seq k (S idx)) |}).
Proof.
  revert k idx s. induction X as [|x1 X IH]; intros k idx s Hx Hr Hbefore;
    [done|].
  destruct idx as [|idx]; simpl in Hx.
  - simplify_eq. destruct Hr as [e He]. simpl.
    erewrite bind_Raise.
    + rewrite Nat.add_0_r. done.
    + unfold try_except, invoke, raise. rewrite He. done.
  - destruct (Hbefore 0%nat x1) as [segs Hsegs]; [lia | done |]. simpl.
    erewrite bind_Ok.
    2:{ unfold try_except, invoke. rewrite Hsegs. done. }
    erewrite bind_Raise.
    2:{ apply IH; [done..|]. intros j x' Hj Hx'.
        apply (Hbefore (S j)); [lia | done]. }
    rewrite Nat.add_succ_r. simpl. rewrite <- app_assoc. done.
Qed.

(** Lines 415-419 add [len(segment) + 1] entries per segment to each of the
    three lists, and only ones to the mask. *)
Lemma join_segments_from (segments : list (list string)) (k : nat)
    (tokens : list string) (mask sids : list Z) :
  ∃ tokens' mask' sids',
    foldl join_step (tokens, mask, sids) (zip (seq k (length segments)) segments)
    = (tokens', mask', sids') ∧
    let n := (length (concat segments) + length segments)%nat in
    length tokens' = (length tokens + n)%nat ∧
    mask' = mask ++ replicate n 1 ∧
    length sids' = (length sids + n)%nat.
Proof.
  revert k tokens mask sids.
  induction segments as [|segment segments IH]; intros k tokens mask sids.
  - exists tokens, mask, sids. simpl. rewrite app_nil_r. auto with lia.
  - destruct (IH (S k) (tokens ++ (segment ++ ["[SEP]"%string]))
                (mask ++ replicate (length segment + 1) 1)
                (sids ++ replicate (length segment + 1)
                                   (Z.of_nat (k `min` 1))))
      as (tokens' & mask' & sids' & Heq & Ht & Hm & Hs).
    exists tokens', mask', sids'. split; [exact Heq|]. simpl in *.
    rewrite !length_app, ?length_replicate in *. simpl in *.
    split_and!; [lia | | lia].
    rewrite Hm, <- app_assoc, <- replicate_add. do 2 f_equal. lia.
Qed.

Lemma join_segments_spec (segments : list (list string)) tokens mask sids :
  join_segments segments = (tokens, mask, sids) →
  length tokens = (1 + length (concat segments) + length segments)%nat ∧
  mask = replicate (length tokens) 1 ∧
  length sids = length tokens.
Proof.
  unfold join_segments, enumerate. intros H.
  destruct (join_segments_from segments 0 ["[CLS]"%string] [1] [0])
    as (tokens' & mask' & sids' & Heq & Ht & Hm & Hs).
  rewrite Heq in H. simplify_eq. simpl in *.
  split_and!; [lia | | lia]. rewrite Ht. done.
Qed.

Lemma sum_Z_mask (n m : nat) :
  sum_Z (replicate n 1 ++ replicate m 0) = Z.of_nat n.
Proof.
  unfold sum_Z. rewrite foldr_app.
  assert (foldr Z.add 0 (replicate m 0) = 0) as ->
    by (induction m; simpl; lia).
  induction n as [|n IH]; simpl; lia.
Qed.

(** One training example, under the contracts of the collaborators. *)
Lemma convert_example_training (idx : nat) segments s r s' :
  truncation_contract E → masker_contract E → tokenizer_contract E →
  0 ≤ _max_predictions_per_seq self →
  convert_example E self true idx segments s = (Ok r, s') →
  fixed_shape_row self r ∧ training_row_of E self segments (rng s) r.
Proof.
  intros Htrunc Hmasker Htok Hbudget0. unfold convert_example.
  intros (segments' & s1 & Hseg & H)%bind_Ok_inv.
  unfold invoke in Hseg. injection Hseg as Hsegs <-.
  pose proof (Htrunc _ _ _ _ Hsegs) as [Hlen Htotal].
  destruct (join_segments segments') as [[tokens mask] sids] eqn:Hjoin.
  pose proof (join_segments_spec _ _ _ _ Hjoin) as (Hlt & Hmask_eq & Hls).
  apply bind_Ok_inv in H as ([[[tokens' positions] ids] weights] & s2 & Hmask & H).
  apply bind_Ok_inv in Hmask
    as ([[tokens'' positions'] labels] & s3 & Hcall & Hmask).
  apply bind_Ok_inv in Hmask as (ids' & s4 & Hids & Hret).
  unfold mret, M_ret in Hret. simplify_eq.
  apply bind_Ok_inv in H as (iids & s5 & Hiids & Hret).
  unfold mret, M_ret in Hret. simplify_eq.
  unfold invoke_random in Hcall. simpl in Hcall.
  destruct (create_masked_lm_predictions _ _ _ _ _ _ _ _ _ _)
    as [res g'] eqn:Hcreate. simplify_eq.
  pose proof (Hmasker _ _ _ _ _ _ _ _ _ _ _ _ _ Hcreate) as (Hlt' & Hll & Hbudget).
  specialize (Hbudget Hbudget0).
  unfold invoke in Hids, Hiids.
  injection Hids as Hids _. injection Hiids as Hiids _.
  pose proof (Htok _ _ Hids) as Hlids. pose proof (Htok _ _ Hiids) as Hliids.
  fold (mask_width self) in Hbudget |- *.
  assert (Z.to_nat (mask_width self - Z.of_nat (length positions'))
          = (Z.to_nat (mask_width self) - length positions')%nat) as Hpad1 by lia.
  assert (Z.to_nat (max_seq_length self - Z.of_nat (length iids))
          = (Z.to_nat (max_seq_length self) - length iids)%nat) as Hpad2 by lia.
  assert (length iids = length tokens) as Hn by congruence.
  assert (Z.of_nat (length tokens) ≤ max_seq_length self) as Hfit by lia.
  split.
  - unfold fixed_shape_row. simpl.
    rewrite !length_app, !length_replicate, Hpad1, Hpad2. lia.
  - unfold training_row_of, padded_training_row.
    do 10 eexists.
    split_and!; [exact Hsegs | exact Hjoin | exact Hcreate | exact Hids
                | exact Hiids | ..]; simpl;
      rewrite ?Hpad1, ?Hpad2, ?Hn; try done; try lia; try congruence.
    apply sum_Z_mask.
Qed.

(** [_convert_X] returns the columns of the rows that [convert_example]
    builds. *)
Lemma _convert_X_rows X (is_training tokenized : bool) s out s' :
  _convert_X str E self X is_training tokenized s = (Ok out, s') →
  ∃ rows sentence_order_labels,
    out = (input_ids <$> rows, input_mask <$> rows, segment_ids <$> rows,
           masked_lm_positions <$> rows, masked_lm_ids <$> rows,
           masked_lm_weights <$> rows, sentence_order_labels) ∧
    Forall (λ r, ∃ idx segments s1 s2,
              convert_example E self is_training idx segments s1 = (Ok r, s2))
           rows.
Proof.
  unfold _convert_X.
  intros (docs & s1 & _ & H)%bind_Ok_inv.
  apply bind_Ok_inv in H as ([docs' labels] & s2 & _ & H).
  apply bind_Ok_inv in H as (rows & s3 & Hrows & Hret).
  unfold mret, M_ret in Hret. simplify_eq.
  exists rows, labels. split; [done|].
  apply for_each_Ok_inv in Hrows. apply Forall_lookup. intros i r Hr.
  destruct (Forall2_lookup_r _ _ _ _ _ Hrows Hr) as ([idx segments] & _ & Hx).
  destruct Hx as (sa & sb & Hx). eauto.
Qed.

(** A loop over [enumerate l], element by element. *)
Lemma for_each_enumerate_Ok_inv {A B} (body : nat * A → M Rng B) (l : list A)
    s bs s' :
  for_each (enumerate l) body s = (Ok bs, s') →
  Forall2 (λ x b, ∃ idx s1 s2, body (idx, x) s1 = (Ok b, s2)) l bs.
Proof.
  intros H%for_each_Ok_inv. apply Forall2_same_length_lookup. split.
  - apply Forall2_length in H. unfold enumerate in H.
    rewrite length_zip_with, length_seq in H. lia.
  - intros i x b Hx Hb.
    assert (enumerate l !! i = Some (i, x)) as Hix.
    { unfold enumerate. rewrite (lookup_zip_with pair), Hx.
      rewrite lookup_seq_lt by by eapply lookup_lt_Some. done. }
    destruct (Forall2_lookup_lr _ _ _ _ _ _ H Hix Hb) as (s1 & s2 & Hrun).
    eauto.
Qed.

(** The examples of a batch: the segments that the loop of lines 404-467
    runs over and, one for one, the rows it builds from them. Without
    sentence sampling the segments are what [_convert_x] returned for the
    samples, one for one. *)
Lemma _convert_X_examples X (is_training tokenized : bool) s out s' :
  _convert_X str E self X is_training tokenized s = (Ok out, s') →
  ∃ rows sentence_order_labels segment_input_tokens,
    out = (input_ids <$> rows, input_mask <$> rows, segment_ids <$> rows,
           masked_lm_positions <$> rows, masked_lm_ids <$> rows,
           masked_lm_weights <$> rows, sentence_order_labels) ∧
    (is_training && do_sample_sentence self = false →
     Forall2 (λ x segments, _convert_x E x tokenized = Ok segments)
             X segment_input_tokens) ∧
    Forall2 (λ segments r, ∃ idx s1 s2,
               convert_example E self is_training idx segments s1 = (Ok r, s2))
            segment_input_tokens rows.
Proof.
  unfold _convert_X, tokenize.
  intros (docs & s1 & Hdocs & H)%bind_Ok_inv.
  apply bind_Ok_inv in H as ([docs' labels] & s2 & Hsample & H).
  apply bind_Ok_inv in H as (rows & s3 & Hrows & Hret).
  unfold mret, M_ret in Hret. simplify_eq.
  exists rows, labels, docs'. split_and!; [done | |].
  - intros Hno. rewrite Hno in Hsample.
    unfold mret, M_ret in Hsample. simplify_eq.
    apply for_each_enumerate_Ok_inv in Hdocs.
    eapply Forall2_impl; [exact Hdocs|]. simpl.
    intros x segments (idx & sa & sb & Hrun).
    unfold try_except, invoke, raise in Hrun.
    destruct (_convert_x E x tokenized); by simplify_eq.
  - apply for_each_enumerate_Ok_inv in Hrows.
    eapply Forall2_impl; [exact Hrows|]. simpl. eauto.
Qed.

(** The positions of the [MASK] tokens are exactly their indices, in
    increasing order. *)
Lemma mask_token_positions_spec (tokens : list string) :
  (∀ p, p ∈ mask_token_positions tokens
        ↔ ∃ i : nat, p = Z.of_nat i ∧ tokens !! i = Some "[MASK]"%string)
  ∧ StronglySorted Z.lt (mask_token_positions tokens).
Proof.
  unfold mask_token_positions. split.
  - intros p. rewrite list_elem_of_fmap. split.
    + intros (i & -> & [Hi _]%list_elem_of_filter). eauto.
    + intros (i & -> & Hi). exists i. split; [done|].
      apply list_elem_of_filter. split; [done|].
      apply elem_of_seq. apply lookup_lt_Some in Hi. lia.
  - generalize 0%nat at 1. generalize (length tokens).
    intros n. induction n as [|n IH]; intros k; simpl; [constructor|].
    rewrite filter_cons. case_decide; [|apply IH].
    csimpl. constructor; [apply IH|].
    apply Forall_fmap, Forall_forall. intros i [_ Hi%elem_of_seq]%list_elem_of_filter.
    simpl. lia.
Qed.

(** One inference example: the positions of its [MASK] tokens, followed by
    zeros while the list is shorter than [mask_width]; no ids and no
    weights. *)
Lemma convert_example_inference (idx : nat) segments s r s' :
  convert_example E self false idx segments s = (Ok r, s') →
  ∃ segments' tokens mask sids,
    truncate_segments E segments
      (max_seq_length self - Z.of_nat (length segments) - 1)
      (truncate_method self) = Ok segments' ∧
    join_segments segments' = (tokens, mask, sids) ∧
    masked_lm_positions r
      = mask_token_positions tokens
        ++ replicate (Z.to_nat (mask_width self
             - Z.of_nat (length (mask_token_positions tokens)))) 0 ∧
    masked_lm_ids r = [] ∧ masked_lm_weights r = [].
Proof.
  unfold convert_example.
  intros (segments' & s1 & Hseg & H)%bind_Ok_inv.
  unfold invoke in Hseg. injection Hseg as Hseg _.
  destruct (join_segments segments') as [[tokens mask] sids] eqn:Hjoin.
  apply bind_Ok_inv in H as ([[[tokens' positions] ids] weights] & s2 & Hret & H).
  unfold mret, M_ret in Hret. simplify_eq.
  apply bind_Ok_inv in H as (iids & s5 & _ & Hret).
  unfold mret, M_ret in Hret. simplify_eq.
  exists segments', tokens', mask, sids. done.
Qed.

(** Its length is the larger of the number of [MASK] tokens and
    [mask_width]. *)
Lemma convert_example_inference_length (idx : nat) segments s r s' :
  convert_example E self false idx segments s = (Ok r, s') →
  ∃ segments' tokens mask sids,
    truncate_segments E segments
      (max_seq_length self - Z.of_nat (length segments) - 1)
      (truncate_method self) = Ok segments' ∧
    join_segments segments' = (tokens, mask, sids) ∧
    length (masked_lm_positions r)
    = (length (mask_token_positions tokens) `max` Z.to_nat (mask_width self))%nat.
Proof.
  intros (segments' & tokens & mask & sids & Hseg & Hjoin & -> & _)
    %convert_example_inference.
  exists segments', tokens, mask, sids. split_and!; [done..|].
  rewrite length_app, length_replicate. lia.
Qed.

Ltac inv_ret H := unfold mret, M_ret in H; simplify_eq.

(** In inference mode [convert] stores neither [masked_lm_ids] nor
    [masked_lm_weights]. *)
Lemma inference_data_has_no_mask_labels (X : option (list sample))
    (y : option (list label)) (sample_weight : option (list R))
    (X_tokenized : option (list sample)) (is_parallel : bool) s data s' :
  convert str E self X y sample_weight X_tokenized false is_parallel s
    = (Ok data, s') →
  data !! "masked_lm_ids"%string = None ∧
  data !! "masked_lm_weights"%string = None.
Proof.
  unfold convert. intros H.
  apply bind_Ok_inv in H as (? & ? & _ & H).
  apply bind_Ok_inv in H as (? & ? & _ & H).
  apply bind_Ok_inv in H as ([data1 n_inputs] & ? & HX & H).
  apply bind_Ok_inv in H as (data2 & ? & Hy & H).
  apply bind_Ok_inv in H as (data3 & ? & Hw & H).
  inv_ret H.
  assert (data1 !! "masked_lm_ids"%string = None ∧
          data1 !! "masked_lm_weights"%string = None) as [Hids1 Hweights1].
  { destruct (truthy X || truthy X_tokenized); [|by inv_ret HX].
    apply bind_Ok_inv in HX as ([[[[[[c1 c2] c3] c4] c5] c6] c7] & ? & _ & HX).
    do 4 apply bind_Ok_inv in HX as (? & ? & _ & HX).
    apply bind_Ok_inv in HX as (data0 & ? & Hdata0 & HX).
    do 2 apply bind_Ok_inv in HX as (? & ? & _ & HX).
    inv_ret Hdata0. inv_ret HX. simpl.
    by rewrite !lookup_insert_ne, lookup_empty by done. }
  assert (data2 !! "masked_lm_ids"%string = None ∧
          data2 !! "masked_lm_weights"%string = None) as [Hids2 Hweights2].
  { destruct (truthy y); [|by inv_ret Hy].
    apply bind_Ok_inv in Hy as (? & ? & _ & Hy). inv_ret Hy.
    by rewrite !lookup_insert_ne by done. }
  simpl in Hw. destruct (truthy y); [|by inv_ret Hw].
  apply bind_Ok_inv in Hw as (? & ? & _ & Hw). inv_ret Hw.
  by rewrite !lookup_insert_ne by done.
Qed.
End ConversionFacts.

End ALBERTFacts.

Module ALBERTSpec.

Import ALBERT ALBERTFacts.
Local Open Scope Z_scope.

Section Conversion.
Context {sample label Rng : Type}.
Variable str : sample → string.
Variable E : collaborators (sample := sample) (label := label) (Rng := Rng).
Variable self : ALBERTLM.
Implicit Types (s : state Rng) (X : list sample).

(** C6. In training mode, explicit labels [y] together with
    [do_sample_sentence], and no labels without [do_sample_sentence], are
    rejected: [convert] raises, and the only call it has made by then is
    the legality check [_assert_legal], so no input was converted, no
    instance was built, no random number was drawn and [batch_size] is
    unchanged. The exception is the [AssertionError] of the failed
    assertion, with its message, whenever the legality check itself
    passes. *)
Theorem contradictory_labels_are_rejected
    (X : option (list sample)) (y : option (list label))
    (sample_weight : option (list R)) (X_tokenized : option (list sample))
    (is_parallel : bool) s :
  (is_Some y ∧ do_sample_sentence self = true)
  ∨ (y = None ∧ do_sample_sentence self = false) →
  ∃ e, convert str E self X y sample_weight X_tokenized true is_parallel s
       = (Raise e, log call_assert_legal s)
    ∧ (_assert_legal E X y sample_weight X_tokenized = Ok tt →
       e = AssertionError
             match y with
             | Some _ => "`y` should be None when `do_sample_sentence` is True."
             | None => "`y` can't be None when `do_sample_sentence` is False."
             end).
Proof.
  intros Hbad. unfold convert.
  destruct (_assert_legal E X y sample_weight X_tokenized) as [[]|e] eqn:Hlegal.
  - erewrite bind_Ok by done.
    destruct Hbad as [[[y' ->] Hs]|[-> Hs]]; rewrite Hs; simpl;
      (erewrite bind_Raise by done); eauto.
  - erewrite bind_Raise by done.
    eexists. split; [done | discriminate].
Qed.

(** C7. If the tokenization of a sample of [X] raises, [_convert_X] raises
    a [ValueError] for the first such sample: its message contains the
    index and the raw value of that sample, no output list is returned, and
    nothing but the tokenizer was called. A sample whose predecessors are
    all accepted is the one reported. *)
Theorem tokenization_failure_aborts_batch X (is_training tokenized : bool)
    (idx : nat) (x : sample) s :
  X !! idx = Some x → is_Raise (_convert_x E x tokenized) →
  ∃ idx0 x0 s',
    (idx0 ≤ idx)%nat ∧ X !! idx0 = Some x0 ∧
    is_Raise (_convert_x E x0 tokenized) ∧
    _convert_X str E self X is_training tokenized s
      = (Raise (ValueError (wrong_input_format str idx0 x0)), s') ∧
    contains (NilEmpty.string_of_uint (Nat.to_uint idx0))
             (wrong_input_format str idx0 x0) ∧
    contains (str x0) (wrong_input_format str idx0 x0) ∧
    trace s' = trace s ++ (call_convert_x <$> seq 0 (S idx0)) ∧
    ((∀ j x', (j < idx)%nat → X !! j = Some x' →
              is_Ok (_convert_x E x' tokenized)) → idx0 = idx ∧ x0 = x).
Proof.
  intros Hx Hr.
  destruct (first_failure E X tokenized idx x Hx Hr)
    as (idx0 & x0 & Hle & Hx0 & Hr0 & Hbefore).
  eexists idx0, x0, _. split_and!; try done.
  - unfold _convert_X, tokenize, enumerate.
    erewrite bind_Raise; [done|].
    by apply (tokenize_aborts str E X tokenized 0 idx0 x0 s).
  - unfold wrong_input_format, contains. eexists _, _. reflexivity.
  - unfold wrong_input_format, contains.
    exists ("Wrong input format (line "
            ++ NilEmpty.string_of_uint (Nat.to_uint idx0)
            ++ "): " ++ String "034" "")%string, (String "034" ". ").
    rewrite <- !string_app_assoc. done.
  - done.
  - intros Hall. destruct (decide (idx0 = idx)) as [->|Hne].
    + split; [done | congruence].
    + destruct (Hall idx0 x0) as [a Ha]; [lia | done |].
      destruct Hr0 as [e He]. congruence.
Qed.

(** C3. Under the contracts of the truncation, of the masker and of the
    tokenizer, every example that [_convert_X] returns in training mode has
    [masked_lm_positions], [masked_lm_ids] and [masked_lm_weights] of length
    exactly [max_predictions_per_seq * (1 + do_permutation)]: the positions
    that the masker returned for the example, the ids of its labels and a
    weight 1.0 for each come first, and then padding of position 0, id 0
    and weight 0.0. It has [input_ids], [input_mask] and [segment_ids] of
    length [max_seq_length]: the ids of the tokens of the example, a 1 for
    each and their segment ids, padded with zeros, the sum of [input_mask]
    being the number of tokens of the example, which are the tokens that
    are not padding. The examples are the rows, one for one, of the
    segments the loop runs over, which without sentence sampling are the
    tokenized samples. The budget [max_predictions_per_seq] is a count,
    hence not negative. *)
Theorem training_examples_have_fixed_shape X (tokenized : bool) s out s' :
  truncation_contract E → masker_contract E → tokenizer_contract E →
  0 ≤ _max_predictions_per_seq self →
  _convert_X str E self X true tokenized s = (Ok out, s') →
  ∃ rows sentence_order_labels segment_input_tokens,
    out = (input_ids <$> rows, input_mask <$> rows, segment_ids <$> rows,
           masked_lm_positions <$> rows, masked_lm_ids <$> rows,
           masked_lm_weights <$> rows, sentence_order_labels) ∧
    (do_sample_sentence self = false →
     Forall2 (λ x segments, _convert_x E x tokenized = Ok segments)
             X segment_input_tokens) ∧
    Forall2 (λ segments r,
               fixed_shape_row self r ∧
               ∃ g, training_row_of E self segments g r)
            segment_input_tokens rows.
Proof.
  intros Htrunc Hmasker Htok Hbudget Hrun.
  apply (_convert_X_examples str) in Hrun
    as (rows & labels & docs & -> & Hdocs & Hrows).
  exists rows, labels, docs. split_and!; [done | exact Hdocs |].
  eapply Forall2_impl; [exact Hrows|]. simpl.
  intros segments r (idx & s1 & s2 & Hr).
  destruct (convert_example_training E self idx segments s1 r s2) as [H1 H2];
    eauto.
Qed.

End Conversion.

End ALBERTSpec.

Module DemoFacts.

Import ALBERT ALBERTFacts ALBERTSpec Demo.
Local Open Scope Z_scope.

Lemma demo_truncation_contract : truncation_contract demo.
Proof.
  intros segments n method segments'. simpl. unfold demo_truncate_segments.
  case_match eqn:Hfit; [|done]. intros [= <-].
  apply Z.leb_le in Hfit. done.
Qed.

Lemma demo_masker_contract : masker_contract demo.
Proof.
  intros tokens prob m vocab_words n_gram favor permute whole g
    tokens' positions labels g'. simpl.
  unfold demo_create_masked_lm_predictions.
  assert (0 ≤ Z.b2z permute) by (destruct permute; simpl; lia).
  destruct (tokens !! 1%nat) as [t|]; [|intros [= <- <- <-]; simpl; nia].
  destruct (_ && _) eqn:Hbudget; intros [= <- <- <-]; simpl; [|nia].
  rewrite length_insert. split_and!; [done..|]. nia.
Qed.

Lemma demo_tokenizer_contract : tokenizer_contract demo.
Proof. intros tokens ids [= <-]. by rewrite length_fmap. Qed.

(** Two documents, converted for training with sentence sampling. *)
Lemma training_examples_have_fixed_shape_witness :
  ∃ out s',
    _convert_X demo_str demo (demo_self 2 true)
      [["the"; "cat"; "sat"]; ["cat"]]%string true true s0 = (Ok out, s') ∧
    ∃ rows sentence_order_labels segment_input_tokens,
      out = (input_ids <$> rows, input_mask <$> rows, segment_ids <$> rows,
             masked_lm_positions <$> rows, masked_lm_ids <$> rows,
             masked_lm_weights <$> rows, sentence_order_labels) ∧
      (do_sample_sentence (demo_self 2 true) = false →
       Forall2 (λ x segments, _convert_x demo x true = Ok segments)
               [["the"; "cat"; "sat"]; ["cat"]]%string segment_input_tokens) ∧
      Forall2 (λ segments r,
                 fixed_shape_row (demo_self 2 true) r ∧
                 ∃ g, training_row_of demo (demo_self 2 true) segments g r)
              segment_input_tokens rows.
Proof.
  do 2 eexists. split; [vm_compute; reflexivity|].
  eapply (training_examples_have_fixed_shape demo_str demo (demo_self 2 true)
            [["the"; "cat"; "sat"]; ["cat"]]%string true s0).
  - exact demo_truncation_contract.
  - exact demo_masker_contract.
  - exact demo_tokenizer_contract.
  - simpl. lia.
  - vm_compute. reflexivity.
Defined.

Lemma contradictory_labels_are_rejected_witness :
  ∃ e, convert demo_str demo (demo_self 2 true) None (Some [1]) None
         (Some [["the"; "cat"; "sat"]%string]) true false s0
       = (Raise e, log call_assert_legal s0)
    ∧ (_assert_legal demo None (Some [1]) None
         (Some [["the"; "cat"; "sat"]%string]) = Ok tt →
       e = AssertionError
             "`y` should be None when `do_sample_sentence` is True.").
Proof.
  apply (contradictory_labels_are_rejected demo_str demo (demo_self 2 true)).
  left. split; [by eexists | reflexivity].
Defined.

Lemma tokenization_failure_aborts_batch_witness :
  ∃ idx0 x0 s',
    (idx0 ≤ 1)%nat ∧ [["the"]%string; []; ["cat"]%string] !! idx0 = Some x0 ∧
    is_Raise (_convert_x demo x0 true) ∧
    _convert_X demo_str demo (demo_self 2 true)
      [["the"]%string; []; ["cat"]%string] true true s0
      = (Raise (ValueError (wrong_input_format demo_str idx0 x0)), s') ∧
    contains (NilEmpty.string_of_uint (Nat.to_uint idx0))
             (wrong_input_format demo_str idx0 x0) ∧
    contains (demo_str x0) (wrong_input_format demo_str idx0 x0) ∧
    trace s' = trace s0 ++ (call_convert_x <$> seq 0 (S idx0)) ∧
    ((∀ j x', (j < 1)%nat → [["the"]%string; []; ["cat"]%string] !! j = Some x' →
              is_Ok (_convert_x demo x' true)) → idx0 = 1%nat ∧ x0 = []).
Proof.
  apply (tokenization_failure_aborts_batch demo_str demo (demo_self 2 true)
           [["the"]%string; []; ["cat"]%string] true true 1 [] s0).
  - reflexivity.
  - by eexists.
Defined.

(** C9, at an input with more [MASK] tokens than [max_predictions_per_seq]:
    with [max_predictions_per_seq = 1] and no permutation the width of the
    mask-level lists is 1, and the inference-mode conversion of the
    tokenized sample [[MASK] [MASK] sat] returns the two positions 1 and 2
    of its [MASK] tokens, a list of length 2: nothing is padded and nothing
    is cut. *)
Theorem inference_positions_exceed_mask_width :
  mask_width (demo_self 1 false) = 1 ∧
  (_convert_X demo_str demo (demo_self 1 false)
     [["[MASK]"; "[MASK]"; "sat"]%string] false true s0).1
  = Ok ([[5; 6; 6; 3; 5; 0; 0; 0]], [[1; 1; 1; 1; 1; 0; 0; 0]],
        [[0; 0; 0; 0; 0; 0; 0; 0]], [[1; 2]], [[]], [[]], []).
Proof. split; vm_compute; reflexivity. Qed.

End DemoFacts.

(** * Further properties of the Retro-Reader *)

Module SoftmaxFacts.

Import Tensor TensorFacts.
Local Open Scope R_scope.

Lemma reduce_sum_fmap_div {A} (f : A → R) (z : R) (l : list A) :
  reduce_sum ((λ x, f x / z) <$> l) = reduce_sum (f <$> l) / z.
Proof.
  unfold reduce_sum. induction l as [|a l IH]; csimpl.
  - unfold Rdiv. ring.
  - rewrite IH. unfold Rdiv. ring.
Qed.

Lemma softmax_sum (l : list R) : l ≠ [] → reduce_sum (softmax l) = 1.
Proof.
  intros Hl. unfold softmax. cbv zeta.
  rewrite (reduce_sum_fmap_div exp). apply Rdiv_diag.
  apply Rgt_not_eq, Rlt_gt, reduce_sum_exp_pos, Hl.
Qed.

Lemma softmax_lookup (l : list R) (i : nat) :
  softmax l !! i = (λ x, exp x / reduce_sum (exp <$> l)) <$> l !! i.
Proof. unfold softmax. by rewrite list_lookup_fmap. Qed.

Lemma reduce_sum_nonneg (l : list R) : (∀ x, x ∈ l → 0 <= x) → 0 <= reduce_sum l.
Proof.
  unfold reduce_sum. induction l as [|a l IH]; intros H; simpl; [lra|].
  assert (0 <= a) by (apply H; by left).
  assert (0 <= foldr Rplus 0 l) by (apply IH; intros x Hx; apply H; by right).
  lra.
Qed.

Lemma entry_le_sum (l : list R) (i : nat) (a : R) :
  (∀ x, x ∈ l → 0 <= x) → l !! i = Some a → a <= reduce_sum l.
Proof.
  revert i. induction l as [|b l IH]; intros i H Hi; [done|].
  assert (0 <= b) by (apply H; by left).
  assert (∀ x, x ∈ l → 0 <= x) as H' by (intros x Hx; apply H; by right).
  pose proof (reduce_sum_nonneg l H').
  unfold reduce_sum in *. destruct i as [|i]; simpl in *.
  - simplify_eq. lra.
  - specialize (IH i H' Hi). lra.
Qed.

(** Two different entries of a vector of nonnegative numbers add up to at
    most the sum of the vector. *)
Lemma two_entries_le_sum (l : list R) (i j : nat) (a b : R) :
  (∀ x, x ∈ l → 0 <= x) → i ≠ j → l !! i = Some a → l !! j = Some b →
  a + b <= reduce_sum l.
Proof.
  revert i j. induction l as [|c l IH]; intros i j H Hij Hi Hj; [done|].
  assert (0 <= c) by (apply H; by left).
  assert (∀ x, x ∈ l → 0 <= x) as H' by (intros x Hx; apply H; by right).
  destruct i as [|i], j as [|j]; simpl in *; try done.
  - simplify_eq. pose proof (entry_le_sum l j b H' Hj).
    unfold reduce_sum in *. simpl. lra.
  - simplify_eq. pose proof (entry_le_sum l i a H' Hi).
    unfold reduce_sum in *. simpl. lra.
  - assert (a + b <= reduce_sum l) by (apply (IH i j); auto).
    unfold reduce_sum in *. simpl. lra.
Qed.

(** The softmax does not change when a constant is added to the logits. *)
Lemma softmax_shift (l : list R) (c : R) : softmax ((λ x, x + c) <$> l) = softmax l.
Proof.
  unfold softmax. cbv zeta. rewrite <- !list_fmap_compose.
  assert (reduce_sum (exp ∘ (λ x, x + c) <$> l)
          = exp c * reduce_sum (exp <$> l)) as ->.
  { unfold reduce_sum. induction l as [|a l IH]; csimpl; [ring|].
    rewrite IH, exp_plus. ring. }
  destruct l as [|a0 l0]; [done|].
  assert (0 < reduce_sum (exp <$> a0 :: l0)) as Hz
    by by apply reduce_sum_exp_pos.
  revert Hz. generalize (reduce_sum (exp <$> a0 :: l0)). intros z Hz.
  apply list_fmap_ext. intros _ x _. simpl. rewrite exp_plus.
  pose proof (exp_pos c). field. split; lra.
Qed.

(** A softmax output is largest where the logit is largest. *)
Lemma softmax_monotone (l : list R) (i j : nat) (x y p q : R) :
  l !! i = Some x → l !! j = Some y →
  softmax l !! i = Some p → softmax l !! j = Some q →
  (x <= y ↔ p <= q).
Proof.
  intros Hx Hy. rewrite !softmax_lookup, Hx, Hy. simpl. intros [= <-] [= <-].
  assert (0 < reduce_sum (exp <$> l)) as Hz.
  { apply reduce_sum_exp_pos. by intros ->. }
  split.
  - intros Hle. apply Rmult_le_compat_r; [left; by apply Rinv_0_lt_compat|].
    destruct Hle as [Hlt| ->]; [left; by apply exp_increasing | right; done].
  - intros Hle. apply Rnot_lt_le. intros Hlt.
    apply exp_increasing in Hlt.
    apply (Rmult_lt_compat_r (/ reduce_sum (exp <$> l))) in Hlt;
      [|by apply Rinv_0_lt_compat].
    unfold Rdiv in Hle. lra.
Qed.

End SoftmaxFacts.

Module RetroReaderScores.

Import Tensor TensorFacts RetroReader RetroReaderFacts RetroReaderSpec.
Import RetroReaderLoss SoftmaxFacts.
Local Open Scope R_scope.

(** The scores of one example in terms of its two probability rows. *)
Lemma example_scores sk il b1 b2 thr out i ex s e :
  RetroReaderDecoder sk il b1 b2 thr = Some out →
  il !! i = Some ex → ex !! 0%nat = Some s → ex !! 1%nat = Some e →
  length s = length e →
  ∃ (j : nat) a b s0 e0,
    (1 ≤ j)%nat ∧ softmax s !! j = Some a ∧ softmax e !! j = Some b ∧
    softmax s !! 0%nat = Some s0 ∧ softmax e !! 0%nat = Some e0 ∧
    score_has out !! i = Some (a + b) ∧ score_null out !! i = Some (s0 + e0).
Proof.
  intros (_ & His & _)%decoder_inv Hex Hs He Hlen.
  apply intensive_scores_lookup in His as (_ & _ & _ & His).
  destruct (His i ex Hex)
    as (s' & e' & tail & h & s0 & e0 & Hs' & He' & Htail & Hh & Hsh & Hs0 & He0 & Hsn).
  simplify_eq.
  unfold tf_add1 in Htail. rewrite broadcast_lift2_same in Htail
    by (rewrite !length_drop, !length_softmax; lia).
  simplify_eq.
  rewrite Rabs_fmap_id in Hh.
  2:{ intros x (j & Hj)%list_elem_of_lookup_1.
      apply lookup_zip_with_Some in Hj as (a & b & -> & Ha & Hb).
      apply list_elem_of_lookup_2, subseteq_drop in Ha, Hb.
      apply softmax_pos in Ha, Hb. lra. }
  apply reduce_max_spec in Hh as [_ (k & Hk)%list_elem_of_lookup_1].
  apply lookup_zip_with_Some in Hk as (a & b & -> & Ha & Hb).
  rewrite lookup_drop in Ha, Hb.
  exists (1 + k)%nat, a, b, s0, e0. split_and!; [lia | done..].
Qed.

Lemma softmax_row_distribution (l : list R) :
  l ≠ [] → reduce_sum (softmax l) = 1 ∧ ∀ p, p ∈ softmax l → 0 < p <= 1.
Proof.
  intros Hl. pose proof (softmax_sum l Hl) as Hsum. split; [done|].
  intros p Hp. split; [by eapply softmax_pos|].
  apply list_elem_of_lookup_1 in Hp as [k Hk]. rewrite <- Hsum.
  eapply entry_le_sum; [|done]. intros x Hx%softmax_pos. lra.
Qed.

(** X1. In [mrc_probs] the start row and the end row of every example are
    probability distributions over the positions: every entry lies in
    (0, 1] and each row sums to 1. *)
Theorem mrc_probs_are_distributions sk il b1 b2 thr out (i j : nat) ex row :
  RetroReaderDecoder sk il b1 b2 thr = Some out →
  mrc_probs out !! i = Some ex → (j < 2)%nat → ex !! j = Some row →
  reduce_sum row = 1 ∧ ∀ p, p ∈ row → 0 < p <= 1.
Proof.
  intros (_ & His & _)%decoder_inv Hex Hj Hrow.
  apply intensive_scores_lookup in His as (Hprobs & _ & _ & His).
  rewrite Hprobs, list_lookup_fmap in Hex.
  destruct (il !! i) as [lex|] eqn:Hlex; [|done]. simplify_eq/=.
  destruct (His i lex Hlex)
    as (s & e & tail & h & s0 & e0 & Hs & He & _ & _ & _ & Hs0 & He0 & _).
  rewrite list_lookup_fmap in Hrow.
  assert (row = softmax s ∨ row = softmax e) as [-> | ->].
  { destruct j as [|[|j]]; [left | right | lia]; by simplify_option_eq. }
  - apply softmax_row_distribution. intros ->. done.
  - apply softmax_row_distribution. intros ->. done.
Qed.

Lemma mrc_probs_are_distributions_witness :
  ∃ out, RetroReaderDecoder [[0; 1]] [[[0; 0]; [0; 0]]] 0.5 0.5 1 = Some out ∧
    reduce_sum (softmax [0; 0]) = 1 ∧ ∀ p, p ∈ softmax [0; 0] → 0 < p <= 1.
Proof.
  eexists. split; [reflexivity|].
  eapply (mrc_probs_are_distributions [[0; 1]] [[[0; 0]; [0; 0]]] 0.5 0.5 1 _
           0%nat 0%nat [softmax [0; 0]; softmax [0; 0]]);
    [reflexivity | reflexivity | lia | reflexivity].
Defined.

(** X2. For every example the two span scores are positive and add up to at
    most 2, so [score_has - score_null] lies strictly between -2 and 2 and
    the intensive module moves the fusion score by at most [2 * |beta_1|]
    away from [beta_2 * score_ext]. *)
Theorem intensive_contribution_is_bounded sk il b1 b2 thr out i ex s e :
  RetroReaderDecoder sk il b1 b2 thr = Some out →
  length sk = length il →
  il !! i = Some ex → ex !! 0%nat = Some s → ex !! 1%nat = Some e →
  length s = length e →
  ∃ sh sn se v,
    score_has out !! i = Some sh ∧ score_null out !! i = Some sn ∧
    score_ext out !! i = Some se ∧ verifier_probs out !! i = Some v ∧
    0 < sh ∧ 0 < sn ∧ sh + sn <= 2 ∧ -2 < sh - sn < 2 ∧
    Rabs (v - b2 * se) <= 2 * Rabs b1.
Proof.
  intros Hdec Hlen Hex Hs He Hse.
  destruct (example_scores _ _ _ _ _ _ _ _ _ _ Hdec Hex Hs He Hse)
    as (j & a & b & s0 & e0 & Hj & Ha & Hb & Hs0 & He0 & Hsh & Hsn).
  destruct (decoder_scores _ _ _ _ _ _ Hdec Hlen) as (_ & _ & _ & _ & _ & Hv).
  destruct (Hv i) as (sh & sn & se & Hsh' & Hsn' & Hse' & Hvi);
    [by eapply lookup_lt_Some|]. simplify_eq.
  assert (s ≠ []) as Hs_ne by (intros ->; done).
  assert (e ≠ []) as He_ne by (intros ->; done).
  destruct (softmax_row_distribution s Hs_ne) as [Hsum_s Hpos_s].
  destruct (softmax_row_distribution e He_ne) as [Hsum_e Hpos_e].
  assert (s0 + a <= 1).
  { rewrite <- Hsum_s. apply (two_entries_le_sum _ 0 j); [|lia|done..].
    intros x Hx%Hpos_s. lra. }
  assert (e0 + b <= 1).
  { rewrite <- Hsum_e. apply (two_entries_le_sum _ 0 j); [|lia|done..].
    intros x Hx%Hpos_e. lra. }
  pose proof (Hpos_s a (list_elem_of_lookup_2 _ _ _ Ha)).
  pose proof (Hpos_s s0 (list_elem_of_lookup_2 _ _ _ Hs0)).
  pose proof (Hpos_e b (list_elem_of_lookup_2 _ _ _ Hb)).
  pose proof (Hpos_e e0 (list_elem_of_lookup_2 _ _ _ He0)).
  exists (a + b), (s0 + e0), se, (b1 * (a + b - (s0 + e0)) + b2 * se).
  split_and!; try done; try lra.
  replace (b1 * (a + b - (s0 + e0)) + b2 * se - b2 * se)
    with (b1 * (a + b - (s0 + e0))) by ring.
  rewrite Rabs_mult, Rmult_comm.
  apply Rmult_le_compat_r; [apply Rabs_pos|].
  apply Rabs_le. lra.
Qed.

Lemma intensive_contribution_is_bounded_witness :
  ∃ out, RetroReaderDecoder [[0; 1]] [[[0; 0]; [0; 0]]] 0.5 0.5 1 = Some out ∧
  ∃ sh sn se v,
    score_has out !! 0%nat = Some sh ∧ score_null out !! 0%nat = Some sn ∧
    score_ext out !! 0%nat = Some se ∧ verifier_probs out !! 0%nat = Some v ∧
    0 < sh ∧ 0 < sn ∧ sh + sn <= 2 ∧ -2 < sh - sn < 2 ∧
    Rabs (v - 0.5 * se) <= 2 * Rabs 0.5.
Proof.
  eexists. split; [reflexivity|].
  apply (intensive_contribution_is_bounded [[0; 1]] [[[0; 0]; [0; 0]]]
           0.5 0.5 1 _ 0%nat [[0; 0]; [0; 0]] [0; 0] [0; 0]); reflexivity.
Defined.

(** X3. [mrc_preds] is computed from the logits and [mrc_probs] from their
    softmax: a position that [tf.argmax] may return for a row of logits is
    a position of largest probability in the same row of [mrc_probs], and
    conversely. *)
Theorem mrc_preds_maximise_mrc_probs sk il b1 b2 thr out (i j k : nat)
    ex logits probs row :
  RetroReaderDecoder sk il b1 b2 thr = Some out →
  il !! i = Some ex → ex !! j = Some logits →
  mrc_probs out !! i = Some probs → probs !! j = Some row →
  (is_argmax logits k ↔ is_argmax row k).
Proof.
  intros (_ & His & _)%decoder_inv Hex Hlogits Hprobs Hrow.
  apply intensive_scores_lookup in His as (Hmrc & _).
  rewrite Hmrc, list_lookup_fmap, Hex in Hprobs. simplify_eq/=.
  rewrite list_lookup_fmap, Hlogits in Hrow. simplify_eq/=.
  unfold is_argmax. split.
  - intros (m & Hm & Hmax).
    destruct (lookup_lt_is_Some_2 (softmax logits) k) as [p Hp].
    { rewrite length_softmax. by eapply lookup_lt_Some. }
    exists p. split; [done|].
    intros q (k' & Hq)%list_elem_of_lookup_1.
    destruct (lookup_lt_is_Some_2 logits k') as [y Hy].
    { rewrite <- length_softmax. by eapply lookup_lt_Some. }
    apply (softmax_monotone logits k' k y m q p); auto.
    apply Hmax. by eapply list_elem_of_lookup_2.
  - intros (p & Hp & Hmax).
    destruct (lookup_lt_is_Some_2 logits k) as [m Hm].
    { rewrite <- length_softmax. by eapply lookup_lt_Some. }
    exists m. split; [done|].
    intros y (k' & Hy)%list_elem_of_lookup_1.
    destruct (lookup_lt_is_Some_2 (softmax logits) k') as [q Hq].
    { rewrite length_softmax. by eapply lookup_lt_Some. }
    apply (softmax_monotone logits k' k y m q p); auto.
    apply Hmax. by eapply list_elem_of_lookup_2.
Qed.

Lemma mrc_preds_maximise_mrc_probs_witness :
  ∃ out, RetroReaderDecoder [[0; 1]] [[[0; 3]; [0; 0]]] 0.5 0.5 1 = Some out ∧
    (is_argmax [0; 3] 1 ↔ is_argmax (softmax [0; 3]) 1).
Proof.
  eexists. split; [reflexivity|].
  eapply (mrc_preds_maximise_mrc_probs [[0; 1]] [[[0; 3]; [0; 0]]] 0.5 0.5 1 _
           0%nat 0%nat 1%nat [[0; 3]; [0; 0]] [0; 3]
           [softmax [0; 3]; softmax [0; 0]]); reflexivity.
Defined.

End RetroReaderScores.

Module RetroReaderShift.

Import Tensor TensorFacts RetroReader RetroReaderFacts SoftmaxFacts.
Local Open Scope R_scope.

Lemma index_col_fmap {A B} (g : A → B) (j : nat) (t : list (list A)) :
  index_col j (fmap (M := list) (fmap (M := list) g) t)
  = fmap (M := option) (fmap (M := list) g) (index_col j t).
Proof.
  unfold index_col. induction t as [|row t IH]; [done|]. cbn.
  rewrite list_lookup_fmap. destruct (row !! j) as [x|]; [|done]. cbn.
  rewrite IH. by destruct (mapM (λ row, row !! j) t).
Qed.

Lemma index_col_length {A} (j : nat) (t : list (list A)) c :
  index_col j t = Some c → length c = length t.
Proof. by intros [? _]%index_col_lookup. Qed.

Lemma zip_with_Rminus_shift (c : R) (l1 l0 : list R) :
  zip_with Rminus ((λ x, x + c) <$> l1) ((λ x, x + c) <$> l0)
  = zip_with Rminus l1 l0.
Proof.
  revert l0. induction l1 as [|a l1 IH]; intros [|b l0]; csimpl; try done.
  rewrite IH. f_equal. lra.
Qed.

Lemma sketchy_score_shift (c : R) (sk : list (list R)) :
  sketchy_score (fmap (M := list) (fmap (M := list) (λ x, x + c)) sk)
  = sketchy_score sk.
Proof.
  unfold sketchy_score. rewrite !index_col_fmap.
  destruct (index_col 1 sk) as [l1|] eqn:H1; simpl; [|done].
  destruct (index_col 0 sk) as [l0|] eqn:H0; simpl; [|done].
  apply index_col_length in H1, H0.
  unfold tf_sub1. rewrite !broadcast_lift2_same
    by (rewrite ?length_fmap; congruence).
  by rewrite zip_with_Rminus_shift.
Qed.

Lemma intensive_scores_shift (c : R) (il : list (list (list R))) :
  intensive_scores (map3 (λ x, x + c) il) = intensive_scores il.
Proof.
  unfold intensive_scores, map3. cbv zeta.
  assert (fmap (M := list) (fmap (M := list) softmax)
            (fmap (M := list) (fmap (M := list)
               (fmap (M := list) (λ x, x + c))) il)
          = fmap (M := list) (fmap (M := list) softmax) il) as ->; [|done].
  rewrite <- list_fmap_compose. apply list_fmap_ext. intros _ ex _. simpl.
  rewrite <- list_fmap_compose. apply list_fmap_ext. intros _ row _. simpl.
  apply softmax_shift.
Qed.

End RetroReaderShift.

Module RetroReaderShiftSpec.

Import Tensor TensorFacts RetroReader RetroReaderShift.
Local Open Scope R_scope.

(** X19. The outputs of the decoder depend on differences of logits only:
    adding one constant to all sketchy logits and another one to all
    intensive logits changes none of [mrc_probs], the scores,
    [verifier_probs] and [verifier_preds]. *)
Theorem decoder_is_shift_invariant (c_sketchy c_intensive : R)
    (sketchy_logits : list (list R)) (intensive_logits : list (list (list R)))
    (beta_1 beta_2 threshold : R) :
  RetroReaderDecoder
    (fmap (M := list) (fmap (M := list) (λ x, x + c_sketchy)) sketchy_logits)
    (map3 (λ x, x + c_intensive) intensive_logits)
    beta_1 beta_2 threshold
  = RetroReaderDecoder sketchy_logits intensive_logits beta_1 beta_2 threshold.
Proof.
  unfold RetroReaderDecoder.
  by rewrite sketchy_score_shift, intensive_scores_shift.
Qed.

End RetroReaderShiftSpec.

Module LossFacts.

Import Tensor TensorFacts RetroReader RetroReaderLoss SoftmaxFacts.
Local Open Scope R_scope.

(** Whatever the shapes, an entry of a broadcast result is the operation
    applied to an entry of each argument. *)
Lemma broadcast_elem {A B C} (f : A → B → option C) xs ys zs :
  broadcast f xs ys = Some zs →
  ∀ z, z ∈ zs → ∃ x y, x ∈ xs ∧ y ∈ ys ∧ f x y = Some z.
Proof.
  unfold broadcast. intros H z (i & Hz)%list_elem_of_lookup_1.
  destruct (length xs =? length ys)%nat.
  - apply mapM_Some in H.
    destruct (Forall2_lookup_r _ _ _ _ _ H Hz) as ([x y] & Hxy & Hf).
    rewrite (lookup_zip_with pair) in Hxy.
    apply bind_Some in Hxy as (x' & Hx & (y' & Hy & ?)%bind_Some).
    simplify_eq/=. exists x, y.
    split_and!; [by eapply list_elem_of_lookup_2.. | done].
  - destruct xs as [|x [|x' xs]].
    + destruct ys as [|y [|y' ys]]; [done | | done].
      apply mapM_Some in H.
      destruct (Forall2_lookup_r _ _ _ _ _ H Hz) as (x & Hx & Hf). done.
    + apply mapM_Some in H.
      destruct (Forall2_lookup_r _ _ _ _ _ H Hz) as (y & Hy & Hf).
      exists x, y. split_and!; [by left | by eapply list_elem_of_lookup_2 | done].
    + destruct ys as [|y [|y' ys]]; [done | | done].
      apply mapM_Some in H.
      destruct (Forall2_lookup_r _ _ _ _ _ H Hz) as (x0 & Hx & Hf).
      exists x0, y. split_and!; [by eapply list_elem_of_lookup_2 | by left | done].
Qed.

Lemma reduce_sum_nonpos (l : list R) : (∀ x, x ∈ l → x <= 0) → reduce_sum l <= 0.
Proof.
  unfold reduce_sum. induction l as [|a l IH]; intros H; simpl; [lra|].
  assert (a <= 0) by (apply H; by left).
  assert (foldr Rplus 0 l <= 0) by (apply IH; intros x Hx; apply H; by right).
  lra.
Qed.

Lemma ln_monotone (x y : R) : 0 < x → x <= y → ln x <= ln y.
Proof.
  intros Hx [Hlt | ->]; [|lra]. left. by apply ln_increasing.
Qed.

Lemma log_softmax_lookup (x : list R) (i : nat) :
  log_softmax x !! i = (λ xi, xi - ln (reduce_sum (exp <$> x))) <$> x !! i.
Proof. unfold log_softmax. cbv zeta. by rewrite list_lookup_fmap. Qed.

Lemma length_log_softmax (x : list R) : length (log_softmax x) = length x.
Proof. unfold log_softmax. by rewrite length_fmap. Qed.

(** [log_softmax] is the logarithm of [softmax]. *)
Lemma log_softmax_ln_softmax (x : list R) (i : nat) (lp p : R) :
  log_softmax x !! i = Some lp → softmax x !! i = Some p → lp = ln p.
Proof.
  rewrite log_softmax_lookup, softmax_lookup.
  destruct (x !! i) as [xi|] eqn:Hxi; [|done]. simpl. intros [= <-] [= <-].
  assert (0 < reduce_sum (exp <$> x)) as Hz.
  { apply reduce_sum_exp_pos. by intros ->. }
  unfold Rdiv. rewrite ln_mult, ln_Rinv, ln_exp; [lra | done | apply exp_pos |].
  by apply Rinv_0_lt_compat.
Qed.

Lemma log_softmax_nonpos (x : list R) (lp : R) : lp ∈ log_softmax x → lp <= 0.
Proof.
  intros (i & Hi)%list_elem_of_lookup_1.
  destruct (lookup_lt_is_Some_2 (softmax x) i) as [p Hp].
  { rewrite length_softmax, <- length_log_softmax. by eapply lookup_lt_Some. }
  rewrite (log_softmax_ln_softmax x i lp p Hi Hp).
  assert (x ≠ []) as Hx by (intros ->; done).
  pose proof (softmax_sum x Hx) as Hsum.
  assert (0 < p) by (eapply softmax_pos, list_elem_of_lookup_2, Hp).
  assert (p <= 1).
  { rewrite <- Hsum. eapply entry_le_sum; [|done].
    intros y Hy%softmax_pos. lra. }
  rewrite <- ln_1. by apply ln_monotone.
Qed.

Lemma one_hot_elem (depth : nat) (i : Z) (v : R) :
  v ∈ one_hot depth i → v = 0 ∨ v = 1.
Proof.
  unfold one_hot. intros (j & -> & _)%list_elem_of_fmap.
  case_bool_decide; auto.
Qed.

(** The sum that selects the entry of the label. *)
Lemma one_hot_dot_from (k : nat) (i : Z) (lp : list R) :
  reduce_sum (zip_with Rmult
    ((λ j : nat, if bool_decide (Z.of_nat j = i) then 1 else 0)
       <$> seq k (length lp)) lp)
  = if bool_decide (Z.of_nat k ≤ i < Z.of_nat k + Z.of_nat (length lp))%Z
    then default 0 (lp !! Z.to_nat (i - Z.of_nat k)) else 0.
Proof.
  revert k. induction lp as [|a lp IH]; intros k; csimpl.
  - unfold reduce_sum; simpl. by case_bool_decide.
  - unfold reduce_sum in *. simpl. rewrite IH. clear IH.
    destruct (decide (Z.of_nat k = i)) as [<-|Hne].
    + rewrite bool_decide_true by done.
      rewrite bool_decide_false by lia. rewrite bool_decide_true by lia.
      replace (Z.of_nat k - Z.of_nat k)%Z with 0%Z by lia. simpl. lra.
    + rewrite (bool_decide_false (Z.of_nat k = i)) by done.
      case_bool_decide as H1; case_bool_decide as H2; try lia; try lra.
      replace (Z.to_nat (i - Z.of_nat k)) with (S (Z.to_nat (i - Z.of_nat (S k))))
        by lia.
      simpl. lra.
Qed.

Lemma one_hot_dot (depth : nat) (i : Z) (lp : list R) :
  length lp = depth →
  reduce_sum (zip_with Rmult (one_hot depth i) lp)
  = if bool_decide (0 ≤ i < Z.of_nat depth)%Z
    then default 0 (lp !! Z.to_nat i) else 0.
Proof.
  intros <-. unfold one_hot. rewrite one_hot_dot_from.
  replace (i - Z.of_nat 0)%Z with i by lia. done.
Qed.

Lemma length_one_hot (depth : nat) (i : Z) : length (one_hot depth i) = depth.
Proof. unfold one_hot. by rewrite length_fmap, length_seq. Qed.

(** Line 75 and lines 169-172 on one example of a batch whose labels and
    logits have the same size. *)
Lemma label_log_prob_lookup (depth : nat) labels logits sums (i : nat) y row :
  label_log_prob (one_hot depth <$> labels) (log_softmax <$> logits) = Some sums →
  length labels = length logits →
  labels !! i = Some y → logits !! i = Some row → length row = depth →
  sums !! i = Some (if bool_decide (0 ≤ y < Z.of_nat depth)%Z
                    then default 0 (log_softmax row !! Z.to_nat y) else 0).
Proof.
  unfold label_log_prob, tf_mul2. intros H Hlen Hy Hrow Hdepth.
  apply bind_Some in H as (products & Hp & [= <-]).
  apply broadcast_same_lookup in Hp as [_ Hp]; [|by rewrite !length_fmap].
  destruct (Hp i (one_hot depth y) (log_softmax row)) as (z & Hz & Hmul).
  { by rewrite list_lookup_fmap, Hy. }
  { by rewrite list_lookup_fmap, Hrow. }
  unfold tf_mul1 in Hmul. rewrite broadcast_lift2_same in Hmul
    by (by rewrite length_one_hot, length_log_softmax).
  simplify_eq. rewrite list_lookup_fmap, Hz. simpl. f_equal.
  apply one_hot_dot. by rewrite length_log_softmax.
Qed.

Lemma label_log_prob_length ohs lps sums :
  label_log_prob ohs lps = Some sums → length ohs = length lps →
  length sums = length lps.
Proof.
  unfold label_log_prob, tf_mul2. intros H Hlen.
  apply bind_Some in H as (products & Hp & [= <-]).
  apply broadcast_same_lookup in Hp as [Hl _]; [|done].
  rewrite length_fmap. congruence.
Qed.

(** Whatever the shapes, the sums of lines 75 and 169-172 are not
    positive: every product is a label entry, 0 or 1, times the logarithm
    of a probability. *)
Lemma label_log_prob_nonpos (depth : nat) labels logits sums :
  label_log_prob (one_hot depth <$> labels) (log_softmax <$> logits) = Some sums →
  ∀ s, s ∈ sums → s <= 0.
Proof.
  unfold label_log_prob, tf_mul2. intros H s Hs.
  apply bind_Some in H as (products & Hp & [= <-]).
  apply list_elem_of_fmap in Hs as (r & -> & Hr).
  destruct (broadcast_elem _ _ _ _ Hp r Hr) as (oh & lp & Hoh & Hlp & Hmul).
  apply list_elem_of_fmap in Hoh as (y & -> & _).
  apply list_elem_of_fmap in Hlp as (row & -> & _).
  apply reduce_sum_nonpos. intros x Hx.
  destruct (broadcast_elem _ _ _ _ Hmul x Hx) as (a & b & Ha & Hb & Hab).
  injection Hab as <-.
  apply one_hot_elem in Ha. apply log_softmax_nonpos in Hb.
  destruct Ha as [-> | ->]; lra.
Qed.

Lemma weighted_nonneg (ws xs zs : list R) :
  (∀ w, w ∈ ws → 0 <= w) → (∀ x, x ∈ xs → 0 <= x) →
  (tf_mul1 ws xs = Some zs ∨ tf_mul1 xs ws = Some zs) →
  ∀ z, z ∈ zs → 0 <= z.
Proof.
  intros Hw Hx H z Hz. destruct H as [H | H];
    destruct (broadcast_elem _ _ _ _ H z Hz) as (a & b & Ha & Hb & Hab);
    injection Hab as <-; apply Rmult_le_pos; auto.
Qed.

Lemma sketchy_losses_nonneg logits has_answer sample_weight losses :
  sketchy_losses logits has_answer sample_weight = Some losses →
  (∀ ws, sample_weight = Some ws → ∀ w, w ∈ ws → 0 <= w) →
  ∀ x, x ∈ losses → 0 <= x.
Proof.
  unfold sketchy_losses. cbv zeta. intros H Hw.
  apply bind_Some in H as (sums & Hsums & H).
  pose proof (label_log_prob_nonpos _ _ _ _ Hsums) as Hneg.
  assert (∀ x, x ∈ Ropp <$> sums → 0 <= x) as Hpos.
  { intros x (s & -> & Hs%Hneg)%list_elem_of_fmap. lra. }
  destruct sample_weight as [ws|]; [|by simplify_eq].
  eapply weighted_nonneg; [by apply (Hw ws) | exact Hpos | by left].
Qed.

Lemma intensive_losses_nonneg L logits label_ids sample_weight losses :
  intensive_losses L logits label_ids sample_weight = Some losses →
  (∀ ws, sample_weight = Some ws → ∀ w, w ∈ ws → 0 <= w) →
  ∀ x, x ∈ losses → 0 <= x.
Proof.
  unfold intensive_losses. cbv zeta. intros H Hw.
  apply bind_Some in H as (sl & _ & H). apply bind_Some in H as (el & _ & H).
  apply bind_Some in H as (slog & _ & H). apply bind_Some in H as (elog & _ & H).
  apply bind_Some in H as (ss & Hss & H). apply bind_Some in H as (es & Hes & H).
  apply bind_Some in H as (pel & Hpel & H).
  pose proof (label_log_prob_nonpos _ _ _ _ Hss) as Hsneg.
  pose proof (label_log_prob_nonpos _ _ _ _ Hes) as Heneg.
  assert (∀ x, x ∈ pel → 0 <= x) as Hpos.
  { intros x Hx.
    destruct (broadcast_elem _ _ _ _ Hpel x Hx) as (a & b & Ha & Hb & Hab).
    injection Hab as <-. unfold tf_scale in Ha, Hb.
    apply list_elem_of_fmap in Ha as (s & -> & Hs%Hsneg).
    apply list_elem_of_fmap in Hb as (e & -> & He%Heneg). lra. }
  destruct sample_weight as [ws|]; [|by simplify_eq].
  eapply weighted_nonneg; [by apply (Hw ws) | exact Hpos | by right].
Qed.

Lemma reduce_mean_nonneg (l : list R) (m : R) :
  reduce_mean l = Some m → (∀ x, x ∈ l → 0 <= x) → 0 <= m.
Proof.
  destruct l as [|a l]; [done|]. intros [= <-] H.
  apply Rmult_le_pos; [by apply (reduce_sum_nonneg (a :: l))|].
  left. apply Rinv_0_lt_compat, (lt_0_INR (S (length l))). lia.
Qed.

End LossFacts.

Module RetroReaderLossSpec.

Import Tensor TensorFacts RetroReader RetroReaderFacts.
Import RetroReaderLoss SoftmaxFacts LossFacts.
Local Open Scope R_scope.

(** X4. The sketchy loss of an example is the cross-entropy of its two
    logits against [has_answer]: [ln (exp l0 + exp l1) - l_label] for a
    label 0 or 1, which is never negative, and 0 for any other label,
    whose one-hot row is all zeros. A sample weight multiplies it. *)
Theorem sketchy_loss_is_cross_entropy logits has_answer sample_weight losses
    (i : nat) l0 l1 y :
  sketchy_losses logits has_answer sample_weight = Some losses →
  length has_answer = length logits →
  (∀ ws, sample_weight = Some ws → length ws = length logits) →
  logits !! i = Some [l0; l1] → has_answer !! i = Some y →
  ∃ ce loss,
    (y = 0%Z → ce = ln (exp l0 + exp l1) - l0) ∧
    (y = 1%Z → ce = ln (exp l0 + exp l1) - l1) ∧
    (y ≠ 0%Z → y ≠ 1%Z → ce = 0) ∧
    0 <= ce ∧
    losses !! i = Some loss ∧
    match sample_weight with
    | None => loss = ce
    | Some ws => ∃ w, ws !! i = Some w ∧ loss = w * ce
    end.
Proof.
  unfold sketchy_losses. cbv zeta. intros H Hlen Hws Hrow Hy.
  apply bind_Some in H as (sums & Hsums & H).
  pose proof (label_log_prob_nonpos _ _ _ _ Hsums) as Hneg.
  pose proof (label_log_prob_length _ _ _ Hsums) as Hlsums.
  rewrite !length_fmap in Hlsums. specialize (Hlsums Hlen).
  pose proof (label_log_prob_lookup 2 _ _ _ i y [l0; l1] Hsums Hlen Hy Hrow eq_refl)
    as Hsum.
  set (s := if bool_decide (0 ≤ y < Z.of_nat 2)%Z
            then default 0 (log_softmax [l0; l1] !! Z.to_nat y) else 0) in *.
  assert (s <= 0) as Hs by (eapply Hneg, list_elem_of_lookup_2, Hsum).
  exists (- s).
  assert (reduce_sum (exp <$> [l0; l1]) = exp l0 + exp l1) as Hz.
  { unfold reduce_sum. csimpl. lra. }
  assert ((y = 0%Z → - s = ln (exp l0 + exp l1) - l0) ∧
          (y = 1%Z → - s = ln (exp l0 + exp l1) - l1) ∧
          (y ≠ 0%Z → y ≠ 1%Z → - s = 0)) as (H0 & H1 & H2).
  { subst s. split_and!.
    - intros ->. rewrite bool_decide_true by lia.
      unfold log_softmax. cbv zeta. rewrite Hz. simpl. lra.
    - intros ->. rewrite bool_decide_true by lia.
      unfold log_softmax. cbv zeta. rewrite Hz. simpl. lra.
    - intros ? ?. rewrite bool_decide_false by lia. lra. }
  destruct sample_weight as [ws|].
  - specialize (Hws ws eq_refl).
    unfold tf_mul1 in H. rewrite broadcast_lift2_same in H
      by (rewrite length_fmap; congruence).
    simplify_eq.
    destruct (lookup_lt_is_Some_2 ws i) as [w Hw].
    { rewrite Hws. by eapply lookup_lt_Some. }
    exists (w * - s). split_and!; [done.. | lra | | by exists w].
    rewrite lookup_zip_with, Hw. simpl.
    by rewrite list_lookup_fmap, Hsum.
  - simplify_eq. exists (- s). split_and!; [done.. | lra | | done].
    by rewrite list_lookup_fmap, Hsum.
Qed.

Lemma sketchy_loss_is_cross_entropy_witness :
  ∃ losses, sketchy_losses [[0; 1]; [2; 0]] [1%Z; 5%Z] None = Some losses ∧
  ∃ ce loss,
    (1%Z = 0%Z → ce = ln (exp 0 + exp 1) - 0) ∧
    (1%Z = 1%Z → ce = ln (exp 0 + exp 1) - 1) ∧
    (1%Z ≠ 0%Z → 1%Z ≠ 1%Z → ce = 0) ∧
    0 <= ce ∧ losses !! 0%nat = Some loss ∧ loss = ce.
Proof.
  eexists. split; [reflexivity|].
  apply (sketchy_loss_is_cross_entropy [[0; 1]; [2; 0]] [1%Z; 5%Z] None _
           0%nat 0 1 1%Z); try reflexivity; done.
Defined.

(** X5. The intensive loss of an example is half the negative
    log-probability that [mrc_probs] gives to the labelled start position
    plus half the one it gives to the labelled end position, multiplied by
    the sample weight of the example when there are sample weights. A
    label outside [0, max_seq_length) contributes nothing: its one-hot row
    is all zeros. *)
Theorem intensive_loss_is_span_cross_entropy (L : nat) logits label_ids
    sample_weight losses (i : nat) ex s e lab ys ye :
  intensive_losses L logits label_ids sample_weight = Some losses →
  length label_ids = length logits →
  (∀ ws, sample_weight = Some ws → length ws = length logits) →
  logits !! i = Some ex → ex !! 0%nat = Some s → ex !! 1%nat = Some e →
  length s = L → length e = L →
  label_ids !! i = Some lab → lab !! 0%nat = Some ys → lab !! 1%nat = Some ye →
  ∃ ts te loss,
    losses !! i = Some loss ∧
    match sample_weight with
    | None => loss = 0.5 * ts + 0.5 * te
    | Some ws => ∃ w, ws !! i = Some w ∧ loss = (0.5 * ts + 0.5 * te) * w
    end ∧
    ((0 ≤ ys < Z.of_nat L)%Z →
       ∃ p, softmax s !! Z.to_nat ys = Some p ∧ ts = - ln p ∧ 0 <= ts) ∧
    (¬ (0 ≤ ys < Z.of_nat L)%Z → ts = 0) ∧
    ((0 ≤ ye < Z.of_nat L)%Z →
       ∃ p, softmax e !! Z.to_nat ye = Some p ∧ te = - ln p ∧ 0 <= te) ∧
    (¬ (0 ≤ ye < Z.of_nat L)%Z → te = 0).
Proof.
  unfold intensive_losses. cbv zeta.
  intros H Hlen Hws Hex Hs He Hls Hle Hlab Hys Hye.
  apply bind_Some in H as (sl & Hsl & H). apply bind_Some in H as (el & Hel & H).
  apply bind_Some in H as (slog & Hslog & H).
  apply bind_Some in H as (elog & Helog & H).
  apply bind_Some in H as (ss & Hss & H). apply bind_Some in H as (es & Hes & H).
  apply bind_Some in H as (pel & Hpel & H).
  apply index_col_lookup in Hsl as [Hlsl Hsl], Hel as [Hlel Hel].
  apply index_col_lookup in Hslog as [Hlslog Hslog], Helog as [Hlelog Helog].
  destruct (Hsl i lab Hlab) as (ys' & Hys' & ?).
  destruct (Hel i lab Hlab) as (ye' & Hye' & ?).
  destruct (Hslog i ex Hex) as (s' & Hs' & ?).
  destruct (Helog i ex Hex) as (e' & He' & ?).
  simplify_eq.
  pose proof (label_log_prob_nonpos _ _ _ _ Hss) as Hsneg.
  pose proof (label_log_prob_nonpos _ _ _ _ Hes) as Heneg.
  pose proof (label_log_prob_length _ _ _ Hss) as Hlss.
  pose proof (label_log_prob_length _ _ _ Hes) as Hles.
  rewrite !length_fmap in Hlss, Hles.
  assert (length sl = length slog) as Hl1 by congruence.
  assert (length el = length elog) as Hl2 by congruence.
  specialize (Hlss Hl1). specialize (Hles Hl2).
  pose proof (label_log_prob_lookup _ _ _ _ i ys s Hss Hl1 Hys' Hs' eq_refl) as Hts.
  pose proof (label_log_prob_lookup _ _ _ _ i ye e Hes Hl2 Hye' He' Hle) as Hte.
  set (a := if bool_decide (0 ≤ ys < Z.of_nat (length s))%Z
            then default 0 (log_softmax s !! Z.to_nat ys) else 0) in *.
  set (b := if bool_decide (0 ≤ ye < Z.of_nat (length s))%Z
            then default 0 (log_softmax e !! Z.to_nat ye) else 0) in *.
  assert (a <= 0) by (eapply Hsneg, list_elem_of_lookup_2, Hts).
  assert (b <= 0) by (eapply Heneg, list_elem_of_lookup_2, Hte).
  unfold tf_sub1 in Hpel. rewrite broadcast_lift2_same in Hpel
    by (unfold tf_scale; rewrite !length_fmap; congruence).
  injection Hpel as <-.
  assert (zip_with Rminus (tf_scale (-0.5) ss) (tf_scale 0.5 es) !! i
          = Some (0.5 * - a + 0.5 * - b)) as Hpel.
  { unfold tf_scale.
    rewrite lookup_zip_with, !list_lookup_fmap, Hts, Hte. simpl.
    f_equal. lra. }
  assert (∃ loss, losses !! i = Some loss ∧
            match sample_weight with
            | None => loss = 0.5 * - a + 0.5 * - b
            | Some ws => ∃ w, ws !! i = Some w ∧
                              loss = (0.5 * - a + 0.5 * - b) * w
            end) as (loss & Hloss & Hweight).
  { destruct sample_weight as [ws|].
    - specialize (Hws ws eq_refl).
      unfold tf_mul1 in H. rewrite broadcast_lift2_same in H
        by (unfold tf_scale; rewrite length_zip_with, !length_fmap; lia).
      injection H as <-.
      destruct (lookup_lt_is_Some_2 ws i) as [w Hw].
      { rewrite Hws. by eapply lookup_lt_Some. }
      exists ((0.5 * - a + 0.5 * - b) * w). split; [|by exists w].
      by rewrite lookup_zip_with, Hpel, Hw.
    - injection H as <-. by exists (0.5 * - a + 0.5 * - b). }
  exists (- a), (- b), loss. split_and!; [done | done | | | |].
  - intros Hin. subst a. rewrite bool_decide_true in * by done.
    destruct (lookup_lt_is_Some_2 (softmax s) (Z.to_nat ys)) as [p Hp].
    { rewrite length_softmax. lia. }
    destruct (lookup_lt_is_Some_2 (log_softmax s) (Z.to_nat ys)) as [lp Hlp].
    { rewrite length_log_softmax. lia. }
    exists p. rewrite Hlp in *. simpl in *.
    rewrite (log_softmax_ln_softmax s _ lp p Hlp Hp) in *.
    split_and!; [done | done | lra].
  - intros Hout. subst a. rewrite bool_decide_false by done. lra.
  - intros Hin. subst b. rewrite bool_decide_true in * by done.
    destruct (lookup_lt_is_Some_2 (softmax e) (Z.to_nat ye)) as [p Hp].
    { rewrite length_softmax. lia. }
    destruct (lookup_lt_is_Some_2 (log_softmax e) (Z.to_nat ye)) as [lp Hlp].
    { rewrite length_log_softmax. lia. }
    exists p. rewrite Hlp in *. simpl in *.
    rewrite (log_softmax_ln_softmax e _ lp p Hlp Hp) in *.
    split_and!; [done | done | lra].
  - intros Hout. subst b. rewrite bool_decide_false by done. lra.
Qed.

(** One example with the labels 1 and 7 for two positions and the sample
    weight 3. *)
Lemma intensive_loss_is_span_cross_entropy_witness :
  ∃ losses,
    intensive_losses 2 [[[0; 1]; [1; 0]]] [[1%Z; 7%Z]] (Some [3])
    = Some losses ∧
  ∃ ts te loss,
    losses !! 0%nat = Some loss ∧
    (∃ w, [3] !! 0%nat = Some w ∧ loss = (0.5 * ts + 0.5 * te) * w) ∧
    ((0 ≤ 1 < Z.of_nat 2)%Z →
       ∃ p, softmax [0; 1] !! Z.to_nat 1 = Some p ∧ ts = - ln p ∧ 0 <= ts) ∧
    (¬ (0 ≤ 1 < Z.of_nat 2)%Z → ts = 0) ∧
    ((0 ≤ 7 < Z.of_nat 2)%Z →
       ∃ p, softmax [1; 0] !! Z.to_nat 7 = Some p ∧ te = - ln p ∧ 0 <= te) ∧
    (¬ (0 ≤ 7 < Z.of_nat 2)%Z → te = 0).
Proof.
  eexists. split; [reflexivity|].
  apply (intensive_loss_is_span_cross_entropy 2 [[[0; 1]; [1; 0]]]
           [[1%Z; 7%Z]] (Some [3]) _ 0%nat [[0; 1]; [1; 0]] [0; 1] [1; 0]
           [1%Z; 7%Z]); try reflexivity.
  by intros ws [= <-].
Defined.

(** X6. With no sample weights, or sample weights that are not negative,
    every per-example loss of both modules and [total_loss] are not
    negative, whatever the logits and the labels. *)
Theorem total_loss_is_nonnegative (L : nat) sketchy_logits intensive_logits
    label_ids has_answer sample_weight t :
  total_loss L sketchy_logits intensive_logits label_ids has_answer sample_weight
    = Some t →
  (∀ ws, sample_weight = Some ws → ∀ w, w ∈ ws → 0 <= w) →
  0 <= t ∧
  (∀ ls, sketchy_losses sketchy_logits has_answer sample_weight = Some ls →
         ∀ x, x ∈ ls → 0 <= x) ∧
  (∀ ls, intensive_losses L intensive_logits label_ids sample_weight = Some ls →
         ∀ x, x ∈ ls → 0 <= x).
Proof.
  unfold total_loss. intros H Hw.
  apply bind_Some in H as (sk & Hsk & H). apply bind_Some in H as (skm & Hskm & H).
  apply bind_Some in H as (it & Hit & H). apply bind_Some in H as (itm & Hitm & H).
  simplify_eq.
  pose proof (sketchy_losses_nonneg _ _ _ _ Hsk Hw) as Hskpos.
  pose proof (intensive_losses_nonneg _ _ _ _ _ Hit Hw) as Hitpos.
  split_and!.
  - pose proof (reduce_mean_nonneg _ _ Hskm Hskpos).
    pose proof (reduce_mean_nonneg _ _ Hitm Hitpos). lra.
  - intros ls ?. by simplify_eq.
  - intros ls ?. by simplify_eq.
Qed.

Lemma total_loss_is_nonnegative_witness :
  ∃ t, total_loss 2 [[0; 1]] [[[0; 1]; [1; 0]]] [[1%Z; 0%Z]] [1%Z] (Some [2])
       = Some t ∧
  0 <= t ∧
  (∀ ls, sketchy_losses [[0; 1]] [1%Z] (Some [2]) = Some ls →
         ∀ x, x ∈ ls → 0 <= x) ∧
  (∀ ls, intensive_losses 2 [[[0; 1]; [1; 0]]] [[1%Z; 0%Z]] (Some [2]) = Some ls →
         ∀ x, x ∈ ls → 0 <= x).
Proof.
  eexists. split; [reflexivity|].
  apply (total_loss_is_nonnegative 2 [[0; 1]] [[[0; 1]; [1; 0]]] [[1%Z; 0%Z]]
           [1%Z] (Some [2])); [reflexivity|].
  intros ws [= <-] w ->%list_elem_of_singleton. lra.
Defined.

End RetroReaderLossSpec.

(** * Further properties of the attention layer *)

Module AttentionFacts.

Import Tensor TensorFacts RetroReader AttentionMaskFacts SoftmaxFacts.
Local Open Scope R_scope.

Lemma zip_with_Rplus_replicate (r : list R) (L : nat) (c : R) :
  length r = L → zip_with Rplus r (replicate L c) = (λ x, x + c) <$> r.
Proof.
  intros <-. induction r as [|x r IH]; csimpl; [done|]. by rewrite IH.
Qed.

(** The attention probabilities under the mask built from [to_mask], row by
    row: the softmax of the scores plus the penalties of the example. *)
Lemma masked_attention_row (to_mask : list (list Z)) (B N L : nat)
    (scores : list (list (list (list R)))) :
  length to_mask = B → Forall (λ r, length r = L) to_mask →
  has_shape4 B N L L scores →
  ∃ mask probs,
    create_attention_mask_from_input_mask to_mask B L = Some mask ∧
    attention_probs scores (Some mask) = Some probs ∧
    (∀ i n f r row, ix3 scores i n f = Some r → to_mask !! i = Some row →
      ix3 probs i n f
      = Some (softmax (zip_with Rplus r ((λ m, (1 - IZR m) * -10000) <$> row)))) ∧
    (∀ i n f, ix3 scores i n f = None → ix3 probs i n f = None).
Proof.
  intros HB HL Hshape.
  pose proof (attention_mask_closed_form to_mask B L HB HL) as Hmask.
  pose proof (add_attention_mask_closed_form to_mask B N L scores HB HL Hshape)
    as Hadd.
  do 2 eexists. split_and!; [exact Hmask | | |].
  - unfold attention_probs. rewrite Hadd. reflexivity.
  - intros i n f r row Hr Hrow. unfold ix3, ix2, map3 in *.
    rewrite list_lookup_fmap, lookup_zip_with, Hrow.
    destruct (scores !! i) as [heads|]; simpl in *; [|done].
    rewrite !list_lookup_fmap.
    destruct (heads !! n) as [head|]; simpl in *; [|done].
    rewrite !list_lookup_fmap.
    destruct (head !! f) as [r'|]; simpl in *; [|done].
    by simplify_eq.
  - intros i n f Hr. unfold ix3, ix2, map3 in *.
    rewrite list_lookup_fmap, lookup_zip_with.
    destruct (scores !! i) as [heads|]; simpl in *; [|done].
    destruct (to_mask !! i) as [row|]; simpl; [|done].
    rewrite !list_lookup_fmap.
    destruct (heads !! n) as [head|]; simpl in *; [|done].
    rewrite !list_lookup_fmap.
    by destruct (head !! f) as [r'|]; simpl in *.
Qed.

Lemma unmasked_attention_row (scores : list (list (list (list R)))) i n f r :
  ix3 scores i n f = Some r →
  ix3 (map3 softmax scores) i n f = Some (softmax r).
Proof.
  unfold ix3, ix2, map3. intros Hr. rewrite list_lookup_fmap.
  destruct (scores !! i) as [heads|]; simpl in *; [|done].
  rewrite list_lookup_fmap.
  destruct (heads !! n) as [head|]; simpl in *; [|done].
  rewrite list_lookup_fmap.
  destruct (head !! f) as [r'|]; simpl in *; [|done].
  by simplify_eq.
Qed.

Lemma has_shape4_row {A} (d1 d2 d3 d4 : nat) (t : list (list (list (list A))))
    i n f r :
  has_shape4 d1 d2 d3 d4 t → ix3 t i n f = Some r → length r = d4.
Proof.
  intros [_ Ht]. unfold ix3, ix2. intros Hr.
  destruct (t !! i) as [c|] eqn:Hc; simpl in *; [|done].
  destruct (c !! n) as [m|] eqn:Hm; simpl in *; [|done].
  apply (Forall_lookup_1 _ _ _ _ Ht) in Hc as [_ Hc].
  apply (Forall_lookup_1 _ _ _ _ Hc) in Hm as [_ Hm].
  by apply (Forall_lookup_1 _ _ _ _ Hm) in Hr.
Qed.

End AttentionFacts.

Module AttentionSpec.

Import Tensor TensorFacts RetroReader AttentionMaskFacts SoftmaxFacts.
Import AttentionFacts.
Local Open Scope R_scope.

(** X7. An example whose query mask has the same value at every position,
    all ones but also all zeros, gets exactly the attention probabilities
    it gets with no mask at all: the penalty is the same for every key and
    the softmax cancels it. A query that is entirely masked out is
    therefore attended to in full. *)
Theorem uniform_mask_row_has_no_effect (to_mask : list (list Z)) (B N L : nat)
    (scores : list (list (list (list R)))) (i : nat) (m : Z) :
  length to_mask = B → Forall (λ r, length r = L) to_mask →
  has_shape4 B N L L scores →
  to_mask !! i = Some (replicate L m) →
  ∃ mask masked unmasked,
    create_attention_mask_from_input_mask to_mask B L = Some mask ∧
    attention_probs scores (Some mask) = Some masked ∧
    attention_probs scores None = Some unmasked ∧
    ∀ n f, ix3 masked i n f = ix3 unmasked i n f.
Proof.
  intros HB HL Hshape Hrow.
  destruct (masked_attention_row to_mask B N L scores HB HL Hshape)
    as (mask & masked & Hmask & Hmasked & Hrows & Hnone).
  exists mask, masked, (map3 softmax scores).
  split_and!; [done | done | done |].
  intros n f.
  destruct (ix3 scores i n f) as [r|] eqn:Hr.
  - rewrite (Hrows i n f r _ Hr Hrow), (unmasked_attention_row _ _ _ _ _ Hr).
    rewrite fmap_replicate, zip_with_Rplus_replicate
      by by eapply has_shape4_row.
    by rewrite softmax_shift.
  - rewrite (Hnone i n f Hr). unfold ix3, ix2, map3 in *.
    rewrite list_lookup_fmap.
    destruct (scores !! i) as [heads|]; simpl in *; [|done].
    rewrite list_lookup_fmap.
    destruct (heads !! n) as [head|]; simpl in *; [|done].
    rewrite list_lookup_fmap.
    by destruct (head !! f) as [r'|]; simpl in *.
Qed.

Lemma uniform_mask_row_has_no_effect_witness :
  ∃ mask masked unmasked,
    create_attention_mask_from_input_mask [[0; 0]]%Z 1 2 = Some mask ∧
    attention_probs [replicate 12 [[3; 4]; [5; 6]]] (Some mask) = Some masked ∧
    attention_probs [replicate 12 [[3; 4]; [5; 6]]] None = Some unmasked ∧
    ∀ n f, ix3 masked 0 n f = ix3 unmasked 0 n f.
Proof.
  apply (uniform_mask_row_has_no_effect [[0; 0]]%Z 1 12 2
           [replicate 12 [[3; 4]; [5; 6]]] 0%nat 0%Z).
  - reflexivity.
  - repeat constructor.
  - split; [reflexivity|]. simpl. repeat constructor.
  - reflexivity.
Defined.

(** X8. The mask makes the attention to a masked-out key negligible, as
    long as its score is not ahead of the other scores by thousands:
    whenever some key [u] of the same example is not masked, the attention
    probability of a masked-out key [t] is at most [exp (s_t - s_u - 10000)]
    times the probability of [u], hence at most [exp (s_t - s_u - 10000)],
    for the raw scores [s_t] and [s_u] of the two keys. Without the mask the
    first bound is [exp (s_t - s_u)] times the probability of [u]. *)
Theorem masked_key_probability_bound (to_mask : list (list Z)) (B N L : nat)
    (scores : list (list (list (list R)))) (i n f t u : nat) (s_t s_u : R) :
  length to_mask = B → Forall (λ r, length r = L) to_mask →
  has_shape4 B N L L scores →
  ix2 to_mask i t = Some 0%Z → ix2 to_mask i u = Some 1%Z →
  ix4 scores i n f t = Some s_t → ix4 scores i n f u = Some s_u →
  ∃ mask masked unmasked p_t p_u q_t q_u,
    create_attention_mask_from_input_mask to_mask B L = Some mask ∧
    attention_probs scores (Some mask) = Some masked ∧
    attention_probs scores None = Some unmasked ∧
    ix4 masked i n f t = Some p_t ∧ ix4 masked i n f u = Some p_u ∧
    ix4 unmasked i n f t = Some q_t ∧ ix4 unmasked i n f u = Some q_u ∧
    0 <= p_t ∧ p_t <= exp (s_t - s_u - 10000) * p_u ∧
    p_t <= exp (s_t - s_u - 10000) ∧
    q_t <= exp (s_t - s_u) * q_u.
Proof.
  intros HB HL Hshape Ht Hu Hst Hsu.
  destruct (masked_attention_row to_mask B N L scores HB HL Hshape)
    as (mask & masked & Hmask & Hmasked & Hrows & Hnone).
  unfold ix2 in Ht, Hu.
  destruct (to_mask !! i) as [row|] eqn:Hrow; simpl in *; [|done].
  assert (∃ r, ix3 scores i n f = Some r ∧ r !! t = Some s_t ∧ r !! u = Some s_u)
    as (r & Hr & Hrt & Hru).
  { unfold ix4, ix3, ix2 in *.
    destruct (scores !! i) as [hs|]; simpl in *; [|done].
    destruct (hs !! n) as [hd|]; simpl in *; [|done].
    destruct (hd !! f) as [r|]; simpl in *; [|done]. by exists r. }
  pose proof (Hrows i n f r row Hr Hrow) as Hm.
  pose proof (unmasked_attention_row _ _ _ _ _ Hr) as Hun.
  set (r' := zip_with Rplus r ((λ m, (1 - IZR m) * -10000) <$> row)) in *.
  assert (r' !! t = Some (s_t + (1 - 0) * -10000)) as Hrt'.
  { subst r'. by rewrite lookup_zip_with, Hrt, list_lookup_fmap, Ht. }
  assert (r' !! u = Some (s_u + (1 - 1) * -10000)) as Hru'.
  { subst r'. by rewrite lookup_zip_with, Hru, list_lookup_fmap, Hu. }
  assert (∀ (T : list (list (list (list R)))) (x : list R) (k : nat),
            ix3 T i n f = Some x → ix4 T i n f k = x !! k) as Hix.
  { intros T x k. unfold ix4, ix3, ix2.
    destruct (T !! i) as [hs|]; simpl; [|done].
    destruct (hs !! n) as [hd|]; simpl; [|done]. by intros ->. }
  assert (0 < reduce_sum (exp <$> r)) as Hz.
  { apply reduce_sum_exp_pos. by intros ->. }
  assert (0 < reduce_sum (exp <$> r')) as Hz'.
  { apply reduce_sum_exp_pos. intros Heq. by rewrite Heq in Hrt'. }
  assert (exp (s_u + (1 - 1) * -10000) <= reduce_sum (exp <$> r')) as Hle.
  { apply (entry_le_sum _ u).
    - intros x (y & -> & _)%list_elem_of_fmap. left. apply exp_pos.
    - by rewrite list_lookup_fmap, Hru'. }
  exists mask, masked, (map3 softmax scores).
  exists (exp (s_t + (1 - 0) * -10000) / reduce_sum (exp <$> r')),
         (exp (s_u + (1 - 1) * -10000) / reduce_sum (exp <$> r')),
         (exp s_t / reduce_sum (exp <$> r)), (exp s_u / reduce_sum (exp <$> r)).
  replace (s_u + (1 - 1) * -10000) with s_u in * by lra.
  replace (s_t + (1 - 0) * -10000) with ((s_t - s_u - 10000) + s_u) in * by lra.
  pose proof (exp_pos (s_t - s_u - 10000)). pose proof (exp_pos s_u).
  pose proof (Rinv_0_lt_compat _ Hz). pose proof (Rinv_0_lt_compat _ Hz').
  split_and!; [done | done | done | .. ].
  - by rewrite (Hix _ _ _ Hm), softmax_lookup, Hrt'.
  - by rewrite (Hix _ _ _ Hm), softmax_lookup, Hru'.
  - by rewrite (Hix _ _ _ Hun), softmax_lookup, Hrt.
  - by rewrite (Hix _ _ _ Hun), softmax_lookup, Hru.
  - left. apply Rdiv_lt_0_compat; [apply exp_pos | done].
  - right. rewrite exp_plus. unfold Rdiv. ring.
  - rewrite exp_plus.
    apply (Rmult_le_reg_r (reduce_sum (exp <$> r'))); [done|].
    unfold Rdiv. rewrite Rmult_assoc, Rinv_l, Rmult_1_r by lra.
    apply Rmult_le_compat_l; lra.
  - right. replace s_t with ((s_t - s_u) + s_u) at 1 by lra.
    rewrite exp_plus. unfold Rdiv. ring.
Qed.

Lemma masked_key_probability_bound_witness :
  ∃ mask masked unmasked p_t p_u q_t q_u,
    create_attention_mask_from_input_mask [[1; 0]]%Z 1 2 = Some mask ∧
    attention_probs [replicate 12 [[3; 4]; [5; 6]]] (Some mask) = Some masked ∧
    attention_probs [replicate 12 [[3; 4]; [5; 6]]] None = Some unmasked ∧
    ix4 masked 0 0 0 1 = Some p_t ∧ ix4 masked 0 0 0 0 = Some p_u ∧
    ix4 unmasked 0 0 0 1 = Some q_t ∧ ix4 unmasked 0 0 0 0 = Some q_u ∧
    0 <= p_t ∧ p_t <= exp (4 - 3 - 10000) * p_u ∧
    p_t <= exp (4 - 3 - 10000) ∧
    q_t <= exp (4 - 3) * q_u.
Proof.
  apply (masked_key_probability_bound [[1; 0]]%Z 1 12 2
           [replicate 12 [[3; 4]; [5; 6]]] 0%nat 0%nat 0%nat 1%nat 0%nat 4 3).
  - reflexivity.
  - repeat constructor.
  - split; [reflexivity|]. simpl. repeat constructor.
  - reflexivity.
  - reflexivity.
  - reflexivity.
  - reflexivity.
Defined.

End AttentionSpec.

Module AttentionLayerShapes.

Import RetroReader AttentionShapeFacts.
Local Open Scope Z_scope.

Lemma filter_Forall_id {A} (P : A → Prop) `{∀ x, Decision (P x)} (l : list A) :
  Forall P l → filter P l = l.
Proof.
  induction 1 as [|x l Hx _ IH]; [done|].
  by rewrite filter_cons_True, IH.
Qed.

Lemma filter_Forall_nil {A} (P : A → Prop) `{∀ x, Decision (P x)} (l : list A) :
  Forall (λ x, ¬ P x) l → filter P l = [].
Proof.
  induction 1 as [|x l Hx _ IH]; [done|].
  by rewrite filter_cons_False.
Qed.

Lemma numel_pos (ds : shape) : Forall (λ d, 0 < d) ds → 0 < numel ds.
Proof. induction 1 as [|d ds Hd _ IH]; simpl; lia. Qed.

(** A reshape that infers its first dimension. *)
Lemma reshape_shape_infer (s ds : shape) :
  Forall (λ d, 0 < d) ds →
  reshape_shape s ((-1) :: ds)
  = if bool_decide (numel s mod numel ds = 0)
    then Some (numel s / numel ds :: ds) else None.
Proof.
  intros Hds. unfold reshape_shape.
  rewrite bool_decide_eq_true_2 by by left.
  unfold shape in *.
  rewrite filter_cons_True by done.
  rewrite filter_cons_False by (intros H; by apply H).
  rewrite (filter_Forall_id (λ d, d ≠ -1) ds) by (eapply Forall_impl; [done|]; simpl; intros; lia).
  rewrite (filter_Forall_nil (λ d, d = -1) ds) by (eapply Forall_impl; [done|]; simpl; intros; lia).
  pose proof (numel_pos ds Hds) as Hpos.
  case_bool_decide as H1; case_bool_decide as H2;
    [| destruct H2; tauto | destruct H1; split_and!; [done | lia | done] | done].
  f_equal. csimpl. f_equal. generalize (numel s `div` numel ds). intros q.
  clear -Hds. induction Hds as [|d ds Hd Hds IH]; [done|]. csimpl.
  rewrite bool_decide_eq_false_2 by lia. by rewrite IH.
Qed.

Lemma prediction_logits_shape (B L K hidden : Z) :
  0 < L → 0 < hidden →
  prediction_logits [B; L; K] L hidden
  = if bool_decide ((B * (L * K)) mod hidden = 0)
    then if bool_decide (((B * (L * K)) / hidden * 2) mod (L * 2) = 0)
         then Some [(B * (L * K)) / hidden * 2 / (L * 2); 2; L] else None
    else None.
Proof.
  intros HL Hh. unfold prediction_logits.
  rewrite reshape_shape_infer by (repeat constructor; lia).
  replace (numel [B; L; K]) with (B * (L * K)) by (simpl; lia).
  replace (numel [hidden]) with hidden by (simpl; lia).
  case_bool_decide; [|done]. cbn.
  rewrite bool_decide_eq_true_2 by done. cbn.
  rewrite reshape_shape_infer by (repeat constructor; lia).
  replace (numel [B * (L * K) / hidden; 2]) with (B * (L * K) / hidden * 2)
    by (simpl; lia).
  replace (numel [L; 2]) with (L * 2) by (simpl; lia).
  by case_bool_decide.
Qed.

End AttentionLayerShapes.

Module AttentionLayerSpec.

Import RetroReader AttentionShapeFacts AttentionLayerShapes.
Local Open Scope Z_scope.

(** X9. The shape comments of [attention_layer] hold: for a from-tensor
    [B, F, W], a to-tensor [B, T, W'], [N] heads of size [H >= 1] and no
    mask or a mask [B, F, T], the layer returns attention scores of shape
    [B, N, F, T] and a context of shape [B, F, N*H], or [B*F, N*H] with
    [do_return_2d_tensor]; the widths [W] and [W'] play no part. *)
Theorem attention_layer_shapes (B F T N H W W' : Z) (attention_mask : option shape)
    (do_return_2d_tensor : bool) :
  0 ≤ B → 0 ≤ F → 0 ≤ T → 0 ≤ N → 0 < H →
  attention_mask = None ∨ attention_mask = Some [B; F; T] →
  attention_layer flatten_to_matrix [B; F; W] [B; T; W'] attention_mask
    N H do_return_2d_tensor B F T
  = Some (if do_return_2d_tensor then [B * F; N * H] else [B; F; N * H],
          [B; N; F; T]).
Proof.
  intros HB HF HT HN HH Hmask.
  assert (broadcast_shape [B; N; F; T] [B; 1; F; T] = Some [B; N; F; T]) as Hbc.
  { unfold broadcast_shape. cbn.
    rewrite (bool_decide_eq_true_2 (B = B)), (bool_decide_eq_true_2 (F = F)),
      (bool_decide_eq_true_2 (T = T)) by done.
    destruct (decide (N = 1)) as [->|HN1]; [done|].
    rewrite (bool_decide_eq_false_2 (N = 1)) by done. done. }
  assert (∀ target, Forall (λ d, 0 ≤ d) target → numel target = numel [B; F; N; H] →
            reshape_shape [B; F; N; H] target = Some target) as Hctx.
  { intros target ? ?. by apply reshape_shape_plain. }
  unfold attention_layer, transpose_for_scores. cbn.
  rewrite (reshape_shape_plain _ [B; F; N; H]);
    [|repeat constructor; lia | cbn; lia].
  cbn.
  rewrite (reshape_shape_plain _ [B; T; N; H]);
    [|repeat constructor; lia | cbn; lia].
  cbn. rewrite bool_decide_eq_true_2 by done. cbn.
  destruct Hmask as [-> | ->]; cbn; [|rewrite Hbc; cbn];
    rewrite bool_decide_eq_true_2 by done; cbn;
    (destruct do_return_2d_tensor;
     (rewrite Hctx; [done | repeat constructor; lia | cbn; lia])).
Qed.

Lemma attention_layer_shapes_witness :
  attention_layer flatten_to_matrix [2; 5; 24] [2; 7; 36] (Some [2; 5; 7])
    3 8 true 2 5 7
  = Some ([2 * 5; 3 * 8], [2; 3; 5; 7]).
Proof.
  apply (attention_layer_shapes 2 5 7 3 8 24 36 (Some [2; 5; 7]) true);
    [lia | lia | lia | lia | lia | by right].
Defined.

(** X10. The start and end logits of the prediction layer have shape
    [batch_size, 2, max_seq_length] after the matching-attention branch for
    every hidden size, and after the cross-attention branch exactly when 12
    divides the hidden size. *)
Theorem span_logits_shape (B L hidden : Z) :
  0 < B → 0 < L → 12 ≤ hidden →
  (matching_attention B L hidden ≫= λ H_prime,
     prediction_logits H_prime L hidden) = Some [B; 2; L]
  ∧ ((cross_attention flatten_to_matrix B L hidden ≫= λ H_prime,
        prediction_logits H_prime L hidden) = Some [B; 2; L]
     ↔ hidden mod 12 = 0).
Proof.
  intros HB HL Hh.
  assert (∀ K, 0 ≤ K →
            prediction_logits [B; L; K] L hidden = Some [B; 2; L] ↔ K = hidden)
    as Hpred.
  { intros K HK. rewrite prediction_logits_shape by lia. split.
    - case_bool_decide as H1; [|done]. case_bool_decide as H2; [|done].
      intros [= Heq].
      apply Z.div_exact in H1; [|lia]. apply Z.div_exact in H2; [|lia].
      rewrite Heq in H2. revert H1 H2.
      generalize ((B * (L * K)) `div` hidden). intros n H1 H2.
      assert (n = L * B) as -> by lia.
      apply (Z.mul_reg_l _ _ (B * L)); [lia|].
      rewrite <- Z.mul_assoc, H1. ring.
    - intros ->.
      assert (B * (L * hidden) / hidden = B * L) as Hq.
      { rewrite Z.mul_assoc. apply Z.div_mul. lia. }
      assert ((B * (L * hidden)) mod hidden = 0) as Hm.
      { rewrite Z.mul_assoc. apply Z.mod_mul. lia. }
      rewrite bool_decide_eq_true_2 by done. rewrite Hq.
      assert (B * L * 2 = B * (L * 2)) as -> by lia.
      rewrite bool_decide_eq_true_2 by (apply Z.mod_mul; lia).
      rewrite Z.div_mul by lia. done. }
  split.
  - rewrite matching_attention_shape. simpl. apply Hpred; [lia | done].
  - rewrite cross_attention_shape by lia. simpl.
    assert (0 ≤ hidden / 12) by (apply Z.div_pos; lia).
    rewrite Hpred by lia.
    pose proof (Z.div_mod hidden 12). lia.
Qed.

Lemma span_logits_shape_witness :
  (matching_attention 2 128 1024 ≫= λ H_prime,
     prediction_logits H_prime 128 1024) = Some [2; 2; 128]
  ∧ ((cross_attention flatten_to_matrix 2 128 1024 ≫= λ H_prime,
        prediction_logits H_prime 128 1024) = Some [2; 2; 128]
     ↔ 1024 mod 12 = 0).
Proof. apply (span_logits_shape 2 128 1024); lia. Defined.

End AttentionLayerSpec.

(** * Further properties of the ALBERT conversion *)

Module ALBERTLayoutFacts.

Import ALBERT ALBERTFacts.
Local Open Scope Z_scope.

Lemma join_segments_later (segments : list (list string)) (k : nat)
    (tokens : list string) (mask sids : list Z) :
  (1 ≤ k)%nat →
  foldl join_step (tokens, mask, sids) (zip (seq k (length segments)) segments)
  = (tokens ++ concat ((λ segment, segment ++ ["[SEP]"%string]) <$> segments),
     mask ++ replicate (length (concat segments) + length segments) 1,
     sids ++ replicate (length (concat segments) + length segments) 1).
Proof.
  revert k tokens mask sids.
  induction segments as [|segment segments IH]; intros k tokens mask sids Hk.
  - simpl. by rewrite !app_nil_r.
  - simpl. rewrite IH by lia. rewrite Nat.min_r by lia.
    rewrite <- !(assoc_L (++)). rewrite <- !replicate_add.
    rewrite length_app.
    replace (length segment + length (concat segments) + S (length segments))%nat
      with (length segment + 1 + (length (concat segments) + length segments))%nat
      by lia.
    done.
Qed.

(** The layout of one example before masking and padding. *)
Lemma join_segments_closed (segments : list (list string)) :
  join_segments segments
  = ("[CLS]"%string
       :: concat ((λ segment, segment ++ ["[SEP]"%string]) <$> segments),
     replicate (1 + length (concat segments) + length segments) 1,
     0 :: match segments with
          | [] => []
          | first :: rest =>
              replicate (length first + 1) 0
              ++ replicate (length (concat rest) + length rest) 1
          end).
Proof.
  unfold join_segments, enumerate. destruct segments as [|first rest].
  - done.
  - simpl. rewrite join_segments_later by lia. simpl.
    rewrite <- !(assoc_L (++)). rewrite <- replicate_add.
    rewrite length_app.
    replace (length first + length (concat rest) + S (length rest))%nat
      with (length first + 1 + (length (concat rest) + length rest))%nat
      by lia.
    done.
Qed.

Section Rows.

Context {sample label Rng : Type}.
Variable str : sample → string.
Variable E : collaborators (sample := sample) (label := label) (Rng := Rng).
Variable self : ALBERTLM.

(** One inference example, step by step. *)
Lemma convert_example_inference_row (idx : nat) segments (s : state Rng) r s' :
  convert_example E self false idx segments s = (Ok r, s') →
  ∃ segments' tokens mask sids ids,
    truncate_segments E segments
      (max_seq_length self - Z.of_nat (length segments) - 1)
      (truncate_method self) = Ok segments' ∧
    join_segments segments' = (tokens, mask, sids) ∧
    convert_tokens_to_ids E tokens = Ok ids ∧
    let n_pad := Z.to_nat (max_seq_length self - Z.of_nat (length ids)) in
    r = {| input_ids := ids ++ replicate n_pad 0;
           input_mask := mask ++ replicate n_pad 0;
           segment_ids := sids ++ replicate n_pad 0;
           masked_lm_positions :=
             mask_token_positions tokens
             ++ replicate (Z.to_nat (mask_width self
                  - Z.of_nat (length (mask_token_positions tokens)))) 0;
           masked_lm_ids := [];
           masked_lm_weights := [] |}.
Proof.
  unfold convert_example.
  intros (segments' & s1 & Hseg & H)%bind_Ok_inv.
  unfold invoke in Hseg. injection Hseg as Hseg _.
  destruct (join_segments segments') as [[tokens mask] sids] eqn:Hjoin.
  apply bind_Ok_inv in H as ([[[tokens' positions] ids] weights] & s2 & Hret & H).
  unfold mret, M_ret in Hret. simplify_eq.
  apply bind_Ok_inv in H as (iids & s5 & Hiids & Hret).
  unfold mret, M_ret in Hret. simplify_eq.
  unfold invoke in Hiids. injection Hiids as Hiids _.
  exists segments', tokens', mask, sids, iids. done.
Qed.

(** A position of a [MASK] token is never 0: the first token is [CLS]. *)
Lemma mask_token_positions_range (segments : list (list string)) tokens mask sids p :
  join_segments segments = (tokens, mask, sids) →
  p ∈ mask_token_positions tokens →
  1 ≤ p < Z.of_nat (length tokens).
Proof.
  rewrite join_segments_closed. intros [= <- _ _].
  intros (i & -> & Hi)%(proj1 (mask_token_positions_spec _)).
  pose proof (lookup_lt_Some _ _ _ Hi). destruct i as [|i]; [done|]. lia.
Qed.

Lemma for_each_length {A B} (body : A → M Rng B) l (s : state Rng) bs s' :
  for_each l body s = (Ok bs, s') → length bs = length l.
Proof.
  intros H%for_each_Ok_inv. symmetry. by eapply Forall2_length.
Qed.

End Rows.

End ALBERTLayoutFacts.

Module ALBERTLayoutSpec.

Import ALBERT ALBERTFacts ALBERTLayoutFacts.
Local Open Scope Z_scope.

(** X11. The token sequence of an example is [CLS], then every segment
    followed by [SEP]; the input mask is 1 on all of it; the segment id is
    0 on [CLS] and on the first segment with its [SEP], and 1 on every
    later segment, the third and any further one included. *)
Theorem join_segments_layout (segments : list (list string)) :
  join_segments segments
  = ("[CLS]"%string
       :: concat ((λ segment, segment ++ ["[SEP]"%string]) <$> segments),
     replicate (1 + length (concat segments) + length segments) 1,
     0 :: match segments with
          | [] => []
          | first :: rest =>
              replicate (length first + 1) 0
              ++ replicate (length (concat rest) + length rest) 1
          end).
Proof. apply join_segments_closed. Qed.

Section Rows.

Context {sample label Rng : Type}.
Variable str : sample → string.
Variable E : collaborators (sample := sample) (label := label) (Rng := Rng).
Variable self : ALBERTLM.

(** X12. In inference mode, when the truncation reaches the length it is
    given and the tokenizer maps token by token, an example is laid out on
    its [n] tokens, which are [CLS], the tokens of the truncated segments
    and one [SEP] for each segment: [input_ids] holds the ids of these
    tokens, [input_mask] a 1 for each, [segment_ids] their segment ids,
    each followed by zeros up to the length [max_seq_length];
    [masked_lm_positions] holds the positions of the [MASK] tokens,
    followed by zeros, and these positions are exactly the indices [i] of
    the [MASK] tokens, with [1 <= i < n], so that an entry 0 can only be
    padding. *)
Theorem inference_example_layout (idx : nat) segments (s : state Rng) r s' :
  truncation_contract E → tokenizer_contract E →
  convert_example E self false idx segments s = (Ok r, s') →
  ∃ segments' _input_tokens _input_mask _segment_ids real_input_ids,
    truncate_segments E segments
      (max_seq_length self - Z.of_nat (length segments) - 1)
      (truncate_method self) = Ok segments' ∧
    join_segments segments' = (_input_tokens, _input_mask, _segment_ids) ∧
    convert_tokens_to_ids E _input_tokens = Ok real_input_ids ∧
    length _input_tokens
    = (1 + length (concat segments') + length segments')%nat ∧
    Z.of_nat (length _input_tokens) ≤ max_seq_length self ∧
    length real_input_ids = length _input_tokens ∧
    length _segment_ids = length _input_tokens ∧
    input_ids r
      = real_input_ids
        ++ replicate (Z.to_nat (max_seq_length self) - length _input_tokens) 0 ∧
    input_mask r
      = replicate (length _input_tokens) 1
        ++ replicate (Z.to_nat (max_seq_length self) - length _input_tokens) 0 ∧
    segment_ids r
      = _segment_ids
        ++ replicate (Z.to_nat (max_seq_length self) - length _input_tokens) 0 ∧
    Z.of_nat (length (input_ids r)) = max_seq_length self ∧
    Z.of_nat (length (input_mask r)) = max_seq_length self ∧
    Z.of_nat (length (segment_ids r)) = max_seq_length self ∧
    masked_lm_positions r
      = mask_token_positions _input_tokens
        ++ replicate (Z.to_nat (mask_width self
             - Z.of_nat (length (mask_token_positions _input_tokens)))) 0 ∧
    (∀ p, p ∈ mask_token_positions _input_tokens
          ↔ ∃ i : nat, p = Z.of_nat i ∧ (1 ≤ i < length _input_tokens)%nat ∧
                       _input_tokens !! i = Some "[MASK]"%string).
Proof.
  intros Htrunc Htok
    (segments' & tokens & mask & sids & ids & Hseg & Hjoin & Hids & ->)
    %convert_example_inference_row.
  pose proof (Htrunc _ _ _ _ Hseg) as [Hlen Htotal].
  pose proof (Htok _ _ Hids) as Hlids.
  pose proof (join_segments_spec _ _ _ _ Hjoin) as (Hlt & Hmask & Hls).
  exists segments', tokens, mask, sids, ids. simpl. rewrite Hlids.
  assert (Z.to_nat (max_seq_length self - Z.of_nat (length tokens))
          = (Z.to_nat (max_seq_length self) - length tokens)%nat) as -> by lia.
  split_and!; try done; try lia.
  - by rewrite Hmask.
  - rewrite length_app, length_replicate. lia.
  - rewrite Hmask, length_app, !length_replicate. lia.
  - rewrite length_app, length_replicate. lia.
  - intros p. split.
    + intros Hp.
      pose proof (mask_token_positions_range _ _ _ _ _ Hjoin Hp) as Hrange.
      apply (proj1 (mask_token_positions_spec _)) in Hp as (i & -> & Hi).
      exists i. split_and!; [done | lia | lia | done].
    + intros (i & -> & _ & Hi).
      apply (proj1 (mask_token_positions_spec _)). eauto.
Qed.

(** X13. The seven lists that [_convert_X] returns are aligned: the six
    lists of rows have one row per example; without sentence sampling
    there is one example per input sample and no sentence-order label;
    with sentence sampling there is one sentence-order label per
    example. *)
Theorem convert_X_outputs_are_aligned (X : list sample)
    (is_training tokenized : bool) (s : state Rng)
    ids mask seg pos mlm_ids weights sol s' :
  _convert_X str E self X is_training tokenized s
    = (Ok (ids, mask, seg, pos, mlm_ids, weights, sol), s') →
  length mask = length ids ∧ length seg = length ids ∧
  length pos = length ids ∧ length mlm_ids = length ids ∧
  length weights = length ids ∧
  (if is_training && do_sample_sentence self
   then length sol = length ids
   else sol = [] ∧ length ids = length X).
Proof.
  unfold _convert_X.
  intros (docs & s1 & Hdocs & H)%bind_Ok_inv.
  apply bind_Ok_inv in H as ([docs' labels] & s2 & Hsample & H).
  apply bind_Ok_inv in H as (rows & s3 & Hrows & Hret).
  unfold mret, M_ret in Hret. simplify_eq.
  apply for_each_length in Hdocs, Hrows.
  unfold enumerate in Hdocs, Hrows.
  rewrite length_zip_with, length_seq in Hdocs.
  rewrite length_zip_with, length_seq in Hrows.
  rewrite !length_fmap. split_and!; [done..|].
  destruct (is_training && do_sample_sentence self).
  - apply bind_Ok_inv in Hsample as (instances & s4 & _ & Hret).
    unfold mret, M_ret in Hret. simplify_eq.
    rewrite !length_fmap in *. lia.
  - unfold mret, M_ret in Hsample. simplify_eq. split; [done | lia].
Qed.

End Rows.

End ALBERTLayoutSpec.

Module ALBERTFrameFacts.

Import ALBERT ALBERTFacts ALBERTOutputs.
Local Open Scope Z_scope.

Section Frame.

Context {Rng : Type}.
Variable I : state Rng → state Rng → Prop.
Hypothesis I_refl : ∀ s, I s s.
Hypothesis I_trans : ∀ s1 s2 s3, I s1 s2 → I s2 s3 → I s1 s3.

Lemma respects_ret {A} (a : A) : respects I (mret a).
Proof. intros s r s' [= _ <-]. apply I_refl. Qed.

Lemma respects_raise {A} (e : exn) : respects I (raise (A := A) e).
Proof. intros s r s' [= _ <-]. apply I_refl. Qed.

Lemma respects_bind {A B} (m : M Rng A) (k : A → M Rng B) :
  respects I m → (∀ a, respects I (k a)) → respects I (m ≫= k).
Proof.
  intros Hm Hk s r s'. unfold mbind, M_bind.
  destruct (m s) as [[a|e] s1] eqn:Hms.
  - intros Hka. eapply I_trans; [by eapply Hm | by eapply Hk].
  - intros [= _ <-]. by eapply Hm.
Qed.

Lemma respects_try_except {A} (m : M Rng A) (h : exn → M Rng A) :
  respects I m → (∀ e, respects I (h e)) → respects I (try_except m h).
Proof.
  intros Hm Hh s r s'. unfold try_except.
  destruct (m s) as [[a|e] s1] eqn:Hms.
  - intros [= _ <-]. by eapply Hm.
  - intros Hhe. eapply I_trans; [by eapply Hm | by eapply Hh].
Qed.

Lemma respects_for_each {A B} (l : list A) (body : A → M Rng B) :
  (∀ x, respects I (body x)) → respects I (for_each l body).
Proof.
  intros Hbody. induction l as [|x l IH]; simpl.
  - apply respects_ret.
  - apply respects_bind; [done|]. intros b.
    apply respects_bind; [done|]. intros bs. apply respects_ret.
Qed.

Lemma respects_py_assert (b : bool) (msg : string) : respects I (py_assert b msg).
Proof. destruct b; [apply respects_ret | apply respects_raise]. Qed.

Lemma respects_np_array_2d {A} (mk : list (list A) → ndarray) (l : list (list A)) :
  respects I (np_array_2d (Rng := Rng) mk l).
Proof.
  unfold np_array_2d. destruct (rectangular l);
    [apply respects_ret | apply respects_raise].
Qed.

Lemma respects_get_batch_size : respects I get_batch_size.
Proof. intros s r s' [= _ <-]. apply I_refl. Qed.

End Frame.

Section Relations.

Context {Rng : Type}.

Lemma no_sampling_refl (s : state Rng) : no_sampling s s.
Proof. split; [done|]. exists []. by rewrite app_nil_r. Qed.

Lemma no_sampling_trans (s1 s2 s3 : state Rng) :
  no_sampling s1 s2 → no_sampling s2 s3 → no_sampling s1 s3.
Proof.
  intros [Hr1 (t1 & Ht1 & Hq1)] [Hr2 (t2 & Ht2 & Hq2)]. split; [congruence|].
  exists (t1 ++ t2). split; [|by apply Forall_app].
  by rewrite Ht2, Ht1, (assoc_L (++)).
Qed.

Lemma no_sampling_invoke {A} (c : call) (r : result A) :
  is_sampling_call c = false → respects (Rng := Rng) no_sampling (invoke c r).
Proof.
  intros Hc s r' s' [= _ <-]. split; [done|]. exists [c]. split; [done|].
  by constructor.
Qed.

Lemma no_sampling_set_batch_size (b : Z) :
  respects (Rng := Rng) no_sampling (set_batch_size b).
Proof.
  intros s r s' [= _ <-]. split; [done|]. exists []. simpl.
  by rewrite app_nil_r.
Qed.

Lemma keeps_batch_size_refl (s : state Rng) : keeps_batch_size s s.
Proof. done. Qed.

Lemma keeps_batch_size_trans (s1 s2 s3 : state Rng) :
  keeps_batch_size s1 s2 → keeps_batch_size s2 s3 → keeps_batch_size s1 s3.
Proof. unfold keeps_batch_size. congruence. Qed.

Lemma keeps_batch_size_invoke {A} (c : call) (r : result A) :
  respects (Rng := Rng) keeps_batch_size (invoke c r).
Proof. by intros s r' s' [= _ <-]. Qed.

Lemma keeps_batch_size_invoke_random {A} (c : call)
    (f : Rng → result A * Rng) :
  respects keeps_batch_size (invoke_random c f).
Proof.
  intros s r' s'. unfold invoke_random. destruct (f (rng s)) as [r g].
  by intros [= _ <-].
Qed.

End Relations.

Section ConversionFrames.

Context {sample label Rng : Type}.
Variable str : sample → string.
Variable E : collaborators (sample := sample) (label := label) (Rng := Rng).
Variable self : ALBERTLM.

Lemma tokenize_no_sampling X tokenized :
  respects no_sampling (tokenize str E X tokenized).
Proof.
  apply respects_for_each; [apply no_sampling_refl | apply no_sampling_trans|].
  intros [idx x].
  apply respects_try_except; [apply no_sampling_trans | |].
  - by apply no_sampling_invoke.
  - intros e. apply respects_raise, no_sampling_refl.
Qed.

Lemma tokenize_keeps_batch_size X tokenized :
  respects keeps_batch_size (tokenize str E X tokenized).
Proof.
  apply respects_for_each; [done | apply keeps_batch_size_trans|].
  intros [idx x].
  apply respects_try_except; [apply keeps_batch_size_trans | |].
  - apply keeps_batch_size_invoke.
  - intros e. by apply respects_raise.
Qed.

Lemma convert_example_no_sampling idx segments :
  respects no_sampling (convert_example E self false idx segments).
Proof.
  unfold convert_example.
  apply respects_bind; [apply no_sampling_trans | by apply no_sampling_invoke |].
  intros segments'. destruct (join_segments segments') as [[tokens mask] sids].
  apply respects_bind; [apply no_sampling_trans | |].
  - apply respects_ret, no_sampling_refl.
  - intros [[[tokens' positions] ids] weights].
    apply respects_bind;
      [apply no_sampling_trans | by apply no_sampling_invoke |].
    intros iids. apply respects_ret, no_sampling_refl.
Qed.

Lemma convert_example_keeps_batch_size is_training idx segments :
  respects keeps_batch_size (convert_example E self is_training idx segments).
Proof.
  unfold convert_example.
  apply respects_bind;
    [apply keeps_batch_size_trans | apply keeps_batch_size_invoke |].
  intros segments'. destruct (join_segments segments') as [[tokens mask] sids].
  apply respects_bind; [apply keeps_batch_size_trans | |].
  - destruct is_training; [|by apply respects_ret].
    apply respects_bind;
      [apply keeps_batch_size_trans | apply keeps_batch_size_invoke_random |].
    intros [[tokens' positions] labels].
    apply respects_bind;
      [apply keeps_batch_size_trans | apply keeps_batch_size_invoke |].
    intros ids. by apply respects_ret.
  - intros [[[tokens' positions] ids] weights].
    apply respects_bind;
      [apply keeps_batch_size_trans | apply keeps_batch_size_invoke |].
    intros iids. by apply respects_ret.
Qed.

Lemma _convert_X_no_sampling X tokenized :
  respects no_sampling (_convert_X str E self X false tokenized).
Proof.
  unfold _convert_X.
  apply respects_bind; [apply no_sampling_trans | apply tokenize_no_sampling |].
  intros docs. simpl.
  apply respects_bind; [apply no_sampling_trans | |].
  - apply respects_ret, no_sampling_refl.
  - intros [docs' labels].
    apply respects_bind; [apply no_sampling_trans | |].
    + apply respects_for_each; [apply no_sampling_refl | apply no_sampling_trans|].
      intros [idx segments]. apply convert_example_no_sampling.
    + intros rows. apply respects_ret, no_sampling_refl.
Qed.

Lemma _convert_X_keeps_batch_size X is_training tokenized :
  respects keeps_batch_size (_convert_X str E self X is_training tokenized).
Proof.
  unfold _convert_X.
  apply respects_bind;
    [apply keeps_batch_size_trans | apply tokenize_keeps_batch_size |].
  intros docs.
  apply respects_bind; [apply keeps_batch_size_trans | |].
  - destruct (is_training && do_sample_sentence self); [|by apply respects_ret].
    apply respects_bind; [apply keeps_batch_size_trans | |].
    + unfold sample_sentences.
      apply respects_bind; [apply keeps_batch_size_trans | |].
      * apply respects_for_each; [done | apply keeps_batch_size_trans|].
        intros idx. apply keeps_batch_size_invoke_random.
      * intros instances. by apply respects_ret.
    + intros instances. by apply respects_ret.
  - intros [docs' labels].
    apply respects_bind; [apply keeps_batch_size_trans | |].
    + apply respects_for_each; [done | apply keeps_batch_size_trans|].
      intros [idx segments]. apply convert_example_keeps_batch_size.
    + intros rows. by apply respects_ret.
Qed.

Lemma convert_no_sampling X y sample_weight X_tokenized is_parallel :
  respects no_sampling
    (convert str E self X y sample_weight X_tokenized false is_parallel).
Proof.
  unfold convert.
  pose proof (@no_sampling_refl Rng) as Hrefl.
  pose proof (@no_sampling_trans Rng) as Htrans.
  apply respects_bind; [done | by apply no_sampling_invoke |]. intros _.
  apply respects_bind; [done | by apply respects_ret |]. intros _.
  apply respects_bind; [done | |].
  - destruct (truthy X || truthy X_tokenized); [|by apply respects_ret].
    apply respects_bind; [done | apply _convert_X_no_sampling |].
    intros [[[[[[c1 c2] c3] c4] c5] c6] c7].
    do 4 (apply respects_bind; [done | by apply respects_np_array_2d |];
          intros ?).
    apply respects_bind; [done | by apply respects_ret |]. intros data0.
    apply respects_bind; [done | by apply respects_get_batch_size |]. intros b.
    apply respects_bind; [done | | intros _; by apply respects_ret].
    destruct (_ <? _); [apply no_sampling_set_batch_size | by apply respects_ret].
  - intros [data1 n_inputs].
    apply respects_bind; [done | |].
    + destruct (truthy y); [|by apply respects_ret].
      apply respects_bind; [done | by apply no_sampling_invoke |].
      intros ?. by apply respects_ret.
    + intros data2. apply respects_bind; [done | |].
      * simpl. destruct (truthy y); [|by apply respects_ret].
        apply respects_bind; [done | by apply no_sampling_invoke |].
        intros ?. by apply respects_ret.
      * intros data3. by apply respects_ret.
Qed.

End ConversionFrames.

End ALBERTFrameFacts.

Module ALBERTFrameSpec.

Import ALBERT ALBERTFacts ALBERTOutputs ALBERTFrameFacts.
Local Open Scope Z_scope.

Ltac ret_inv H := unfold mret, M_ret in H; simplify_eq.

Section ConversionFrames.

Context {sample label Rng : Type}.
Variable str : sample → string.
Variable E : collaborators (sample := sample) (label := label) (Rng := Rng).
Variable self : ALBERTLM.

(** X14. A conversion for inference draws no random number: however it
    ends, by returning the data or by raising, the random state is the one
    it started with and neither [create_instances_from_document] nor
    [create_masked_lm_predictions] has been called. *)
Theorem inference_conversion_draws_no_randomness (X : option (list sample))
    (y : option (list label)) (sample_weight : option (list R))
    (X_tokenized : option (list sample)) (is_parallel : bool)
    (s : state Rng) r s' :
  convert str E self X y sample_weight X_tokenized false is_parallel s = (r, s') →
  rng s' = rng s ∧
  ∃ calls, trace s' = trace s ++ calls ∧
           Forall (λ c, is_sampling_call c = false) calls.
Proof. apply convert_no_sampling. Qed.

Lemma np_array_2d_Ok {A} (mk : list (list A) → ndarray) (l : list (list A))
    (s : state Rng) a s' :
  np_array_2d mk l s = (Ok a, s') → a = mk l ∧ s' = s.
Proof.
  unfold np_array_2d. destruct (rectangular l); [|done].
  by intros [= <- <-].
Qed.

(** X15. A successful [convert] changes [self.batch_size] in one case only:
    when it converted [n] examples and [n] is smaller than the current
    batch size, the batch size becomes the larger of [n] and the number of
    GPUs. Without [X] and [X_tokenized] it is never changed. [n] is the
    number of rows of [data["input_ids"]]. *)
Theorem convert_batch_size_rule (X : option (list sample))
    (y : option (list label)) (sample_weight : option (list R))
    (X_tokenized : option (list sample)) (is_training is_parallel : bool)
    (s : state Rng) data s' :
  convert str E self X y sample_weight X_tokenized is_training is_parallel s
    = (Ok data, s') →
  if truthy X || truthy X_tokenized then
    ∃ input_ids, data !! "input_ids"%string = Some (int32_2d input_ids) ∧
      batch_size s'
      = if Z.of_nat (length input_ids) <? batch_size s
        then Z.of_nat (length input_ids) `max` n_gpus self
        else batch_size s
  else batch_size s' = batch_size s.
Proof.
  unfold convert. intros H.
  apply bind_Ok_inv in H as (? & s1 & H1 & H).
  apply keeps_batch_size_invoke in H1.
  apply bind_Ok_inv in H as (? & s2 & H2 & H).
  assert (batch_size s2 = batch_size s1) as H2'.
  { unfold py_assert, raise, mret, M_ret in H2.
    destruct is_training;
      [destruct y; [destruct (negb _) | destruct (do_sample_sentence self)]|];
      by simplify_eq. }
  apply bind_Ok_inv in H as ([data1 n_inputs] & s3 & HX & H).
  apply bind_Ok_inv in H as (data2 & s4 & Hy & H).
  apply bind_Ok_inv in H as (data3 & s5 & Hw & H).
  ret_inv H.
  assert (batch_size s4 = batch_size s3 ∧
          data2 !! "input_ids"%string = data1 !! "input_ids"%string)
    as [Hb4 Hd2].
  { destruct (truthy y); [|by ret_inv Hy].
    apply bind_Ok_inv in Hy as (? & ? & Hy1 & Hy). ret_inv Hy.
    apply keeps_batch_size_invoke in Hy1.
    split; [done|]. by rewrite lookup_insert_ne. }
  assert (batch_size s' = batch_size s4 ∧
          data !! "input_ids"%string = data2 !! "input_ids"%string)
    as [Hb5 Hd3].
  { destruct (is_training || truthy y); [|by ret_inv Hw].
    apply bind_Ok_inv in Hw as (? & ? & Hw1 & Hw). ret_inv Hw.
    apply keeps_batch_size_invoke in Hw1.
    split; [done|]. by rewrite lookup_insert_ne. }
  unfold keeps_batch_size in H1.
  destruct (truthy X || truthy X_tokenized).
  - apply bind_Ok_inv in HX as ([[[[[[c1 c2] c3] c4] c5] c6] c7] & sa & HcX & HX).
    apply _convert_X_keeps_batch_size in HcX. unfold keeps_batch_size in HcX.
    apply bind_Ok_inv in HX as (a1 & ? & [-> ->]%np_array_2d_Ok & HX).
    apply bind_Ok_inv in HX as (a2 & ? & [-> ->]%np_array_2d_Ok & HX).
    apply bind_Ok_inv in HX as (a3 & ? & [-> ->]%np_array_2d_Ok & HX).
    apply bind_Ok_inv in HX as (a4 & ? & [-> ->]%np_array_2d_Ok & HX).
    apply bind_Ok_inv in HX as (data0 & sb & Hdata0 & HX).
    assert (sb = sa ∧ data0 !! "input_ids"%string = Some (int32_2d c1))
      as [-> Hd0].
    { destruct is_training.
      - apply bind_Ok_inv in Hdata0 as (a5 & ? & [-> ->]%np_array_2d_Ok & Hdata0).
        apply bind_Ok_inv in Hdata0 as (a6 & ? & [-> ->]%np_array_2d_Ok & Hdata0).
        ret_inv Hdata0. split; [done|].
        rewrite !lookup_insert_ne by done. by rewrite lookup_insert.
      - ret_inv Hdata0. split; [done|].
        rewrite !lookup_insert_ne by done. by rewrite lookup_insert. }
    apply bind_Ok_inv in HX as (b & sc & Hb & HX).
    unfold get_batch_size in Hb. injection Hb as <- <-.
    apply bind_Ok_inv in HX as (? & sd & Hset & HX). ret_inv HX.
    exists c1. split.
    + rewrite Hd3, Hd2.
      destruct (is_training && do_sample_sentence self);
        [by rewrite lookup_insert_ne | done].
    + rewrite Hb5, Hb4. rewrite <- H1, <- H2', <- HcX.
      destruct (_ <? _); [|by ret_inv Hset].
      unfold set_batch_size in Hset. by injection Hset as _ <-.
  - ret_inv HX. congruence.
Qed.

End ConversionFrames.

End ALBERTFrameSpec.

(** * What [ALBERTLM] reports after predicting and fitting *)

Module ALBERTOutputFacts.

Import ALBERT ALBERTFacts ALBERTOutputs ALBERTLayoutFacts.
Local Open Scope Z_scope.

(** The loop over the predictions of one example, for a row of positions
    that starts with [real], none of them 0, and goes on with [rest], which
    is empty or starts with 0. *)
Lemma mlm_ids_loop_from (real rest : list Z) (_preds : list Z) (i : nat)
    (acc : list Z) :
  Forall (λ p, p ≠ 0) real → (rest = [] ∨ rest !! 0%nat = Some 0) →
  (i ≤ length real)%nat →
  mlm_ids_loop (real ++ rest) (zip (seq i (length _preds)) _preds) acc
  = if decide (i + length _preds ≤ length real)%nat then Some (acc ++ _preds)
    else match rest with
         | [] => None
         | _ => Some (acc ++ take (length real - i) _preds)
         end.
Proof.
  intros Hreal Hrest. revert i acc.
  induction _preds as [|p ps IH]; intros i acc Hi; simpl.
  - rewrite decide_True by lia. by rewrite app_nil_r.
  - destruct (decide (i < length real)%nat) as [Hlt|Hge].
    + destruct (lookup_lt_is_Some_2 real i Hlt) as [x Hx].
      rewrite lookup_app_l, Hx by done.
      rewrite bool_decide_eq_false_2
        by (eapply (proj1 (Forall_forall _ _) Hreal), list_elem_of_lookup_2, Hx).
      rewrite IH by lia.
      replace (length real - i)%nat with (S (length real - S i)) by lia.
      simpl. rewrite <- !(assoc_L (++)). simpl.
      destruct (decide (S (i + length ps) ≤ length real)%nat);
        [rewrite decide_True by lia | rewrite decide_False by lia]; done.
    + assert (i = length real) as -> by lia.
      rewrite decide_False by lia.
      rewrite lookup_app_r, Nat.sub_diag by lia.
      destruct Hrest as [-> | Hrest]; [done|].
      rewrite Hrest. rewrite bool_decide_eq_true_2 by done.
      destruct rest; [done|]. simpl. by rewrite app_nil_r.
Qed.

Lemma filter_nonzero_padded (real : list Z) (n : nat) :
  Forall (λ p, p ≠ 0) real →
  filter (λ p, p ≠ 0) (real ++ replicate n 0) = real.
Proof.
  intros Hreal. rewrite filter_app.
  assert (filter (λ p, p ≠ 0) (replicate n 0) = []) as ->.
  { induction n as [|n IH]; [done|]. simpl. by rewrite filter_cons_False by lia. }
  rewrite app_nil_r. induction Hreal as [|p real Hp _ IH]; [done|].
  by rewrite filter_cons_True, IH.
Qed.

(** The loop on a row as the conversion pads it, for as many predictions
    as the row is wide, or fewer. *)
Lemma mlm_ids_loop_padded (real : list Z) (n : nat) (_preds : list Z) :
  Forall (λ p, p ≠ 0) real →
  (length _preds ≤ length real + n)%nat →
  mlm_ids_loop (real ++ replicate n 0) (enumerate _preds) []
  = Some (take (length (filter (λ p, p ≠ 0) (real ++ replicate n 0))) _preds).
Proof.
  intros Hreal Hlen. unfold enumerate.
  rewrite filter_nonzero_padded by done.
  rewrite mlm_ids_loop_from; [|done | | lia].
  - case_decide as Hcase; simpl.
    + by rewrite take_ge by lia.
    + destruct n as [|n]; [lia|]. simpl. by rewrite Nat.sub_0_r.
  - destruct n; [by left | by right].
Qed.

(** There are as many positions as [MASK] tokens. *)
Lemma length_mask_token_positions (tokens : list string) :
  length (mask_token_positions tokens)
  = length (filter (λ t, t = "[MASK]"%string) tokens).
Proof.
  unfold mask_token_positions. rewrite length_fmap.
  assert (∀ pre : list string,
            length (filter (λ i, (pre ++ tokens) !! i = Some "[MASK]"%string)
                           (seq (length pre) (length tokens)))
            = length (filter (λ t, t = "[MASK]"%string) tokens)) as H.
  { induction tokens as [|t tokens IH]; intros pre; [done|]. simpl.
    specialize (IH (pre ++ [t])).
    rewrite <- (assoc_L (++)), length_app in IH. simpl in IH.
    rewrite Nat.add_1_r in IH.
    rewrite !filter_cons.
    assert ((pre ++ t :: tokens) !! length pre = Some t) as Ht
      by by rewrite lookup_app_r, Nat.sub_diag by lia.
    destruct (decide (t = "[MASK]"%string)) as [->|Hne].
    - rewrite decide_True by done. simpl. by rewrite IH.
    - rewrite decide_False by (rewrite Ht; congruence). done. }
  apply (H []).
Qed.

Lemma mapM_Forall2_ext {A A' B} (f : A → option B) (g : A' → option B) l l' :
  Forall2 (λ x y, f x = g y) l l' → mapM f l = mapM g l'.
Proof.
  intros H. apply option_eq. intros k. rewrite !mapM_Some. revert k.
  induction H as [|x y l l' Hxy _ IH]; intros k.
  - split; inversion 1; constructor.
  - split; inversion 1; simplify_eq; constructor;
      try congruence; by apply IH.
Qed.

Lemma Forall2_concat_rows {A B} (P : A → B → Prop) ls1 ls2 :
  Forall2 (Forall2 P) ls1 ls2 → Forall2 P (concat ls1) (concat ls2).
Proof.
  induction 1 as [|l1 l2 ls1 ls2 Hl _ IH]; simpl; [constructor|].
  by apply Forall2_app.
Qed.

Lemma np_sum_nonneg (l : list bool) : 0 ≤ np_sum l.
Proof. unfold np_sum. lia. Qed.

Lemma np_sum_cons (b : bool) (l : list bool) :
  np_sum (b :: l) = Z.b2z b + np_sum l.
Proof.
  unfold np_sum. rewrite filter_cons. destruct b.
  - rewrite decide_True by done. simpl. lia.
  - rewrite decide_False by done. simpl. lia.
Qed.

Lemma hits_le_total (slots : list mlm_slot) :
  np_sum (mlm_hit <$> slots) ≤ np_sum (batch_mlm_mask <$> slots).
Proof.
  induction slots as [|sl slots IH]; csimpl; [done|].
  rewrite !np_sum_cons.
  assert (Z.b2z (mlm_hit sl) ≤ Z.b2z (batch_mlm_mask sl)).
  { unfold mlm_hit.
    destruct (slot_pred sl =? slot_label sl), (batch_mlm_mask sl); simpl; lia. }
  lia.
Qed.

Lemma total_zero (slots : list mlm_slot) :
  np_sum (batch_mlm_mask <$> slots) = 0
  ↔ Forall (λ sl, slot_position sl ≤ 0) slots.
Proof.
  induction slots as [|sl slots IH]; csimpl; [by split|].
  rewrite np_sum_cons, Forall_cons, <- IH.
  pose proof (np_sum_nonneg (batch_mlm_mask <$> slots)).
  destruct (batch_mlm_mask sl) eqn:Hm; unfold batch_mlm_mask in Hm;
    [apply Z.ltb_lt in Hm | apply Z.ltb_ge in Hm]; simpl; lia.
Qed.

End ALBERTOutputFacts.

Module ALBERTOutputSpec.

Import ALBERT ALBERTFacts ALBERTOutputs ALBERTLayoutFacts ALBERTOutputFacts.
Local Open Scope Z_scope.

Section Predictions.

Context {sample label Rng : Type}.
Variable str : sample → string.
Variable E : collaborators (sample := sample) (label := label) (Rng := Rng).
Variable self : ALBERTLM.
Variable convert_ids_to_tokens : list Z → option (list string).

(** X16. For an example converted for inference and a row of at most
    [length masked_lm_positions] predictions, the loop of
    [_get_predict_outputs] keeps the first [k] predicted ids, where [k] is
    the number of [MASK] tokens of the example: one prediction for each
    [MASK] token, in the order of the tokens, and none for the padding. *)
Theorem one_prediction_per_mask_token (idx : nat) segments (s : state Rng) r s'
    (_preds : list Z) :
  convert_example E self false idx segments s = (Ok r, s') →
  (length _preds ≤ length (masked_lm_positions r))%nat →
  ∃ segments' tokens mask sids,
    truncate_segments E segments
      (max_seq_length self - Z.of_nat (length segments) - 1)
      (truncate_method self) = Ok segments' ∧
    join_segments segments' = (tokens, mask, sids) ∧
    mlm_ids_loop (masked_lm_positions r) (enumerate _preds) []
    = Some (take (length (filter (λ t, t = "[MASK]"%string) tokens)) _preds).
Proof.
  intros (segments' & tokens & mask & sids & ids & Hseg & Hjoin & Hids & ->)
    %convert_example_inference_row. simpl. intros Hlen.
  exists segments', tokens, mask, sids. split_and!; [done..|].
  assert (Forall (λ p, p ≠ 0) (mask_token_positions tokens)) as Hreal.
  { apply Forall_forall. intros p Hp.
    pose proof (mask_token_positions_range _ _ _ _ _ Hjoin Hp). lia. }
  rewrite length_app, length_replicate in Hlen.
  rewrite mlm_ids_loop_padded by done.
  by rewrite filter_nonzero_padded, length_mask_token_positions.
Qed.

(** X17. [_convert_X] for inference followed by [_get_predict_outputs]:
    when the graph returns one row of predictions per example, each no
    longer than the row of positions, [mlm_preds] holds for every example
    the tokens of its first [k] predicted ids, where [k] is the number of
    entries of its [masked_lm_positions] that are not 0; no index is out of
    range. *)
Theorem mlm_preds_of_inference_batch (X : list sample) (tokenized : bool)
    (s : state Rng) ids mask seg pos mlm_ids weights sol s'
    (all_preds : list (list Z)) :
  _convert_X str E self X false tokenized s
    = (Ok (ids, mask, seg, pos, mlm_ids, weights, sol), s') →
  Forall2 (λ row _preds, (length _preds ≤ length row)%nat) pos all_preds →
  mlm_preds convert_ids_to_tokens pos all_preds
  = mapM convert_ids_to_tokens
      (zip_with (λ row _preds, take (length (filter (λ p, p ≠ 0) row)) _preds)
                pos all_preds).
Proof.
  intros Hrun Hlen.
  apply _convert_X_rows in Hrun as (rows & sol' & Hout & Hrows). simplify_eq.
  unfold mlm_preds, enumerate.
  apply mapM_Forall2_ext. apply Forall2_same_length_lookup. split.
  { rewrite !length_zip_with, length_seq, length_fmap.
    apply Forall2_length in Hlen. rewrite length_fmap in Hlen. lia. }
  intros i [idx _preds] ids' Hl Hr.
  rewrite (lookup_zip_with pair) in Hl.
  apply bind_Some in Hl as (idx' & Hidx & (p' & Hp & ?)%bind_Some).
  simplify_eq.
  apply lookup_seq in Hidx as [-> Hi]. simpl in *.
  apply lookup_zip_with_Some in Hr as (row & p'' & -> & Hrow & Hp'').
  simplify_eq. rewrite Hrow. simpl.
  pose proof (Forall2_lookup_lr _ _ _ _ _ _ Hlen Hrow Hp) as Hle.
  rewrite list_lookup_fmap in Hrow.
  destruct (rows !! i) as [r|] eqn:Hri; [|done]. simplify_eq/=.
  apply (Forall_lookup_1 _ _ _ _ Hrows) in Hri
    as (idx & segments & s1 & s2 & Hr).
  apply convert_example_inference_row in Hr
    as (segments' & tokens & mask' & sids & ids'' & Hseg & Hjoin & Hids & ->).
  simpl in *.
  assert (Forall (λ p, p ≠ 0) (mask_token_positions tokens)) as Hreal.
  { apply Forall_forall. intros p Hpp.
    pose proof (mask_token_positions_range _ _ _ _ _ Hjoin Hpp). lia. }
  rewrite length_app, length_replicate in Hle.
  pose proof (mlm_ids_loop_padded _ _ _ Hreal Hle) as Hloop.
  unfold enumerate in Hloop. by rewrite Hloop.
Qed.

End Predictions.

(** X18. The MLM accuracy of [_get_fit_info] counts the slots with a
    positive position only: the predictions and labels of the other slots,
    the padding, do not change it; it lies between 0 and 1; and it is not
    a number exactly when the batch has no slot with a positive
    position. *)
Theorem mlm_accuracy_counts_masked_slots_only (batch batch' : list (list mlm_slot)) :
  Forall2 (Forall2 (λ a b, slot_position a = slot_position b ∧
                           (0 < slot_position a →
                            slot_label a = slot_label b ∧
                            slot_pred a = slot_pred b))) batch batch' →
  mlm_accuracy batch' = mlm_accuracy batch ∧
  (∀ acc, mlm_accuracy batch = Some acc → (0 <= acc <= 1)%R) ∧
  (mlm_accuracy batch = None
   ↔ Forall (Forall (λ slot, slot_position slot ≤ 0)) batch).
Proof.
  intros Hagree. split_and!.
  - apply Forall2_concat_rows in Hagree. unfold mlm_accuracy.
    assert (np_sum (mlm_hit <$> concat batch')
            = np_sum (mlm_hit <$> concat batch) ∧
            np_sum (batch_mlm_mask <$> concat batch')
            = np_sum (batch_mlm_mask <$> concat batch)) as [-> ->]; [|done].
    induction Hagree as [|a b l l' [Hpos Hab] _ [IH1 IH2]]; [done|]. csimpl.
    rewrite !np_sum_cons, IH1, IH2. unfold mlm_hit, batch_mlm_mask.
    rewrite <- Hpos.
    destruct (Z.ltb_spec 0 (slot_position a)) as [Hmasked|Hpad].
    + destruct (Hab Hmasked) as [-> ->]. done.
    + by rewrite !andb_false_r.
  - intros acc. unfold mlm_accuracy.
    pose proof (hits_le_total (concat batch)) as Hle.
    pose proof (np_sum_nonneg (mlm_hit <$> concat batch)) as H0.
    case_bool_decide as Htotal; [done|]. intros [= <-].
    assert (0 < np_sum (batch_mlm_mask <$> concat batch)) as Hpos by lia.
    apply IZR_lt in Hpos. apply IZR_le in Hle, H0.
    split.
    + apply Rmult_le_pos; [done|]. left. by apply Rinv_0_lt_compat.
    + apply (Rmult_le_reg_r (IZR (np_sum (batch_mlm_mask <$> concat batch))));
        [done|].
      unfold Rdiv. rewrite Rmult_assoc, Rinv_l, Rmult_1_r, Rmult_1_l; [done|].
      by apply Rgt_not_eq.
  - unfold mlm_accuracy. rewrite <- Forall_concat. rewrite <- total_zero.
    case_bool_decide; split; done.
Qed.

End ALBERTOutputSpec.

(** * The further properties on the stand-ins *)

Module DemoOutputs.

Import ALBERT ALBERTFacts ALBERTOutputs Demo DemoFacts.
Import ALBERTLayoutSpec ALBERTFrameSpec ALBERTOutputSpec.
Local Open Scope Z_scope.

Lemma inference_example_layout_witness :
  ∃ r s',
    convert_example demo (demo_self 2 false) false 0
      [["the"; "[MASK]"; "sat"]%string] s0 = (Ok r, s') ∧
    ∃ segments' _input_tokens _input_mask _segment_ids real_input_ids,
      truncate_segments demo [["the"; "[MASK]"; "sat"]%string]
        (max_seq_length (demo_self 2 false) - Z.of_nat 1 - 1)
        (truncate_method (demo_self 2 false)) = Ok segments' ∧
      join_segments segments' = (_input_tokens, _input_mask, _segment_ids) ∧
      convert_tokens_to_ids demo _input_tokens = Ok real_input_ids ∧
      length _input_tokens
      = (1 + length (concat segments') + length segments')%nat ∧
      Z.of_nat (length _input_tokens) ≤ max_seq_length (demo_self 2 false) ∧
      length real_input_ids = length _input_tokens ∧
      length _segment_ids = length _input_tokens ∧
      input_ids r
        = real_input_ids
          ++ replicate (Z.to_nat (max_seq_length (demo_self 2 false))
                        - length _input_tokens) 0 ∧
      input_mask r
        = replicate (length _input_tokens) 1
          ++ replicate (Z.to_nat (max_seq_length (demo_self 2 false))
                        - length _input_tokens) 0 ∧
      segment_ids r
        = _segment_ids
          ++ replicate (Z.to_nat (max_seq_length (demo_self 2 false))
                        - length _input_tokens) 0 ∧
      Z.of_nat (length (input_ids r)) = max_seq_length (demo_self 2 false) ∧
      Z.of_nat (length (input_mask r)) = max_seq_length (demo_self 2 false) ∧
      Z.of_nat (length (segment_ids r)) = max_seq_length (demo_self 2 false) ∧
      masked_lm_positions r
        = mask_token_positions _input_tokens
          ++ replicate (Z.to_nat (mask_width (demo_self 2 false)
               - Z.of_nat (length (mask_token_positions _input_tokens)))) 0 ∧
      (∀ p, p ∈ mask_token_positions _input_tokens
            ↔ ∃ i : nat, p = Z.of_nat i ∧ (1 ≤ i < length _input_tokens)%nat ∧
                         _input_tokens !! i = Some "[MASK]"%string).
Proof.
  do 2 eexists. split; [vm_compute; reflexivity|].
  eapply (inference_example_layout demo (demo_self 2 false) 0
            [["the"; "[MASK]"; "sat"]%string] s0).
  - exact demo_truncation_contract.
  - exact demo_tokenizer_contract.
  - vm_compute. reflexivity.
Defined.

Lemma convert_X_outputs_are_aligned_witness :
  ∃ ids mask seg pos mlm_ids weights sol s',
    _convert_X demo_str demo (demo_self 2 false)
      [["the"; "cat"]; ["sat"]]%string false true s0
      = (Ok (ids, mask, seg, pos, mlm_ids, weights, sol), s') ∧
    length mask = length ids ∧ length seg = length ids ∧
    length pos = length ids ∧ length mlm_ids = length ids ∧
    length weights = length ids ∧
    (if false && do_sample_sentence (demo_self 2 false)
     then length sol = length ids
     else sol = [] ∧ length ids = length [["the"; "cat"]; ["sat"]]%string).
Proof.
  do 8 eexists. split; [vm_compute; reflexivity|].
  eapply (convert_X_outputs_are_aligned demo_str demo (demo_self 2 false)
           [["the"; "cat"]; ["sat"]]%string false true s0).
  vm_compute. reflexivity.
Defined.

Lemma inference_conversion_draws_no_randomness_witness :
  ∃ r s',
    convert demo_str demo (demo_self 2 false)
      (Some [["the"; "[MASK]"]%string]) None None None false false s0
      = (r, s') ∧
    rng s' = rng s0 ∧
    ∃ calls, trace s' = trace s0 ++ calls ∧
             Forall (λ c, is_sampling_call c = false) calls.
Proof.
  do 2 eexists. split; [vm_compute; reflexivity|].
  eapply (inference_conversion_draws_no_randomness demo_str demo
           (demo_self 2 false) (Some [["the"; "[MASK]"]%string]) None None None
           false s0).
  vm_compute. reflexivity.
Defined.

(** A batch size of 8 and a single example on one GPU. *)
Lemma convert_batch_size_rule_witness :
  ∃ data s',
    convert demo_str demo (demo_self 2 false)
      (Some [["the"; "[MASK]"]%string]) None None None false false
      {| rng := 0%nat; batch_size := 8; trace := [] |} = (Ok data, s') ∧
    ∃ input_ids, data !! "input_ids"%string = Some (int32_2d input_ids) ∧
      batch_size s'
      = if Z.of_nat (length input_ids) <? 8
        then Z.of_nat (length input_ids) `max` n_gpus (demo_self 2 false)
        else 8.
Proof.
  do 2 eexists. split; [vm_compute; reflexivity|].
  eapply (convert_batch_size_rule demo_str demo (demo_self 2 false)
           (Some [["the"; "[MASK]"]%string]) None None None false false
           {| rng := 0%nat; batch_size := 8; trace := [] |}).
  vm_compute. reflexivity.
Defined.

Lemma one_prediction_per_mask_token_witness :
  ∃ r s',
    convert_example demo (demo_self 2 false) false 0
      [["[MASK]"; "cat"]%string] s0 = (Ok r, s') ∧
    ∃ segments' tokens mask sids,
      truncate_segments demo [["[MASK]"; "cat"]%string]
        (max_seq_length (demo_self 2 false) - Z.of_nat 1 - 1)
        (truncate_method (demo_self 2 false)) = Ok segments' ∧
      join_segments segments' = (tokens, mask, sids) ∧
      mlm_ids_loop (masked_lm_positions r) (enumerate [7; 9]) []
      = Some (take (length (filter (λ t, t = "[MASK]"%string) tokens)) [7; 9]).
Proof.
  do 2 eexists. split; [vm_compute; reflexivity|].
  eapply (one_prediction_per_mask_token demo (demo_self 2 false) 0
           [["[MASK]"; "cat"]%string] s0).
  - vm_compute. reflexivity.
  - simpl. lia.
Defined.

Lemma mlm_preds_of_inference_batch_witness :
  ∃ ids mask seg pos mlm_ids weights sol s',
    _convert_X demo_str demo (demo_self 2 false)
      [["[MASK]"; "cat"]; ["sat"]]%string false true s0
      = (Ok (ids, mask, seg, pos, mlm_ids, weights, sol), s') ∧
    mlm_preds (λ _ids, Some ((λ _, "cat"%string) <$> _ids)) pos [[7; 9]; [3; 4]]
    = mapM (λ _ids, Some ((λ _, "cat"%string) <$> _ids))
        (zip_with (λ row _preds, take (length (filter (λ p, p ≠ 0) row)) _preds)
                  pos [[7; 9]; [3; 4]]).
Proof.
  do 8 eexists. split; [vm_compute; reflexivity|].
  eapply (mlm_preds_of_inference_batch demo_str demo (demo_self 2 false)
            (λ _ids, Some ((λ _, "cat"%string) <$> _ids))
            [["[MASK]"; "cat"]; ["sat"]]%string true s0).
  - vm_compute. reflexivity.
  - repeat constructor.
Defined.

Lemma mlm_accuracy_counts_masked_slots_only_witness :
  let batch := [[ {| slot_position := 1; slot_label := 5; slot_pred := 5 |};
                  {| slot_position := 0; slot_label := 0; slot_pred := 3 |} ]] in
  let batch' := [[ {| slot_position := 1; slot_label := 5; slot_pred := 5 |};
                   {| slot_position := 0; slot_label := 9; slot_pred := 9 |} ]] in
  mlm_accuracy batch' = mlm_accuracy batch ∧
  (∀ acc, mlm_accuracy batch = Some acc → (0 <= acc <= 1)%R) ∧
  (mlm_accuracy batch = None
   ↔ Forall (Forall (λ slot, slot_position slot ≤ 0)) batch).
Proof.
  intros batch batch'.
  apply (mlm_accuracy_counts_masked_slots_only batch batch').
  constructor; [|constructor].
  constructor; [|constructor; [|constructor]].
  - split; [reflexivity|]. intros _. split; reflexivity.
  - split; [reflexivity|]. simpl. lia.
Defined.

End DemoOutputs.
